(** * Regularized in-plane registration of a stack of slices

    A shallow embedding of [src/py/registration/RegularizedInPlaneRegistration.py]
    (class [RegularizedInPlaneRegistration]) and the properties its
    specification states about it.

    Python objects that the program mutates in place live in explicit
    stores: the [Slice] objects of a stack, the projected 2D slices and the
    [sitk.Euler2DTransform] objects are store cells addressed by a location,
    and Python lists of such objects are lists of locations, so that two
    entries of a list may name the same object.  A step that only
    computes returns an [option], a raised exception being [None]; a call
    that works on the stores is a [Call]: it leaves a store behind whether
    it returns or raises, so that what a raising call has done by then is
    not lost.

    SimpleITK, numpy's floating point arithmetic, scipy's solver and the
    helper modules [utilities.SimpleITKHelper], [base.Slice] and
    [base.Stack] lie outside this source file; their operations are the
    fields of the class [Toolkit] below. *)

From stdpp Require Import base option list strings.
From Stdlib Require Import ZArith.

Set Default Proof Using "Type".

(** ** Data *)

(** Parameters and center of a [sitk.Euler2DTransform]:
    [GetParameters() = (angle, tx, ty)], [GetCenter() = (cx, cy)]. *)
Record Euler2D (R : Type) := mkEuler2D {
  e2_angle : R;
  e2_translation : R * R;
  e2_center : R * R
}.
Arguments mkEuler2D {R}.
Arguments e2_angle {R}.
Arguments e2_translation {R}.
Arguments e2_center {R}.

(** Rotation (angleX, angleY, angleZ), translation and center of a
    [sitk.Euler3DTransform], and its fourth fixed parameter, the flag of
    the rotation order. *)
Record Euler3D (R : Type) := mkEuler3D {
  e3_rotation : R * R * R;
  e3_translation : R * R * R;
  e3_center : R * R * R;
  e3_compute_zyx : R
}.
Arguments mkEuler3D {R}.
Arguments e3_rotation {R}.
Arguments e3_translation {R}.
Arguments e3_center {R}.
Arguments e3_compute_zyx {R}.

(** A 3 by 3 matrix, row by row, as [GetDirection()] and [GetMatrix()]
    list it. *)
Definition Matrix3 (R : Type) : Type := (R * R * R) * (R * R * R) * (R * R * R).

(** A 2D [sitk.Image]: size (nx, ny), geometry, pixel type id and the pixel
    buffer, x running fastest. *)
Record Image2D (R : Type) := mkImage2D {
  size2 : nat * nat;
  spacing2 : R * R;
  origin2 : R * R;
  direction2 : (R * R) * (R * R);
  pixel_id2 : nat;
  pixels2 : list R
}.
Arguments mkImage2D {R}.
Arguments size2 {R}.
Arguments spacing2 {R}.
Arguments origin2 {R}.
Arguments direction2 {R}.
Arguments pixel_id2 {R}.
Arguments pixels2 {R}.

(** A 3D [sitk.Image]: size (nx, ny, nz). *)
Record Image3D (R : Type) := mkImage3D {
  size3 : nat * nat * nat;
  spacing3 : R * R * R;
  origin3 : R * R * R;
  direction3 : Matrix3 R;
  pixel_id3 : nat;
  pixels3 : list R
}.
Arguments mkImage3D {R}.
Arguments size3 {R}.
Arguments spacing3 {R}.
Arguments origin3 {R}.
Arguments direction3 {R}.
Arguments pixel_id3 {R}.
Arguments pixels3 {R}.

(** A two-dimensional numpy array: shape (rows, cols) and the row-major
    buffer. *)
Record ndarray (R : Type) := mkNd {
  nd_rows : nat;
  nd_cols : nat;
  nd_data : list R
}.
Arguments mkNd {R}.
Arguments nd_rows {R}.
Arguments nd_cols {R}.
Arguments nd_data {R}.

(** A location in one of the stores. *)
Abbreviation loc := nat (only parsing).

(** Modelled from the spec: the [Slice] container of [base.Slice] (section 3
    and section 6): an image, a mask of identical geometry, a filename and
    a slice index.  A slice of a stack carries 3D images. *)
Record Slice (R : Type) := mkSlice {
  sitk : Image3D R;
  sitk_mask : Image3D R;
  slice_filename : string;
  slice_number : nat
}.
Arguments mkSlice {R}.
Arguments sitk {R}.
Arguments sitk_mask {R}.
Arguments slice_filename {R}.
Arguments slice_number {R}.

(** Modelled from the spec: a [Slice] built from a raw 2D image plus
    metadata (section 6), as the projected slices are. *)
Record Slice2D (R : Type) := mkSlice2D {
  sitk2 : Image2D R;
  sitk_mask2 : Image2D R;
  slice_filename2 : string;
  slice_number2 : nat
}.
Arguments mkSlice2D {R}.
Arguments sitk2 {R}.
Arguments sitk_mask2 {R}.
Arguments slice_filename2 {R}.
Arguments slice_number2 {R}.

(** Modelled from the spec: the [Stack] container of [base.Stack] (section 3
    and section 6): the volume, the stack-level mask, the ordered slices
    (references to [Slice] objects) and the filename. *)
Record Stack (R : Type) := mkStack {
  stack_sitk : Image3D R;
  stack_sitk_mask : Image3D R;
  stack_slices : list loc;
  stack_filename : string
}.
Arguments mkStack {R}.
Arguments stack_sitk {R}.
Arguments stack_sitk_mask {R}.
Arguments stack_slices {R}.
Arguments stack_filename {R}.

(** The mutable objects of a run. *)
Record World (R : Type) := mkWorld {
  w_slices : list (Slice R);
  w_slices2D : list (Slice2D R);
  w_transforms : list (Euler2D R)
}.
Arguments mkWorld {R}.
Arguments w_slices {R}.
Arguments w_slices2D {R}.
Arguments w_transforms {R}.

Inductive Interpolator := sitkNearestNeighbor | sitkLinear.
Inductive Method := trf | dogbox | lm.
Inductive Loss := linear | soft_l1.

(** A terminating solver seen from its caller: it returns a parameter
    vector, raises, or asks for the residual at a point and goes on from the
    answer. *)
Inductive Solver (R : Type) :=
| SolverReturn (x : list R)
| SolverRaise
| SolverCall (x : list R) (k : list R → Solver R).
Arguments SolverReturn {R}.
Arguments SolverRaise {R}.
Arguments SolverCall {R}.

(** ** The operations the program takes from its collaborators *)

Class Toolkit (R : Type) := {
  (** numpy: the float [0.], subtraction of two array entries *)
  r_zero : R;
  r_sub : R → R → R;
  (** SimpleITK: product of two pixels, cast of a pixel to the pixel type
      with the given id *)
  r_mul : R → R → R;
  cast_pixel : nat → R → R;
  (** ITK: whether two images given by spacing, origin and direction
      occupy the same physical space, within ITK's tolerance *)
  same_physical_space :
    (R * R) * (R * R) * ((R * R) * (R * R)) →
    (R * R) * (R * R) * ((R * R) * (R * R)) → bool;
  (** SimpleITK: the value [sitk.Resample(moving, grid, transform,
      interpolator)] has at the grid pixel with the given linear index *)
  resample_value :
    Image2D R → Image2D R → Euler2D R → Interpolator → nat → R;
  (** SimpleITK: the geometry of the 2D image [img[:,:,0]]; the extraction
      raises when the geometry does not collapse to 2D *)
  collapse_geometry :
    Image3D R → option ((R * R) * (R * R) * ((R * R) * (R * R)));
  (** SimpleITK: [Euler2DTransform.GetInverse()] *)
  euler2D_inverse : Euler2D R → Euler2D R;
  (** SimpleITK: a 3D transform as the helpers see it, through
      [GetMatrix], [GetTranslation] and [GetCenter] *)
  Transform : Type;
  euler3D_transform : Euler3D R → Transform;
  (** [sitk.AffineTransform(3)] after [SetMatrix] and [SetTranslation] *)
  affine_transform : Matrix3 R → R * R * R → Transform;
  (** [GetInverse()], which raises on a singular transform *)
  transform_inverse : Transform → option Transform;
  (** [TransformPoint] *)
  transform_point : Transform → R * R * R → R * R * R;
  (** utilities.SimpleITKHelper *)
  get_composite_sitk_affine_transform : Transform → Transform → Transform;
  get_sitk_affine_transform_from_sitk_image : Image3D R → Transform;
  get_sitk_image_direction_from_sitk_affine_transform :
    Transform → Image3D R → Matrix3 R;
  get_sitk_image_origin_from_sitk_affine_transform :
    Transform → Image3D R → R * R * R;
  (** the same helper on the 2D image of a projected slice *)
  Transform2D : Type;
  get_sitk_affine_transform_from_sitk_image_2D : Image2D R → Transform2D;
  (** base.Slice: the mask a slice built from a raw image receives, and the
      direction and origin [update_motion_correction] gives an image *)
  default_mask : Image2D R → Image2D R;
  motion_corrected_placement :
    Transform → Image3D R → Matrix3 R * (R * R * R);
  (** scipy.optimize.least_squares from the initial guess *)
  least_squares : list R → Method → Loss → Solver R
}.

(** ** Calls *)

(** A call runs in a state and leaves a state: [(s', Some a)] is a return
    of [a], [(s', None)] a raised exception, [s'] being the state at that
    moment. *)
Section Call.
Context {S : Type}.

Definition Call (A : Type) : Type := S → S * option A.

Definition call_ret {A} (a : A) : Call A := λ s, (s, Some a).

(** A step that computes a value or raises, and leaves the state alone. *)
Definition call_try {A} (o : option A) : Call A := λ s, (s, o).

(** The same for a step that reads the state. *)
Definition call_get {A} (f : S → option A) : Call A := λ s, (s, f s).

Definition call_read {A} (f : S → A) : Call A := λ s, (s, Some (f s)).

Definition call_write (f : S → S) : Call unit := λ s, (f s, Some tt).

Definition call_bind {A B} (m : Call A) (k : A → Call B) : Call B :=
  λ s, match m s with
       | (s1, Some a) => k a s1
       | (s1, None) => (s1, None)
       end.

End Call.

Notation "'let!' x := m 'in' k" := (call_bind m (λ x, k))
  (at level 10, x name, m at level 100, k at level 200, only parsing).
Notation "'let!' ' x := m 'in' k" := (call_bind m (λ x, k))
  (at level 10, x pattern, m at level 100, k at level 200, only parsing).

Section Program.
Context {R : Type} {TK : Toolkit R}.

(** ** numpy *)

(** [np.zeros((n - 1, ...))] raises on a negative dimension. *)
Definition pred_dim (n : nat) : option nat :=
  match n with
  | 0 => None
  | S m => Some m
  end.

Fixpoint chunk (d n : nat) (v : list R) : list (list R) :=
  match n with
  | 0 => []
  | S m => take d v :: chunk d m (drop d v)
  end.

(** [v.reshape(-1, d)]: raises when [d] is zero or does not divide the
    length of [v]. *)
Definition reshape_rows (d : nat) (v : list R) : option (list (list R)) :=
  if decide (d = 0) then None
  else if decide (length v mod d = 0) then Some (chunk d (length v / d) v)
  else None.

(** One dimension of the shape two operands broadcast to. *)
Definition broadcast_dim (a b : nat) : option nat :=
  if decide (a = b) then Some a
  else if decide (a = 1) then Some b
  else if decide (b = 1) then Some a
  else None.

(** Entry (i, j) of an operand stretched to the broadcast shape. *)
Definition nd_get (a : ndarray R) (i j : nat) : R :=
  default r_zero
    (nd_data a !! ((if decide (nd_rows a = 1) then 0 else i) * nd_cols a
                   + (if decide (nd_cols a = 1) then 0 else j))).

(** [a - b] on two-dimensional arrays. *)
Definition nd_sub (a b : ndarray R) : option (ndarray R) :=
  r ← broadcast_dim (nd_rows a) (nd_rows b);
  c ← broadcast_dim (nd_cols a) (nd_cols b);
  Some {| nd_rows := r; nd_cols := c;
          nd_data := flat_map (λ i, map (λ j, r_sub (nd_get a i j) (nd_get b i j))
                                        (seq 0 c)) (seq 0 r) |}.

(** [residual[i,:] = v] for a one-dimensional [v]: the row is replaced when
    the lengths agree, a single value is repeated along the row, anything
    else raises. *)
Definition assign_row (residual : list (list R)) (i cols : nat) (v : list R)
  : option (list (list R)) :=
  _ ← residual !! i;
  if decide (length v = cols) then Some (<[i := v]> residual)
  else match v with
       | [x] => Some (<[i := replicate cols x]> residual)
       | _ => None
       end.

(** ** SimpleITK *)

(** [sitk.Euler2DTransform()] *)
Definition Euler2DTransform : Euler2D R :=
  {| e2_angle := r_zero; e2_translation := (r_zero, r_zero);
     e2_center := (r_zero, r_zero) |}.

(** [t.SetParameters(row)]: the row holds angle and translation; the center
    is a fixed parameter and stays. *)
Definition SetParameters (t : Euler2D R) (row : list R) : option (Euler2D R) :=
  match row with
  | [angle; tx; ty] =>
      Some {| e2_angle := angle; e2_translation := (tx, ty);
              e2_center := e2_center t |}
  | _ => None
  end.

(** [sitk.Euler3DTransform()] and its setters *)
Definition Euler3DTransform : Euler3D R :=
  {| e3_rotation := (r_zero, r_zero, r_zero);
     e3_translation := (r_zero, r_zero, r_zero);
     e3_center := (r_zero, r_zero, r_zero);
     e3_compute_zyx := r_zero |}.

Definition SetRotation (t : Euler3D R) (ax ay az : R) : Euler3D R :=
  {| e3_rotation := (ax, ay, az); e3_translation := e3_translation t;
     e3_center := e3_center t; e3_compute_zyx := e3_compute_zyx t |}.

Definition SetTranslation (t : Euler3D R) (v : R * R * R) : Euler3D R :=
  {| e3_rotation := e3_rotation t; e3_translation := v;
     e3_center := e3_center t; e3_compute_zyx := e3_compute_zyx t |}.

(** [t.SetFixedParameters(p)]: an Euler3DTransform has four fixed
    parameters, the three coordinates of the center and the flag of the
    rotation order.  SimpleITK raises when [p] holds fewer values than
    that. *)
Definition SetFixedParameters (t : Euler3D R) (p : list R)
  : option (Euler3D R) :=
  match p with
  | cx :: cy :: cz :: flag :: _ =>
      Some {| e3_rotation := e3_rotation t;
              e3_translation := e3_translation t;
              e3_center := (cx, cy, cz); e3_compute_zyx := flag |}
  | _ => None
  end.

(** [sitk.GetArrayFromImage(img)]: shape (ny, nx) over the pixel buffer. *)
Definition GetArrayFromImage (img : Image2D R) : ndarray R :=
  {| nd_rows := (size2 img).2; nd_cols := (size2 img).1;
     nd_data := pixels2 img |}.

(** [sitk.Resample(moving, grid, t, interpolator)]: an image on the grid
    of [grid], each pixel computed from the moving image. *)
Definition Resample (moving grid : Image2D R) (t : Euler2D R)
    (interpolator : Interpolator) : Image2D R :=
  {| size2 := size2 grid; spacing2 := spacing2 grid; origin2 := origin2 grid;
     direction2 := direction2 grid; pixel_id2 := pixel_id2 moving;
     pixels2 := map (resample_value moving grid t interpolator)
                    (seq 0 ((size2 grid).1 * (size2 grid).2)) |}.

(** [img.SetDirection(d)], [img.SetOrigin(o)] *)
Definition SetDirection (img : Image3D R) (d : Matrix3 R) : Image3D R :=
  {| size3 := size3 img; spacing3 := spacing3 img; origin3 := origin3 img;
     direction3 := d; pixel_id3 := pixel_id3 img; pixels3 := pixels3 img |}.

Definition SetOrigin (img : Image3D R) (o : R * R * R) : Image3D R :=
  {| size3 := size3 img; spacing3 := spacing3 img; origin3 := o;
     direction3 := direction3 img; pixel_id3 := pixel_id3 img;
     pixels3 := pixels3 img |}.

(** [img[:,:,0]]: the first plane, which needs at least one plane. *)
Definition extract_plane0 (img : Image3D R) : option (Image2D R) :=
  let '(nx, ny, nz) := size3 img in
  if decide (nz = 0) then None
  else
    '(spacing, origin, direction) ← collapse_geometry img;
    Some {| size2 := (nx, ny); spacing2 := spacing; origin2 := origin;
            direction2 := direction; pixel_id2 := pixel_id3 img;
            pixels2 := take (nx * ny) (pixels3 img) |}.

(** [caster.SetOutputPixelType(id); caster.Execute(img)] *)
Definition CastImageFilter (id : nat) (img : Image2D R) : Image2D R :=
  {| size2 := size2 img; spacing2 := spacing2 img; origin2 := origin2 img;
     direction2 := direction2 img; pixel_id2 := id;
     pixels2 := map (cast_pixel id) (pixels2 img) |}.

(** Spacing, origin and direction of a 2D image. *)
Definition geometry2 (img : Image2D R)
  : (R * R) * (R * R) * ((R * R) * (R * R)) :=
  (spacing2 img, origin2 img, direction2 img).

(** The pixel at index (x, y). *)
Definition pixel_at (img : Image2D R) (x y : nat) : R :=
  default r_zero (pixels2 img !! (y * (size2 img).1 + x)).

(** [a * b] on images.  SimpleITK raises when the pixel types differ; ITK
    raises when the two images do not occupy the same physical space, and
    when the region of [a] is not inside the region of [b].  The product
    lives on the grid of [a] and is taken index by index: the pixel at
    (x, y) of [a] times the pixel at (x, y) of [b]. *)
Definition image_mul (a b : Image2D R) : option (Image2D R) :=
  let '(nx, ny) := size2 a in
  let '(mx, my) := size2 b in
  if decide (pixel_id2 a = pixel_id2 b) then
    if same_physical_space (geometry2 a) (geometry2 b) then
      if decide (nx ≤ mx ∧ ny ≤ my) then
        Some {| size2 := size2 a; spacing2 := spacing2 a;
                origin2 := origin2 a; direction2 := direction2 a;
                pixel_id2 := pixel_id2 a;
                pixels2 :=
                  flat_map (λ y, map (λ x, r_mul (pixel_at a x y)
                                                 (pixel_at b x y))
                                     (seq 0 nx))
                           (seq 0 ny) |}
      else None
    else None
  else None.

(** ** The registration object *)

Record RegularizedInPlaneRegistration := mkSelf {
  _fixed : Stack R;
  _use_fixed_mask : bool;
  _use_moving_mask : bool;
  _nda_shape : list nat;
  _N_slices : nat;
  _N_2D_voxels : nat;
  _N_residual : Z;
  _registration_transforms_sitk : list (option Transform);
  _parameters : list (option (list R));
  _2D_projected_slices : option (list (option loc));
  _degrees_of_freedom : option nat;
  _transform_PI_fixed_2D_sitk : option Transform2D;
  _fixed_grid_2D_sitk : option (Image2D R);
  _stack_corrected : option (Stack R)
}.

(** [l[i]] where the entry must not be [None] to be used. *)
Definition item {A} (l : list (option A)) (i : nat) : option A :=
  l !! i ≫= id.

(** [__init__], lines 41 to 49.  [_N_residual] is computed on Python
    integers and is negative for an empty volume. *)
Definition __init__ (fixed : Stack R) (use_fixed_mask use_moving_mask : bool)
  : option RegularizedInPlaneRegistration :=
  let '(nx, ny, nz) := size3 (stack_sitk fixed) in
  let nda_shape := [nz; ny; nx] in
  N_slices ← nda_shape !! 0;
  let N_2D_voxels := foldr Nat.mul 1 (drop 1 nda_shape) in
  Some {| _fixed := fixed;
          _use_fixed_mask := use_fixed_mask;
          _use_moving_mask := use_moving_mask;
          _nda_shape := nda_shape;
          _N_slices := N_slices;
          _N_2D_voxels := N_2D_voxels;
          _N_residual := (Z.of_nat N_slices - 1) * Z.of_nat N_2D_voxels;
          _registration_transforms_sitk := replicate N_slices None;
          _parameters := replicate N_slices None;
          _2D_projected_slices := None;
          _degrees_of_freedom := None;
          _transform_PI_fixed_2D_sitk := None;
          _fixed_grid_2D_sitk := None;
          _stack_corrected := None |}.

(** ** The residual model *)

(** [transforms_sitk[l].SetParameters(row)] on the transform object at
    [l]. *)
Definition SetParameters_at (l : loc) (row : list R) : Call (S := World R) unit :=
  let! t := call_get (λ w, w_transforms w !! l) in
  let! t' := call_try (SetParameters t row) in
  call_write (λ w, {| w_slices := w_slices w; w_slices2D := w_slices2D w;
                      w_transforms := <[l := t']> (w_transforms w) |}).

(** The loop of [_get_residual_data_fit], lines 137 to 144, over the
    indices left to visit. *)
Fixpoint residual_loop (self : RegularizedInPlaneRegistration)
    (parameters : list (list R)) (transforms_sitk : list loc)
    (interpolator : Interpolator) (indices : list nat)
    (slice_i_nda : ndarray R) (residual : list (list R))
  : Call (S := World R) (list (list R)) :=
  match indices with
  | [] => call_ret residual
  | i :: rest =>
      let! l := call_try (transforms_sitk !! (i + 1)) in
      let! row := call_try (parameters !! i) in
      let! _ := SetParameters_at l row in
      let! projected := call_try (_2D_projected_slices self) in
      let! sref := call_try (item projected (i + 1)) in
      let! s := call_get (λ w, w_slices2D w !! sref) in
      let! grid := call_try (_fixed_grid_2D_sitk self) in
      let! t := call_get (λ w, w_transforms w !! l) in
      let slice_ip1_sitk := Resample (sitk2 s) grid t interpolator in
      let slice_ip1_nda := GetArrayFromImage slice_ip1_sitk in
      let! diff := call_try (nd_sub slice_i_nda slice_ip1_nda) in
      let! residual' := call_try (assign_row residual i (_N_2D_voxels self)
                              (nd_data diff)) in
      residual_loop self parameters transforms_sitk interpolator rest
        slice_ip1_nda residual'
  end.

(** [_get_residual_data_fit], lines 126 to 146. *)
Definition _get_residual_data_fit (self : RegularizedInPlaneRegistration)
    (parameters_vec : list R) (transforms_sitk : list loc)
    (interpolator : Interpolator) : Call (S := World R) (list R) :=
  let! n1 := call_try (pred_dim (_N_slices self)) in
  let residual := replicate n1 (replicate (_N_2D_voxels self) r_zero) in
  let! dof := call_try (_degrees_of_freedom self) in
  let! parameters := call_try (reshape_rows dof parameters_vec) in
  let! projected := call_try (_2D_projected_slices self) in
  let! sref := call_try (item projected 0) in
  let! s0 := call_get (λ w, w_slices2D w !! sref) in
  let slice_i_nda := GetArrayFromImage (sitk2 s0) in
  let! residual' := residual_loop self parameters transforms_sitk interpolator
                (seq 0 n1) slice_i_nda residual in
  call_ret (concat residual').

(** ** Slices and stacks in the store *)

Definition set_w_slices (w : World R) (h : list (Slice R)) : World R :=
  {| w_slices := h; w_slices2D := w_slices2D w;
     w_transforms := w_transforms w |}.

Definition set_w_slices2D (w : World R) (h : list (Slice2D R)) : World R :=
  {| w_slices := w_slices w; w_slices2D := h;
     w_transforms := w_transforms w |}.

Definition set_w_transforms (w : World R) (h : list (Euler2D R)) : World R :=
  {| w_slices := w_slices w; w_slices2D := w_slices2D w;
     w_transforms := h |}.

(** An in-place change of the [Slice] object at [l]. *)
Definition modify_slice (l : loc) (f : Slice R → Slice R)
  : Call (S := World R) unit :=
  let! s := call_get (λ w, w_slices w !! l) in
  call_write (λ w, set_w_slices w (<[l := f s]> (w_slices w))).

(** Modelled from the spec: [Slice.from_slice] of [base.Slice], the
    construct-from-existing-slice copy of section 6: a new object with the
    same content. *)
Definition from_slice (l : loc) : Call (S := World R) loc :=
  let! s := call_get (λ w, w_slices w !! l) in
  let! l' := call_read (λ w, length (w_slices w)) in
  let! _ := call_write (λ w, set_w_slices w (w_slices w ++ [s])) in
  call_ret l'.

(** Modelled from the spec: [Slice.from_sitk_image] of [base.Slice], the
    construct-from-a-raw-2D-image-plus-metadata of section 6. *)
Definition from_sitk_image (img : Image2D R) (filename : string)
    (number : nat) : Call (S := World R) loc :=
  let! l := call_read (λ w, length (w_slices2D w)) in
  let! _ := call_write (λ w,
        set_w_slices2D w
          (w_slices2D w ++ [{| sitk2 := img; sitk_mask2 := default_mask img;
                               slice_filename2 := filename;
                               slice_number2 := number |}])) in
  call_ret l.

Fixpoint copy_slices (ls : list loc) : Call (S := World R) (list loc) :=
  match ls with
  | [] => call_ret []
  | l :: rest =>
      let! l' := from_slice l in
      let! rest' := copy_slices rest in
      call_ret (l' :: rest')
  end.

(** Modelled from the spec: [Stack.from_stack] of [base.Stack], the
    construct-from-existing-stack of section 6: a structural copy, every
    slice copied, with an optional filename override. *)
Definition from_stack (stack : Stack R) (filename : option string)
  : Call (S := World R) (Stack R) :=
  let! ls := copy_slices (stack_slices stack) in
  call_ret {| stack_sitk := stack_sitk stack;
              stack_sitk_mask := stack_sitk_mask stack;
              stack_slices := ls;
              stack_filename := default (stack_filename stack) filename |}.

(** Modelled from the spec: [Slice.update_motion_correction] of
    [base.Slice] (section 6): the transform is applied to the stored
    placement in place; image and mask receive the same direction and
    origin (section 9), the pixels stay. *)
Definition motion_corrected (T : Transform) (s : Slice R) : Slice R :=
  let '(d, o) := motion_corrected_placement T (sitk s) in
  {| sitk := SetOrigin (SetDirection (sitk s) d) o;
     sitk_mask := SetOrigin (SetDirection (sitk_mask s) d) o;
     slice_filename := slice_filename s;
     slice_number := slice_number s |}.

Definition update_motion_correction (l : loc) (T : Transform)
  : Call (S := World R) unit :=
  modify_slice l (motion_corrected T).

Definition set_sitk (s : Slice R) (img : Image3D R) : Slice R :=
  {| sitk := img; sitk_mask := sitk_mask s;
     slice_filename := slice_filename s; slice_number := slice_number s |}.

Definition set_sitk_mask (s : Slice R) (img : Image3D R) : Slice R :=
  {| sitk := sitk s; sitk_mask := img;
     slice_filename := slice_filename s; slice_number := slice_number s |}.

(** ** Rigid transform algebra *)

(** The loop of [_get_list_of_3D_rigid_transforms_of_slices], lines 233 to
    245.  It reads the store and changes nothing. *)
Fixpoint rigid_transforms_loop (slices : list loc) (indices : list nat)
    (transforms_PP_3D_sitk : list (option Transform)) (w : World R)
  : option (list (option Transform)) :=
  match indices with
  | [] => Some transforms_PP_3D_sitk
  | i :: rest =>
      l ← slices !! i;
      s ← w_slices w !! l;
      let slice_3D_sitk := sitk s in
      let origin_3D_sitk := origin3 slice_3D_sitk in
      let direction_3D_sitk := direction3 slice_3D_sitk in
      let transform_PP_sitk :=
        affine_transform direction_3D_sitk origin_3D_sitk in
      inverse ← transform_inverse transform_PP_sitk;
      rigid_transforms_loop slices rest
        (<[i := Some inverse]> transforms_PP_3D_sitk) w
  end.

(** [_get_list_of_3D_rigid_transforms_of_slices], lines 226 to 247. *)
Definition _get_list_of_3D_rigid_transforms_of_slices (stack : Stack R)
    (w : World R) : option (list (option Transform)) :=
  let N_slices := length (stack_slices stack) in
  let slices := stack_slices stack in
  rigid_transforms_loop slices (seq 0 N_slices) (replicate N_slices None) w.

(** [_get_3D_from_2D_rigid_transform_sitk], lines 263 to 279.  Line 277
    hands the three values of [center_3D] to [SetFixedParameters]. *)
Definition _get_3D_from_2D_rigid_transform_sitk
    (rigid_transform_2D_sitk : Euler2D R) : option (Euler3D R) :=
  let angle_z := e2_angle rigid_transform_2D_sitk in
  let '(translation_x, translation_y) :=
    e2_translation rigid_transform_2D_sitk in
  let '(center_x, center_y) := e2_center rigid_transform_2D_sitk in
  let translation_3D := (translation_x, translation_y, r_zero) in
  let center_3D := [center_x; center_y; r_zero] in
  let rigid_transform_3D := Euler3DTransform in
  let rigid_transform_3D :=
    SetRotation rigid_transform_3D r_zero r_zero angle_z in
  let rigid_transform_3D := SetTranslation rigid_transform_3D translation_3D in
  rigid_transform_3D ← SetFixedParameters rigid_transform_3D center_3D;
  Some rigid_transform_3D.

(** ** Slice projection *)

(** The loop of [_get_2D_projected_and_masked_slices], lines 174 to 205. *)
Fixpoint projection_loop (self : RegularizedInPlaneRegistration)
    (slices_3D : list loc) (transforms_PP_3D_sitk : list (option Transform))
    (indices : list nat) (slices_2D : list (option loc))
  : Call (S := World R) (list (option loc)) :=
  match indices with
  | [] => call_ret slices_2D
  | i :: rest =>
      let! l := call_try (slices_3D !! i) in
      let! slice_3D := from_slice l in
      let! s := call_get (λ w, w_slices w !! slice_3D) in
      let T_PI := get_sitk_affine_transform_from_sitk_image (sitk s) in
      let! PP := call_try (item transforms_PP_3D_sitk i) in
      let T_PI_align := get_composite_sitk_affine_transform PP T_PI in
      let direction :=
        get_sitk_image_direction_from_sitk_affine_transform T_PI_align (sitk s) in
      let origin :=
        get_sitk_image_origin_from_sitk_affine_transform T_PI_align (sitk s) in
      let! _ := modify_slice slice_3D
            (λ s, set_sitk s (SetDirection (sitk s) direction)) in
      let! _ := modify_slice slice_3D
            (λ s, set_sitk s (SetOrigin (sitk s) origin)) in
      let! _ := modify_slice slice_3D
            (λ s, set_sitk_mask s (SetDirection (sitk_mask s) direction)) in
      let! _ := modify_slice slice_3D
            (λ s, set_sitk_mask s (SetOrigin (sitk_mask s) origin)) in
      let! s := call_get (λ w, w_slices w !! slice_3D) in
      let filename := slice_filename s in
      let slice_number := slice_number s in
      let! slice_2D_sitk := call_try (extract_plane0 (sitk s)) in
      let! slice_2D_sitk :=
        call_try (if _use_fixed_mask self then
                    mask_2D ← extract_plane0 (sitk_mask s);
                    image_mul slice_2D_sitk
                      (CastImageFilter (pixel_id2 slice_2D_sitk) mask_2D)
                  else Some slice_2D_sitk) in
      let! slice_2D := from_sitk_image slice_2D_sitk filename slice_number in
      projection_loop self slices_3D transforms_PP_3D_sitk rest
        (<[i := Some slice_2D]> slices_2D)
  end.

(** [_get_2D_projected_and_masked_slices], lines 169 to 207. *)
Definition _get_2D_projected_and_masked_slices
    (self : RegularizedInPlaneRegistration) (stack : Stack R)
    (transforms_PP_3D_sitk : list (option Transform))
  : Call (S := World R) (list (option loc)) :=
  let slices_3D := stack_slices stack in
  let slices_2D := replicate (_N_slices self) None in
  projection_loop self slices_3D transforms_PP_3D_sitk
    (seq 0 (_N_slices self)) slices_2D.

(** ** Correction composer *)

(** The loop of [_apply_motion_correction], lines 107 to 120.  The 2D
    transform of lines 103 and 109 is local to the method and is threaded
    through the loop as a value. *)
Fixpoint correction_loop (self : RegularizedInPlaneRegistration)
    (transforms_PP_3D_sitk : list (option Transform)) (slices : list loc)
    (indices : list nat) (transform_2D_sitk : Euler2D R)
    (registration_transforms_sitk : list (option Transform))
  : Call (S := World R) (list (option Transform)) :=
  match indices with
  | [] => call_ret registration_transforms_sitk
  | i :: rest =>
      let! row := call_try (item (_parameters self) i) in
      let! transform_2D_sitk := call_try (SetParameters transform_2D_sitk row) in
      let transform_2D_sitk := euler2D_inverse transform_2D_sitk in
      let! transform_3D_sitk :=
        call_try (_get_3D_from_2D_rigid_transform_sitk transform_2D_sitk) in
      let! PP := call_try (item transforms_PP_3D_sitk i) in
      let affine_transform_sitk :=
        get_composite_sitk_affine_transform
          (euler3D_transform transform_3D_sitk) PP in
      let! PP_inverse := call_try (transform_inverse PP) in
      let affine_transform_sitk :=
        get_composite_sitk_affine_transform PP_inverse affine_transform_sitk in
      let! l := call_try (slices !! i) in
      let! _ := update_motion_correction l affine_transform_sitk in
      correction_loop self transforms_PP_3D_sitk slices rest transform_2D_sitk
        (<[i := Some affine_transform_sitk]> registration_transforms_sitk)
  end.

(** [_apply_motion_correction], lines 99 to 122. *)
Definition _apply_motion_correction (self : RegularizedInPlaneRegistration)
    (transforms_PP_3D_sitk : list (option Transform))
  : Call (S := World R) (Stack R * list (option Transform)) :=
  let! stack_corrected :=
    from_stack (_fixed self)
      (Some (stack_filename (_fixed self) +:+ "_registered")) in
  let slices := stack_slices stack_corrected in
  let transform_2D_sitk := Euler2DTransform in
  let registration_transforms_sitk := replicate (_N_slices self) None in
  let! registration_transforms_sitk :=
    correction_loop self transforms_PP_3D_sitk slices
      (seq 0 (_N_slices self)) transform_2D_sitk
      registration_transforms_sitk in
  call_ret (stack_corrected, registration_transforms_sitk).

(** ** Solver driver *)

(** The solver at work on the objective [fun_], which may change the
    store each time it is called; an exception of the objective leaves the
    solver. *)
Fixpoint run_solver (fun_ : list R → Call (S := World R) (list R))
    (solver : Solver R) : Call (S := World R) (list R) :=
  match solver with
  | SolverReturn x => call_ret x
  | SolverRaise => call_try None
  | SolverCall x k =>
      let! residual := fun_ x in
      run_solver fun_ (k residual)
  end.

(** A method that assigns attributes of the registration object works on
    the object and the store. *)
Definition SelfCall (A : Type) : Type :=
  Call (S := RegularizedInPlaneRegistration * World R) A.

(** A call on the store made from such a method. *)
Definition on_store {A} (m : Call (S := World R) A) : SelfCall A :=
  λ '(self, w), let '(w', a) := m w in ((self, w'), a).

(** [self.<attribute> = ...] *)
Definition assign (f : RegularizedInPlaneRegistration →
                       RegularizedInPlaneRegistration) : SelfCall unit :=
  call_write (λ '(self, w), (f self, w)).

Definition set__2D_projected_slices (projected : list (option loc))
    (self : RegularizedInPlaneRegistration) : RegularizedInPlaneRegistration :=
  {| _fixed := _fixed self;
     _use_fixed_mask := _use_fixed_mask self;
     _use_moving_mask := _use_moving_mask self;
     _nda_shape := _nda_shape self;
     _N_slices := _N_slices self;
     _N_2D_voxels := _N_2D_voxels self;
     _N_residual := _N_residual self;
     _registration_transforms_sitk := _registration_transforms_sitk self;
     _parameters := _parameters self;
     _2D_projected_slices := Some projected;
     _degrees_of_freedom := _degrees_of_freedom self;
     _transform_PI_fixed_2D_sitk := _transform_PI_fixed_2D_sitk self;
     _fixed_grid_2D_sitk := _fixed_grid_2D_sitk self;
     _stack_corrected := _stack_corrected self |}.

Definition set__degrees_of_freedom (dof : nat)
    (self : RegularizedInPlaneRegistration) : RegularizedInPlaneRegistration :=
  {| _fixed := _fixed self;
     _use_fixed_mask := _use_fixed_mask self;
     _use_moving_mask := _use_moving_mask self;
     _nda_shape := _nda_shape self;
     _N_slices := _N_slices self;
     _N_2D_voxels := _N_2D_voxels self;
     _N_residual := _N_residual self;
     _registration_transforms_sitk := _registration_transforms_sitk self;
     _parameters := _parameters self;
     _2D_projected_slices := _2D_projected_slices self;
     _degrees_of_freedom := Some dof;
     _transform_PI_fixed_2D_sitk := _transform_PI_fixed_2D_sitk self;
     _fixed_grid_2D_sitk := _fixed_grid_2D_sitk self;
     _stack_corrected := _stack_corrected self |}.

Definition set__transform_PI_fixed_2D_sitk (T_PI : Transform2D)
    (self : RegularizedInPlaneRegistration) : RegularizedInPlaneRegistration :=
  {| _fixed := _fixed self;
     _use_fixed_mask := _use_fixed_mask self;
     _use_moving_mask := _use_moving_mask self;
     _nda_shape := _nda_shape self;
     _N_slices := _N_slices self;
     _N_2D_voxels := _N_2D_voxels self;
     _N_residual := _N_residual self;
     _registration_transforms_sitk := _registration_transforms_sitk self;
     _parameters := _parameters self;
     _2D_projected_slices := _2D_projected_slices self;
     _degrees_of_freedom := _degrees_of_freedom self;
     _transform_PI_fixed_2D_sitk := Some T_PI;
     _fixed_grid_2D_sitk := _fixed_grid_2D_sitk self;
     _stack_corrected := _stack_corrected self |}.

Definition set__fixed_grid_2D_sitk (grid : Image2D R)
    (self : RegularizedInPlaneRegistration) : RegularizedInPlaneRegistration :=
  {| _fixed := _fixed self;
     _use_fixed_mask := _use_fixed_mask self;
     _use_moving_mask := _use_moving_mask self;
     _nda_shape := _nda_shape self;
     _N_slices := _N_slices self;
     _N_2D_voxels := _N_2D_voxels self;
     _N_residual := _N_residual self;
     _registration_transforms_sitk := _registration_transforms_sitk self;
     _parameters := _parameters self;
     _2D_projected_slices := _2D_projected_slices self;
     _degrees_of_freedom := _degrees_of_freedom self;
     _transform_PI_fixed_2D_sitk := _transform_PI_fixed_2D_sitk self;
     _fixed_grid_2D_sitk := Some grid;
     _stack_corrected := _stack_corrected self |}.

(** [self._parameters = ...], line 93. *)
Definition set_parameters (self : RegularizedInPlaneRegistration)
    (parameters : list (option (list R))) : RegularizedInPlaneRegistration :=
  {| _fixed := _fixed self;
     _use_fixed_mask := _use_fixed_mask self;
     _use_moving_mask := _use_moving_mask self;
     _nda_shape := _nda_shape self;
     _N_slices := _N_slices self;
     _N_2D_voxels := _N_2D_voxels self;
     _N_residual := _N_residual self;
     _registration_transforms_sitk := _registration_transforms_sitk self;
     _parameters := parameters;
     _2D_projected_slices := _2D_projected_slices self;
     _degrees_of_freedom := _degrees_of_freedom self;
     _transform_PI_fixed_2D_sitk := _transform_PI_fixed_2D_sitk self;
     _fixed_grid_2D_sitk := _fixed_grid_2D_sitk self;
     _stack_corrected := _stack_corrected self |}.

(** [self._stack_corrected, self._registration_transforms_sitk = ...],
    line 96. *)
Definition set_result (self : RegularizedInPlaneRegistration)
    (stack_corrected : Stack R)
    (registration_transforms_sitk : list (option Transform))
  : RegularizedInPlaneRegistration :=
  {| _fixed := _fixed self;
     _use_fixed_mask := _use_fixed_mask self;
     _use_moving_mask := _use_moving_mask self;
     _nda_shape := _nda_shape self;
     _N_slices := _N_slices self;
     _N_2D_voxels := _N_2D_voxels self;
     _N_residual := _N_residual self;
     _registration_transforms_sitk := registration_transforms_sitk;
     _parameters := _parameters self;
     _2D_projected_slices := _2D_projected_slices self;
     _degrees_of_freedom := _degrees_of_freedom self;
     _transform_PI_fixed_2D_sitk := _transform_PI_fixed_2D_sitk self;
     _fixed_grid_2D_sitk := _fixed_grid_2D_sitk self;
     _stack_corrected := Some stack_corrected |}.

(** The attributes the run has set when the solve starts, lines 71 to
    78. *)
Definition set_solver_state (self : RegularizedInPlaneRegistration)
    (projected : list (option loc)) (dof : nat) (T_PI : Transform2D)
    (grid : Image2D R) : RegularizedInPlaneRegistration :=
  set__fixed_grid_2D_sitk grid
    (set__transform_PI_fixed_2D_sitk T_PI
       (set__degrees_of_freedom dof
          (set__2D_projected_slices projected self))).

(** [[sitk.Euler2DTransform()] * n]: one new transform object, and a list
    that names it [n] times. *)
Definition new_transforms_sitk (n : nat) : Call (S := World R) (list loc) :=
  let! l := call_read (λ w, length (w_transforms w)) in
  let! _ := call_write (λ w,
        set_w_transforms w (w_transforms w ++ [Euler2DTransform])) in
  call_ret (replicate n l).

(** [self._2D_projected_slices[0].sitk], lines 77 and 78. *)
Definition projected_slice0_sitk : SelfCall (Image2D R) :=
  let! self := call_read fst in
  let! projected := call_try (_2D_projected_slices self) in
  let! sref := call_try (item projected 0) in
  let! s0 := on_store (call_get (λ w, w_slices2D w !! sref)) in
  call_ret (sitk2 s0).

(** [run_regularized_rigid_inplane_registration], lines 68 to 80: what the
    method does before the solve.  It returns the placement transforms, the
    list [transforms_sitk] and the initial guess [parameters0]. *)
Definition solver_setup
  : SelfCall (list (option Transform) * list loc * list R) :=
  let! self := call_read fst in
  let! transforms_PP_3D_sitk :=
    on_store
      (call_get (_get_list_of_3D_rigid_transforms_of_slices (_fixed self))) in
  let! projected :=
    on_store
      (_get_2D_projected_and_masked_slices self (_fixed self)
         transforms_PP_3D_sitk) in
  let! _ := assign (set__2D_projected_slices projected) in
  let! _ := assign (set__degrees_of_freedom 3) in
  let! transforms_sitk := on_store (new_transforms_sitk (_N_slices self)) in
  let! image := projected_slice0_sitk in
  let! _ := assign (set__transform_PI_fixed_2D_sitk
                (get_sitk_affine_transform_from_sitk_image_2D image)) in
  let! image := projected_slice0_sitk in
  let! _ := assign (set__fixed_grid_2D_sitk image) in
  let! n1 := call_try (pred_dim (_N_slices self)) in
  let! self := call_read fst in
  let! dof := call_try (_degrees_of_freedom self) in
  let parameters0 := replicate (n1 * dof) r_zero in
  call_ret (transforms_PP_3D_sitk, transforms_sitk, parameters0).

(** [run_regularized_rigid_inplane_registration], lines 66 to 96.  The
    elapsed time of the solve is a diagnostic and is left out. *)
Definition run_regularized_rigid_inplane_registration : SelfCall unit :=
  let! '(transforms_PP_3D_sitk, transforms_sitk, parameters0) := solver_setup in
  let! self := call_read fst in
  let fun_ := λ x, _get_residual_data_fit self x transforms_sitk sitkLinear in
  let! res_x := on_store
            (run_solver fun_ (least_squares parameters0 dogbox linear)) in
  let! dof := call_try (_degrees_of_freedom self) in
  let! parameters := call_try (reshape_rows dof res_x) in
  let zeros := replicate dof r_zero in
  let! _ := assign (λ self,
        set_parameters self (Some <$> (zeros :: parameters))) in
  let! self := call_read fst in
  let! '(stack_corrected, registration_transforms_sitk) :=
    on_store (_apply_motion_correction self transforms_PP_3D_sitk) in
  assign (λ self,
    set_result self stack_corrected registration_transforms_sitk).

(** ** Getters *)

(** [get_parameters], lines 52 to 53: the list or matrix as an array. *)
Definition get_parameters (self : RegularizedInPlaneRegistration)
  : list (option (list R)) :=
  _parameters self.

(** [get_registration_transform_sitk], lines 56 to 57. *)
Definition get_registration_transform_sitk
    (self : RegularizedInPlaneRegistration) : list (option Transform) :=
  _registration_transforms_sitk self.

(** [get_registered_stack], lines 60 to 62: a copy of the corrected stack;
    the attribute does not exist before the registration has run. *)
Definition get_registered_stack (self : RegularizedInPlaneRegistration)
  : Call (S := World R) (Stack R) :=
  let! stack_corrected := call_try (_stack_corrected self) in
  from_stack stack_corrected None.

End Program.

(** * What the specification says, in its own words *)

Section Specification.
Context {R : Type} {TK : Toolkit R}.

(** Two worlds hold the same projected slices and transform objects with
    the same centers: they differ at most in the parameters the transform
    objects hold. *)
Definition same_state (w1 w2 : World R) : Prop :=
  w_slices2D w1 = w_slices2D w2 ∧
  e2_center <$> w_transforms w1 = e2_center <$> w_transforms w2.

(** A call that writes to transform objects writes to those a list of
    references names only: the others are left alone, and none is made or
    dropped. *)
Definition only_listed (transforms_sitk : list loc) (w w' : World R) : Prop :=
  length (w_transforms w') = length (w_transforms w) ∧
  ∀ l, l ∉ transforms_sitk → w_transforms w' !! l = w_transforms w !! l.

(** Section 4.3: [nda 0] is the raw pixel array of projected slice 0;
    [nda i] is projected slice [i] resampled onto the fixed grid under the
    transform with the parameters of group [i]. *)
Definition spec_nda (self : RegularizedInPlaneRegistration)
    (groups : list (list R)) (transforms_sitk : list loc)
    (interpolator : Interpolator) (w : World R) (i : nat) : option (list R) :=
  projected ← _2D_projected_slices self;
  sref ← item projected i;
  s ← w_slices2D w !! sref;
  match i with
  | 0 => Some (pixels2 (sitk2 s))
  | S j =>
      grid ← _fixed_grid_2D_sitk self;
      l ← transforms_sitk !! i;
      t ← w_transforms w !! l;
      group ← groups !! j;
      transform ← SetParameters t group;
      Some (pixels2 (Resample (sitk2 s) grid transform interpolator))
  end.

(** Residual block [i] pairs slice [i] with slice [i + 1]: the entries of
    [nda i - nda (i + 1)]. *)
Definition spec_block (self : RegularizedInPlaneRegistration)
    (groups : list (list R)) (transforms_sitk : list loc)
    (interpolator : Interpolator) (w : World R) (i : nat) : option (list R) :=
  a ← spec_nda self groups transforms_sitk interpolator w i;
  b ← spec_nda self groups transforms_sitk interpolator w (S i);
  Some (zip_with r_sub a b).

(** The residual vector: the blocks of [n] slices in slice order. *)
Definition spec_residual (self : RegularizedInPlaneRegistration)
    (parameters_vec : list R) (transforms_sitk : list loc)
    (interpolator : Interpolator) (w : World R) (n : nat) : option (list R) :=
  groups ← reshape_rows 3 parameters_vec;
  blocks ← mapM (spec_block self groups transforms_sitk interpolator w)
                (seq 0 (n - 1));
  Some (concat blocks).

(** The state [run_regularized_rigid_inplane_registration] hands to the
    residual evaluator: [n] slices on a grid of [nx] by [ny] pixels, the
    grid being that of projected slice 0. *)
Record evaluator_state (self : RegularizedInPlaneRegistration)
    (transforms_sitk : list loc) (w : World R) (n nx ny : nat) : Prop := {
  es_slices : _N_slices self = n;
  es_voxels : _N_2D_voxels self = nx * ny;
  es_dof : _degrees_of_freedom self = Some 3;
  es_projected : ∃ projected, _2D_projected_slices self = Some projected ∧
    ∀ i, i < n → ∃ sref s, item projected i = Some sref ∧
                           w_slices2D w !! sref = Some s;
  es_grid : ∃ grid, _fixed_grid_2D_sitk self = Some grid ∧
    size2 grid = (nx, ny);
  es_slice0 : ∀ projected sref s, _2D_projected_slices self = Some projected →
    item projected 0 = Some sref → w_slices2D w !! sref = Some s →
    size2 (sitk2 s) = (nx, ny) ∧ length (pixels2 (sitk2 s)) = nx * ny;
  es_transforms : ∀ i, i < n → ∃ l t, transforms_sitk !! i = Some l ∧
    w_transforms w !! l = Some t
}.

(** Section 4.1, [expand_2d_rigid_to_3d]: rotation restricted to the
    z-axis by the angle of the 2D transform, translation (tx, ty, 0) and
    rotation center (cx, cy, 0); the flag of the rotation order is the one a
    new 3D transform has. *)
Definition expand_2d_rigid_to_3d (rigid2D : Euler2D R) : Euler3D R :=
  {| e3_rotation := (r_zero, r_zero, e2_angle rigid2D);
     e3_translation :=
       ((e2_translation rigid2D).1, (e2_translation rigid2D).2, r_zero);
     e3_center := ((e2_center rigid2D).1, (e2_center rigid2D).2, r_zero);
     e3_compute_zyx := r_zero |}.

(** Section 8, round trip: the projection of a 3D rigid transform back onto
    the x-y plane keeps the rotation about z and the x and y components of
    translation and center. *)
Definition project_to_plane (e : Euler3D R) : Euler2D R :=
  let '(_, _, angle_z) := e3_rotation e in
  let '(tx, ty, _) := e3_translation e in
  let '(cx, cy, _) := e3_center e in
  {| e2_angle := angle_z; e2_translation := (tx, ty); e2_center := (cx, cy) |}.

(** The first [n0] slice objects of [w] are still there, unchanged, in
    [w']. *)
Definition keeps_slices (n0 : nat) (w w' : World R) : Prop :=
  n0 ≤ length (w_slices w) →
  n0 ≤ length (w_slices w') ∧ take n0 (w_slices w') = take n0 (w_slices w).

(** Every slice reference of the stack names an object of the world. *)
Definition stack_valid (stack : Stack R) (w : World R) : Prop :=
  Forall (λ l, l < length (w_slices w)) (stack_slices stack).

(** Section 4.2, steps 2 to 4: the slice with the direction and origin that
    [T_aligned = alignment_transform . T_native] gives it, on image and
    mask alike. *)
Definition realigned (PP : Transform) (s : Slice R) : Slice R :=
  let T_native := get_sitk_affine_transform_from_sitk_image (sitk s) in
  let T_aligned := get_composite_sitk_affine_transform PP T_native in
  let direction :=
    get_sitk_image_direction_from_sitk_affine_transform T_aligned (sitk s) in
  let origin :=
    get_sitk_image_origin_from_sitk_affine_transform T_aligned (sitk s) in
  {| sitk := SetOrigin (SetDirection (sitk s) direction) origin;
     sitk_mask := SetOrigin (SetDirection (sitk_mask s) direction) origin;
     slice_filename := slice_filename s;
     slice_number := slice_number s |}.

(** Section 4.2, step 6: the extracted image, multiplied by the extracted
    mask when mask-weighting is enabled. *)
Definition weighted (enabled : bool) (s : Slice R) (image : Image2D R)
  : option (Image2D R) :=
  if enabled then
    mask ← extract_plane0 (sitk_mask s);
    image_mul image (CastImageFilter (pixel_id2 image) mask)
  else Some image.

(** The registration object with another setting of the moving-role mask
    flag. *)
Definition with_use_moving_mask (self : RegularizedInPlaneRegistration)
    (b : bool) : RegularizedInPlaneRegistration :=
  {| _fixed := _fixed self;
     _use_fixed_mask := _use_fixed_mask self;
     _use_moving_mask := b;
     _nda_shape := _nda_shape self;
     _N_slices := _N_slices self;
     _N_2D_voxels := _N_2D_voxels self;
     _N_residual := _N_residual self;
     _registration_transforms_sitk := _registration_transforms_sitk self;
     _parameters := _parameters self;
     _2D_projected_slices := _2D_projected_slices self;
     _degrees_of_freedom := _degrees_of_freedom self;
     _transform_PI_fixed_2D_sitk := _transform_PI_fixed_2D_sitk self;
     _fixed_grid_2D_sitk := _fixed_grid_2D_sitk self;
     _stack_corrected := _stack_corrected self |}.

(** Image and mask of a slice have [nx] by [ny] pixels in the plane, at
    least one plane, and a pixel buffer that holds a full plane. *)
Definition plane_of_size (nx ny : nat) (s : Slice R) : Prop :=
  ∃ nz nz',
    size3 (sitk s) = (nx, ny, nz) ∧ nx * ny ≤ length (pixels3 (sitk s)) ∧
    size3 (sitk_mask s) = (nx, ny, nz') ∧
    nx * ny ≤ length (pixels3 (sitk_mask s)).

(** Block [i] of a residual vector cut into blocks of [c] entries. *)
Definition block_at (c i : nat) (r : list R) : list R :=
  take c (drop (i * c) r).

(** The placement of a slice as an affine transform: its direction matrix
    and origin, as [_get_list_of_3D_rigid_transforms_of_slices] reads
    them. *)
Definition placement (s : Slice R) : Transform :=
  affine_transform (direction3 (sitk s)) (origin3 (sitk s)).

End Specification.

(** * A reference toolkit on the integer lattice

    Exact integer arithmetic: pixels and coordinates are integers and an
    angle counts quarter turns, so that every rotation has an integer
    matrix and resampling needs no interpolation weights.  The transforms
    follow ITK's conventions: a transform with matrix [M], translation [t]
    and center [c] maps [x] to [M (x - c) + t + c]. *)

Module Lattice.
Local Open Scope Z_scope.

Definition Vec : Type := Z * Z * Z.

Definition vadd (u v : Vec) : Vec :=
  let '(a, b, c) := u in let '(x, y, z) := v in (a + x, b + y, c + z).

Definition vsub (u v : Vec) : Vec :=
  let '(a, b, c) := u in let '(x, y, z) := v in (a - x, b - y, c - z).

Definition vneg (u : Vec) : Vec :=
  let '(a, b, c) := u in (- a, - b, - c).

Definition mat_vec (m : Matrix3 Z) (v : Vec) : Vec :=
  let '((a, b, c), (d, e, f), (g, h, i)) := m in
  let '(x, y, z) := v in
  (a * x + b * y + c * z, d * x + e * y + f * z, g * x + h * y + i * z).

Definition mat_mul (m n : Matrix3 Z) : Matrix3 Z :=
  let '((a, b, c), (d, e, f), (g, h, i)) := m in
  let '((r, s, t), (u, v, w), (x, y, z)) := n in
  ((a * r + b * u + c * x, a * s + b * v + c * y, a * t + b * w + c * z),
   (d * r + e * u + f * x, d * s + e * v + f * y, d * t + e * w + f * z),
   (g * r + h * u + i * x, g * s + h * v + i * y, g * t + h * w + i * z)).

Definition mat_scale (k : Z) (m : Matrix3 Z) : Matrix3 Z :=
  let '((a, b, c), (d, e, f), (g, h, i)) := m in
  ((k * a, k * b, k * c), (k * d, k * e, k * f), (k * g, k * h, k * i)).

Definition det (m : Matrix3 Z) : Z :=
  let '((a, b, c), (d, e, f), (g, h, i)) := m in
  a * (e * i - f * h) - b * (d * i - f * g) + c * (d * h - e * g).

Definition adjugate (m : Matrix3 Z) : Matrix3 Z :=
  let '((a, b, c), (d, e, f), (g, h, i)) := m in
  ((e * i - f * h, c * h - b * i, b * f - c * e),
   (f * g - d * i, a * i - c * g, c * d - a * f),
   (d * h - e * g, b * g - a * h, a * e - b * d)).

Definition identity3 : Matrix3 Z := ((1, 0, 0), (0, 1, 0), (0, 0, 1)).

(** Cosine and sine of a number of quarter turns. *)
Definition qcos (a : Z) : Z :=
  match a mod 4 with
  | 0 => 1
  | 2 => -1
  | _ => 0
  end.

Definition qsin (a : Z) : Z :=
  match a mod 4 with
  | 1 => 1
  | 3 => -1
  | _ => 0
  end.

Definition rotation_x (a : Z) : Matrix3 Z :=
  ((1, 0, 0), (0, qcos a, - qsin a), (0, qsin a, qcos a)).

Definition rotation_y (a : Z) : Matrix3 Z :=
  ((qcos a, 0, qsin a), (0, 1, 0), (- qsin a, 0, qcos a)).

Definition rotation_z (a : Z) : Matrix3 Z :=
  ((qcos a, - qsin a, 0), (qsin a, qcos a, 0), (0, 0, 1)).

Record ZTransform := mkZT {
  zt_matrix : Matrix3 Z;
  zt_translation : Vec;
  zt_center : Vec
}.

Definition z_transform_point (T : ZTransform) (x : Vec) : Vec :=
  vadd (vadd (mat_vec (zt_matrix T) (vsub x (zt_center T)))
             (zt_translation T)) (zt_center T).

(** The matrix of an Euler transform is the product of the rotations about
    z, x and y. *)
Definition z_euler3D_transform (e : Euler3D Z) : ZTransform :=
  let '(ax, ay, az) := e3_rotation e in
  {| zt_matrix := mat_mul (rotation_z az) (mat_mul (rotation_x ax) (rotation_y ay));
     zt_translation := e3_translation e;
     zt_center := e3_center e |}.

Definition z_affine_transform (m : Matrix3 Z) (t : Vec) : ZTransform :=
  {| zt_matrix := m; zt_translation := t; zt_center := (0, 0, 0) |}.

(** On the lattice the invertible matrices are those of determinant 1 or
    -1; the inverse keeps the center. *)
Definition z_transform_inverse (T : ZTransform) : option ZTransform :=
  let d := det (zt_matrix T) in
  if decide (d = 1 ∨ d = -1) then
    let inv := mat_scale d (adjugate (zt_matrix T)) in
    Some {| zt_matrix := inv;
            zt_translation := vneg (mat_vec inv (zt_translation T));
            zt_center := zt_center T |}
  else None.

(** The composite has the center of the inner transform. *)
Definition z_composite (outer inner : ZTransform) : ZTransform :=
  {| zt_matrix := mat_mul (zt_matrix outer) (zt_matrix inner);
     zt_translation :=
       vsub (vadd (vadd (mat_vec (zt_matrix outer)
                           (vsub (vadd (zt_translation inner) (zt_center inner))
                                 (zt_center outer)))
                        (zt_translation outer)) (zt_center outer))
            (zt_center inner);
     zt_center := zt_center inner |}.

(** The inverse of a planar rotation by [a] about [c] followed by a
    shift by [t]: the angle and the rotated shift change sign, the center
    stays. *)
Definition z_euler2D_inverse (t : Euler2D Z) : Euler2D Z :=
  let a := e2_angle t in
  let '(tx, ty) := e2_translation t in
  {| e2_angle := - a;
     e2_translation := (- (qcos a * tx + qsin a * ty),
                        - (- qsin a * tx + qcos a * ty));
     e2_center := e2_center t |}.

(** Direction times spacing, and the origin as translation. *)
Definition z_affine_from_image (img : Image3D Z) : ZTransform :=
  let '((a, b, c), (d, e, f), (g, h, i)) := direction3 img in
  let '(sx, sy, sz) := spacing3 img in
  {| zt_matrix := ((a * sx, b * sy, c * sz), (d * sx, e * sy, f * sz),
                   (g * sx, h * sy, i * sz));
     zt_translation := origin3 img;
     zt_center := (0, 0, 0) |}.

Definition z_direction_from_affine (T : ZTransform) (img : Image3D Z)
  : Matrix3 Z :=
  let '((a, b, c), (d, e, f), (g, h, i)) := zt_matrix T in
  let '(sx, sy, sz) := spacing3 img in
  ((a / sx, b / sy, c / sz), (d / sx, e / sy, f / sz),
   (g / sx, h / sy, i / sz)).

Definition z_origin_from_affine (T : ZTransform) (img : Image3D Z) : Vec :=
  z_transform_point T (0, 0, 0).

(** The composite of the transform with the placement of the image: the
    direction is multiplied by the matrix, the origin is mapped. *)
Definition z_motion_corrected_placement (T : ZTransform) (img : Image3D Z)
  : Matrix3 Z * Vec :=
  (mat_mul (zt_matrix T) (direction3 img), z_transform_point T (origin3 img)).

(** The plane collapses when the third axis of the image is the z axis. *)
Definition z_collapse_geometry (img : Image3D Z)
  : option ((Z * Z) * (Z * Z) * ((Z * Z) * (Z * Z))) :=
  let '((a, b, c), (d, e, f), (g, h, i)) := direction3 img in
  let '(sx, sy, sz) := spacing3 img in
  let '(ox, oy, oz) := origin3 img in
  if decide (c = 0 ∧ f = 0 ∧ g = 0 ∧ h = 0) then
    Some ((sx, sy), (ox, oy), ((a, b), (d, e)))
  else None.

(** Resampling of images with unit spacing and axis-aligned direction: the
    grid point is mapped by the transform and read in the moving image;
    points outside it read 0. *)
Definition z_resample_value (moving grid : Image2D Z) (t : Euler2D Z)
    (interpolator : Interpolator) (k : nat) : Z :=
  let nx := Z.of_nat (size2 grid).1 in
  let i := Z.of_nat k mod nx in
  let j := Z.of_nat k / nx in
  let '(gx, gy) := origin2 grid in
  let '(cx, cy) := e2_center t in
  let '(tx, ty) := e2_translation t in
  let a := e2_angle t in
  let px := gx + i - cx in
  let py := gy + j - cy in
  let qx := qcos a * px - qsin a * py + tx + cx in
  let qy := qsin a * px + qcos a * py + ty + cy in
  let '(mx, my) := origin2 moving in
  let u := qx - mx in
  let v := qy - my in
  let mnx := Z.of_nat (size2 moving).1 in
  let mny := Z.of_nat (size2 moving).2 in
  if decide (0 ≤ u < mnx ∧ 0 ≤ v < mny) then
    default 0 (pixels2 moving !! Z.to_nat (v * mnx + u))
  else 0.

Definition z_default_mask (img : Image2D Z) : Image2D Z :=
  {| size2 := size2 img; spacing2 := spacing2 img; origin2 := origin2 img;
     direction2 := direction2 img; pixel_id2 := 1%nat;
     pixels2 := replicate (length (pixels2 img)) 1 |}.

Definition sum_squares (r : list Z) : Z := foldr (λ x acc, x * x + acc) 0 r.

(** [x] with [d] added to its entry [c]. *)
Definition bump (c : nat) (d : Z) (x : list Z) : list Z :=
  match x !! c with
  | Some v => <[c := v + d]> x
  | None => x
  end.

(** One pass of coordinate search: each coordinate in turn is moved one
    step up or down when that lowers the sum of squares. *)
Fixpoint coordinate_search (coords : list nat) (x : list Z) (fx : Z)
  : Solver Z :=
  match coords with
  | [] => SolverReturn x
  | c :: rest =>
      SolverCall (bump c 1 x) (λ r_up,
        if decide (sum_squares r_up < fx)
        then coordinate_search rest (bump c 1 x) (sum_squares r_up)
        else
          SolverCall (bump c (-1) x) (λ r_down,
            if decide (sum_squares r_down < fx)
            then coordinate_search rest (bump c (-1) x) (sum_squares r_down)
            else coordinate_search rest x fx))
  end.

Definition z_least_squares (x0 : list Z) (method : Method) (loss : Loss)
  : Solver Z :=
  SolverCall x0 (λ r0,
    coordinate_search (seq 0 (length x0)) x0 (sum_squares r0)).

#[global] Instance toolkit : Toolkit Z := {|
  r_zero := 0;
  r_sub := Z.sub;
  r_mul := Z.mul;
  cast_pixel := λ _ v, v;
  same_physical_space := λ g1 g2, bool_decide (g1 = g2);
  resample_value := z_resample_value;
  collapse_geometry := z_collapse_geometry;
  euler2D_inverse := z_euler2D_inverse;
  Transform := ZTransform;
  euler3D_transform := z_euler3D_transform;
  affine_transform := z_affine_transform;
  transform_inverse := z_transform_inverse;
  transform_point := z_transform_point;
  get_composite_sitk_affine_transform := z_composite;
  get_sitk_affine_transform_from_sitk_image := z_affine_from_image;
  get_sitk_image_direction_from_sitk_affine_transform := z_direction_from_affine;
  get_sitk_image_origin_from_sitk_affine_transform := z_origin_from_affine;
  Transform2D := (Z * Z) * (Z * Z) * (Z * Z);
  get_sitk_affine_transform_from_sitk_image_2D :=
    λ img, (direction2 img, origin2 img);
  default_mask := z_default_mask;
  motion_corrected_placement := z_motion_corrected_placement;
  least_squares := z_least_squares
|}.

End Lattice.

(** * A three-slice stack on the lattice *)

Module Example.
Import Lattice.
Local Open Scope Z_scope.

Definition image (size : nat * nat * nat) (origin : Vec) (id : nat)
    (pixels : list Z) : Image3D Z :=
  {| size3 := size; spacing3 := (1, 1, 1); origin3 := origin;
     direction3 := identity3; pixel_id3 := id; pixels3 := pixels |}.

Definition slice (z : Z) (number : nat) (pixels mask : list Z) : Slice Z :=
  {| sitk := image (2, 2, 1)%nat (0, 0, z) 9 pixels;
     sitk_mask := image (2, 2, 1)%nat (0, 0, z) 1 mask;
     slice_filename := "stack"; slice_number := number |}.

Definition slice_a : Slice Z := slice 0 0 [1; 2; 3; 4] [1; 1; 1; 0].
Definition slice_b : Slice Z := slice 1 1 [2; 1; 4; 3] [1; 1; 0; 1].
Definition slice_c : Slice Z := slice 2 2 [5; 5; 7; 7] [0; 1; 1; 1].

Definition world : World Z :=
  {| w_slices := [slice_a; slice_b; slice_c]; w_slices2D := [];
     w_transforms := [] |}.

Definition stack : Stack Z :=
  {| stack_sitk :=
       image (2, 2, 3)%nat (0, 0, 0) 9 [1; 2; 3; 4; 2; 1; 4; 3; 5; 5; 7; 7];
     stack_sitk_mask :=
       image (2, 2, 3)%nat (0, 0, 0) 1 [1; 1; 1; 0; 1; 1; 0; 1; 0; 1; 1; 1];
     stack_slices := [0; 1; 2]%nat;
     stack_filename := "stack" |}.

(** The registration object after [__init__]. *)
Definition registration : RegularizedInPlaneRegistration :=
  {| _fixed := stack;
     _use_fixed_mask := false;
     _use_moving_mask := false;
     _nda_shape := [3; 2; 2]%nat;
     _N_slices := 3;
     _N_2D_voxels := 4;
     _N_residual := 8;
     _registration_transforms_sitk := [None; None; None];
     _parameters := [None; None; None];
     _2D_projected_slices := None;
     _degrees_of_freedom := None;
     _transform_PI_fixed_2D_sitk := None;
     _fixed_grid_2D_sitk := None;
     _stack_corrected := None |}.

(** The same with mask-weighting of the fixed role. *)
Definition masked_registration : RegularizedInPlaneRegistration :=
  default registration (__init__ stack true true).

(** The state at the start of the solve. *)
Definition setup := Eval vm_compute in solver_setup (registration, world).

Definition solver_self : RegularizedInPlaneRegistration := setup.1.1.

Definition solver_world : World Z := setup.1.2.

Definition solver_PP : list (option ZTransform) :=
  match setup.2 with
  | Some (transforms_PP_3D_sitk, _, _) => transforms_PP_3D_sitk
  | None => []
  end.

Definition solver_transforms : list loc :=
  match setup.2 with
  | Some (_, transforms_sitk, _) => transforms_sitk
  | None => []
  end.

(** A quarter turn for slice 1, a shift along y for slice 2. *)
Definition some_parameters : list Z := [1; 0; 0; 0; 0; 1].

(** The same with a single slice. *)
Definition world1 : World Z :=
  {| w_slices := [slice_a]; w_slices2D := []; w_transforms := [] |}.

Definition stack1 : Stack Z :=
  {| stack_sitk := image (2, 2, 1)%nat (0, 0, 0) 9 [1; 2; 3; 4];
     stack_sitk_mask := image (2, 2, 1)%nat (0, 0, 0) 1 [1; 1; 1; 0];
     stack_slices := [0]%nat;
     stack_filename := "stack" |}.

Definition registration1 : RegularizedInPlaneRegistration :=
  {| _fixed := stack1;
     _use_fixed_mask := false;
     _use_moving_mask := false;
     _nda_shape := [1; 2; 2]%nat;
     _N_slices := 1;
     _N_2D_voxels := 4;
     _N_residual := 0;
     _registration_transforms_sitk := [None];
     _parameters := [None];
     _2D_projected_slices := None;
     _degrees_of_freedom := None;
     _transform_PI_fixed_2D_sitk := None;
     _fixed_grid_2D_sitk := None;
     _stack_corrected := None |}.

(** A parameter matrix for the three-slice stack, and the registration
    object that holds it. *)
Definition solved_self : RegularizedInPlaneRegistration :=
  set_parameters solver_self
    (Some <$> [[0; 0; 0]; [1; 0; 0]; [0; 0; 1]]).

(** The runs on the two stacks: the registration object and the store
    they leave. *)
Definition outcome := Eval vm_compute in
  run_regularized_rigid_inplane_registration (registration, world).

Definition final_self : RegularizedInPlaneRegistration := outcome.1.1.

Definition final_world : World Z := outcome.1.2.

Definition outcome1 := Eval vm_compute in
  run_regularized_rigid_inplane_registration (registration1, world1).

Definition final_self1 : RegularizedInPlaneRegistration := outcome1.1.1.

Definition final_world1 : World Z := outcome1.1.2.

(** The state at the start of the solve on the one-slice stack. *)
Definition setup1 := Eval vm_compute in solver_setup (registration1, world1).

Definition solver_self1 : RegularizedInPlaneRegistration := setup1.1.1.

Definition solver_world1 : World Z := setup1.1.2.

Definition solver_PP1 : list (option ZTransform) :=
  match setup1.2 with
  | Some (transforms_PP_3D_sitk, _, _) => transforms_PP_3D_sitk
  | None => []
  end.

(** A slice whose mask is wider than its image: the image has 2 by 2
    pixels, the mask 3 by 2. *)
Definition wide_slice : Slice Z :=
  {| sitk := image (2, 2, 1)%nat (0, 0, 0) 9 [1; 2; 3; 4];
     sitk_mask := image (3, 2, 1)%nat (0, 0, 0) 1 [1; 1; 0; 0; 1; 1];
     slice_filename := "wide"; slice_number := 0 |}.

Definition wide_world : World Z :=
  {| w_slices := [wide_slice]; w_slices2D := []; w_transforms := [] |}.

Definition wide_stack : Stack Z :=
  {| stack_sitk := image (2, 2, 1)%nat (0, 0, 0) 9 [1; 2; 3; 4];
     stack_sitk_mask := image (3, 2, 1)%nat (0, 0, 0) 1 [1; 1; 0; 0; 1; 1];
     stack_slices := [0]%nat;
     stack_filename := "wide" |}.

Definition wide_registration : RegularizedInPlaneRegistration :=
  default registration (__init__ wide_stack true false).

(** The same slice with a mask that is narrower than its image: 1 by 2
    pixels. *)
Definition narrow_slice : Slice Z :=
  {| sitk := image (2, 2, 1)%nat (0, 0, 0) 9 [1; 2; 3; 4];
     sitk_mask := image (1, 2, 1)%nat (0, 0, 0) 1 [1; 1];
     slice_filename := "wide"; slice_number := 0 |}.

Definition narrow_world : World Z :=
  {| w_slices := [narrow_slice]; w_slices2D := []; w_transforms := [] |}.

Definition wide_PP : list (option ZTransform) :=
  default [] (_get_list_of_3D_rigid_transforms_of_slices wide_stack wide_world).

(** A volume without planes, and a stack that lost its last slice. *)
Definition empty_stack : Stack Z :=
  {| stack_sitk := image (2, 2, 0)%nat (0, 0, 0) 9 [];
     stack_sitk_mask := image (2, 2, 0)%nat (0, 0, 0) 1 [];
     stack_slices := [];
     stack_filename := "stack" |}.

Definition empty_registration : RegularizedInPlaneRegistration :=
  default registration (__init__ empty_stack false false).

Definition short_stack : Stack Z :=
  {| stack_sitk := stack_sitk stack;
     stack_sitk_mask := stack_sitk_mask stack;
     stack_slices := [0; 1]%nat;
     stack_filename := "stack" |}.

Definition short_registration : RegularizedInPlaneRegistration :=
  default registration (__init__ short_stack false false).

(** The state at the start of the solve with a second transform object
    in the store, and a list of transforms whose first entry names it. *)
Definition spare_transform : Euler2D Z :=
  {| e2_angle := 1; e2_translation := (2, 3); e2_center := (0, 0) |}.

Definition spare_world : World Z :=
  set_w_transforms solver_world (w_transforms solver_world ++ [spare_transform]).

Definition spare_transforms : list loc := [1; 0; 0]%nat.

End Example.

(** * Properties *)

(** ** Calls *)

Section CallFacts.
Context {S : Type}.

Lemma call_bind_returns {A B} (m : Call A) (k : A → Call B) (s s' : S) b :
  call_bind m k s = (s', Some b) ↔
  ∃ a s1, m s = (s1, Some a) ∧ k a s1 = (s', Some b).
Proof.
  unfold call_bind. destruct (m s) as [s1 [a|]]; split.
  - intros H. by exists a, s1.
  - by intros (a' & s1' & [= <- <-] & H).
  - done.
  - by intros (a' & s1' & [=] & H).
Qed.

Lemma call_bind_raises {A B} (m : Call A) (k : A → Call B) (s s' : S) :
  call_bind m k s = (s', None) ↔
  m s = (s', None) ∨ ∃ a s1, m s = (s1, Some a) ∧ k a s1 = (s', None).
Proof.
  unfold call_bind. destruct (m s) as [s1 [a|]]; split.
  - intros H. right. by exists a, s1.
  - intros [[=]|(a' & s1' & [= <- <-] & H)]. done.
  - intros [= <-]. by left.
  - intros [[= <-]|(a' & s1' & [=] & H)]. done.
Qed.

Lemma call_bind_unfold {A B} (m : Call A) (k : A → Call B) (s : S) :
  call_bind m k s
  = match m s with
    | (s1, Some a) => k a s1
    | (s1, None) => (s1, None)
    end.
Proof. reflexivity. Qed.

(** A relation between the state before and the state after that every
    step of a call keeps is kept by the call, whether it returns or
    raises. *)
Lemma call_bind_keeps {A B} (P : S → S → Prop) (m : Call A) (k : A → Call B) :
  (∀ s1 s2 s3, P s1 s2 → P s2 s3 → P s1 s3) →
  (∀ s, P s (m s).1) → (∀ a s, P s (k a s).1) →
  ∀ s, P s (call_bind m k s).1.
Proof.
  intros Htrans Hm Hk s. unfold call_bind.
  pose proof (Hm s) as H1. destruct (m s) as [s1 [a|]]; cbn in *; [|done].
  eapply Htrans; [exact H1|apply Hk].
Qed.

End CallFacts.

(** One step of a call in a hypothesis or in the goal. *)
Ltac call_step_in H :=
  cbv beta iota zeta
      delta [call_bind call_try call_get call_read call_write call_ret] in H.
Ltac call_step :=
  cbv beta iota zeta
      delta [call_bind call_try call_get call_read call_write call_ret].

(** The same for a method of the registration object. *)
Ltac self_step_in H :=
  cbv beta iota zeta
      delta [call_bind call_try call_get call_read call_write call_ret
             on_store assign] in H.
Ltac self_step :=
  cbv beta iota zeta
      delta [call_bind call_try call_get call_read call_write call_ret
             on_store assign].

Section Properties.
Context {R : Type} {TK : Toolkit R}.

(** ** Arrays *)

Lemma flat_map_rows {A} (g : nat → A) (c r k : nat) :
  flat_map (λ i, map (λ j, g (i * c + j)) (seq 0 c)) (seq k r)
  = map g (seq (k * c) (r * c)).
Proof.
  revert k. induction r as [|r IH]; intros k; [done|].
  cbn [seq flat_map]. rewrite IH.
  replace (S r * c) with (c + r * c) by lia.
  rewrite seq_app, map_app. f_equal.
  - replace (seq (k * c) c) with (Nat.add (k * c) <$> seq 0 c)
      by (rewrite fmap_add_seq; f_equal; lia).
    change (map g (Nat.add (k * c) <$> seq 0 c)) with
      (g <$> (Nat.add (k * c) <$> seq 0 c)).
    by rewrite <- list_fmap_compose.
  - do 2 f_equal. lia.
Qed.

Lemma map_lookup_zip_with {A} (f : A → A → A) (z : A) (la lb : list A) :
  length la = length lb →
  map (λ n, f (default z (la !! n)) (default z (lb !! n))) (seq 0 (length la))
  = zip_with f la lb.
Proof.
  revert lb. induction la as [|a la IH]; intros [|b lb] Hlen; try done.
  simpl in *. f_equal. rewrite <- fmap_S_seq.
  change (map ?h (S <$> ?l)) with (h <$> (S <$> l)).
  rewrite <- list_fmap_compose. apply IH. lia.
Qed.

Lemma broadcast_dim_same n : broadcast_dim n n = Some n.
Proof. unfold broadcast_dim. by rewrite decide_True. Qed.

Lemma nd_get_in_range (a : ndarray R) i j :
  i < nd_rows a → j < nd_cols a →
  nd_get a i j = default r_zero (nd_data a !! (i * nd_cols a + j)).
Proof.
  intros Hi Hj. unfold nd_get. do 2 f_equal.
  do 2 case_decide; f_equal; lia.
Qed.

(** On operands of one shape the difference is taken entry by entry. *)
Lemma nd_sub_same_shape (r c : nat) (da db : list R) :
  length da = r * c → length db = r * c →
  nd_sub (mkNd r c da) (mkNd r c db) = Some (mkNd r c (zip_with r_sub da db)).
Proof.
  intros Ha Hb. unfold nd_sub. cbn [nd_rows nd_cols].
  rewrite !broadcast_dim_same. cbn. do 2 f_equal.
  rewrite <- (map_lookup_zip_with r_sub r_zero) by lia.
  rewrite Ha, <- (flat_map_rows _ c r 0).
  rewrite !flat_map_concat_map. f_equal.
  apply map_ext_in. intros i Hi. apply map_ext_in. intros j Hj.
  apply in_seq in Hi, Hj.
  rewrite !nd_get_in_range by (cbn; lia). done.
Qed.

(** ** The residual evaluator and the transform objects *)

Lemma SetParameters_center (t t' : Euler2D R) row :
  SetParameters t row = Some t' → e2_center t' = e2_center t.
Proof.
  unfold SetParameters. intros H.
  repeat (case_match; try discriminate). by simplify_eq.
Qed.

Lemma SetParameters_same_center (t1 t2 : Euler2D R) row :
  e2_center t1 = e2_center t2 → SetParameters t1 row = SetParameters t2 row.
Proof. unfold SetParameters. by intros ->. Qed.

Lemma same_state_refl (w : World R) : same_state w w.
Proof. by split. Qed.

Lemma same_state_sym (w1 w2 : World R) : same_state w1 w2 → same_state w2 w1.
Proof. by intros [? ?]. Qed.

Lemma same_state_trans (w1 w2 w3 : World R) :
  same_state w1 w2 → same_state w2 w3 → same_state w1 w3.
Proof. intros [? ?] [? ?]. split; congruence. Qed.

Lemma same_state_lookup (w1 w2 : World R) l :
  same_state w1 w2 →
  e2_center <$> (w_transforms w1 !! l) = e2_center <$> (w_transforms w2 !! l).
Proof. intros [_ H]. by rewrite <- !list_lookup_fmap, H. Qed.

(** [SetParameters_at] read backwards: what it needs to return, and the
    store it leaves. *)
Lemma SetParameters_at_returns l row (w w' : World R) u :
  SetParameters_at l row w = (w', Some u) ↔
  ∃ t t', w_transforms w !! l = Some t ∧ SetParameters t row = Some t' ∧
          w' = set_w_transforms w (<[l := t']> (w_transforms w)).
Proof.
  unfold SetParameters_at. call_step.
  destruct (w_transforms w !! l) as [t|];
    [|split; [done|by intros (? & ? & [=] & _)]].
  destruct (SetParameters t row) as [t'|] eqn:Ht';
    [|split; [done|intros (? & ? & ? & ? & _); simplify_eq]].
  destruct u. split.
  - intros [= <-]. by exists t, t'.
  - intros (? & t'' & [= <-] & Ht'' & ->). by simplify_eq.
Qed.

(** When it raises it has not touched the store. *)
Lemma SetParameters_at_raises l row (w w' : World R) :
  SetParameters_at l row w = (w', None) → w' = w.
Proof.
  unfold SetParameters_at. call_step.
  destruct (w_transforms w !! l) as [t|]; [|by intros [= <-]].
  destruct (SetParameters t row) as [t'|]; [done|by intros [= <-]].
Qed.

(** Setting parameters changes one transform object and nothing else, and
    leaves its center alone. *)
Lemma SetParameters_at_frame l row (w w' : World R) u :
  SetParameters_at l row w = (w', Some u) →
  w_slices w' = w_slices w ∧ same_state w w' ∧
  w_transforms w' !! l = (w_transforms w !! l) ≫= λ t, SetParameters t row.
Proof.
  intros (t & t' & Ht & Ht' & ->)%SetParameters_at_returns.
  cbn. split; [done|]. split.
  - split; [done|]. cbn. rewrite list_fmap_insert.
    symmetry. apply list_insert_id.
    rewrite list_lookup_fmap, Ht. cbn. f_equal.
    by apply SetParameters_center in Ht'.
  - rewrite Ht. cbn. rewrite Ht'.
    rewrite list_lookup_insert_eq; [done|]. by eapply lookup_lt_Some.
Qed.

(** Whatever the outcome, slices and centers are as before. *)
Lemma SetParameters_at_keeps l row (w : World R) :
  w_slices (SetParameters_at l row w).1 = w_slices w ∧
  same_state w (SetParameters_at l row w).1.
Proof.
  destruct (SetParameters_at l row w) as [w' [u|]] eqn:H.
  - by apply SetParameters_at_frame in H as (? & ? & _).
  - apply SetParameters_at_raises in H as ->. cbn.
    split; [done|apply same_state_refl].
Qed.

(** In two stores of the same state it raises in both or in neither, and
    the object then holds the same transform in both. *)
Lemma SetParameters_at_agree l row (w1 w2 : World R) :
  same_state w1 w2 →
  match SetParameters_at l row w1, SetParameters_at l row w2 with
  | (a, Some _), (b, Some _) =>
      same_state a b ∧ w_transforms a !! l = w_transforms b !! l
  | (_, None), (_, None) => True
  | _, _ => False
  end.
Proof.
  intros Hs. pose proof (same_state_lookup _ _ l Hs) as Hl.
  destruct (SetParameters_at l row w1) as [a [ua|]] eqn:Ha,
           (SetParameters_at l row w2) as [b [ub|]] eqn:Hb.
  - apply SetParameters_at_frame in Ha as (_ & Sa & La).
    apply SetParameters_at_frame in Hb as (_ & Sb & Lb).
    split.
    + eauto using same_state_trans, same_state_sym.
    + rewrite La, Lb.
      destruct (w_transforms w1 !! l), (w_transforms w2 !! l);
        cbn in *; try done.
      apply SetParameters_same_center. congruence.
  - apply SetParameters_at_returns in Ha as (t1 & t1' & Ht1 & Ht1' & _).
    unfold SetParameters_at in Hb. call_step_in Hb.
    rewrite Ht1 in Hl.
    destruct (w_transforms w2 !! l) as [t2|]; [|done].
    cbn in Hl. rewrite (SetParameters_same_center t1 t2) in Ht1'
      by congruence.
    by rewrite Ht1' in Hb.
  - apply SetParameters_at_returns in Hb as (t2 & t2' & Ht2 & Ht2' & _).
    unfold SetParameters_at in Ha. call_step_in Ha.
    rewrite Ht2 in Hl.
    destruct (w_transforms w1 !! l) as [t1|]; [|done].
    cbn in Hl. rewrite (SetParameters_same_center t1 t2) in Ha
      by congruence.
    by rewrite Ht2' in Ha.
  - done.
Qed.

(** One turn of the loop of the residual evaluator, read backwards. *)
Lemma residual_loop_step self parameters transforms_sitk interpolator i rest
    slice_i_nda residual (w : World R) residual' w' :
  residual_loop self parameters transforms_sitk interpolator (i :: rest)
    slice_i_nda residual w = (w', Some residual') →
  ∃ l row w1 projected sref s grid t diff residual1,
    transforms_sitk !! (i + 1) = Some l ∧
    parameters !! i = Some row ∧
    SetParameters_at l row w = (w1, Some tt) ∧
    _2D_projected_slices self = Some projected ∧
    item projected (i + 1) = Some sref ∧
    w_slices2D w1 !! sref = Some s ∧
    _fixed_grid_2D_sitk self = Some grid ∧
    w_transforms w1 !! l = Some t ∧
    nd_sub slice_i_nda
      (GetArrayFromImage (Resample (sitk2 s) grid t interpolator))
      = Some diff ∧
    assign_row residual i (_N_2D_voxels self) (nd_data diff)
      = Some residual1 ∧
    residual_loop self parameters transforms_sitk interpolator rest
      (GetArrayFromImage (Resample (sitk2 s) grid t interpolator))
      residual1 w1 = (w', Some residual').
Proof.
  cbn [residual_loop]. intros H. call_step_in H.
  destruct (transforms_sitk !! (i + 1)) as [l|]; [|done].
  destruct (parameters !! i) as [row|]; [|done].
  destruct (SetParameters_at l row w) as [w1 [[]|]] eqn:Hset; [|done].
  destruct (_2D_projected_slices self) as [projected|]; [|done].
  destruct (item projected (i + 1)) as [sref|] eqn:Hsref; [|done].
  destruct (w_slices2D w1 !! sref) as [s|] eqn:Hs; [|done].
  destruct (_fixed_grid_2D_sitk self) as [grid|]; [|done].
  destruct (w_transforms w1 !! l) as [t|] eqn:Ht; [|done].
  destruct (nd_sub _ _) as [diff|] eqn:Hdiff; [|done].
  destruct (assign_row _ _ _ _) as [residual1|] eqn:Hrow; [|done].
  by exists l, row, w1, projected, sref, s, grid, t, diff, residual1.
Qed.

Lemma evaluator_frame_trans (w1 w2 w3 : World R) :
  w_slices w2 = w_slices w1 ∧ same_state w1 w2 →
  w_slices w3 = w_slices w2 ∧ same_state w2 w3 →
  w_slices w3 = w_slices w1 ∧ same_state w1 w3.
Proof.
  intros [? ?] [? ?]. split; [congruence|by eapply same_state_trans].
Qed.

(** The loop changes transform parameters only, whether it returns or
    raises. *)
Lemma residual_loop_keeps self parameters transforms_sitk interpolator
    indices slice_i_nda residual (w : World R) :
  w_slices (residual_loop self parameters transforms_sitk interpolator
              indices slice_i_nda residual w).1 = w_slices w ∧
  same_state w (residual_loop self parameters transforms_sitk interpolator
                  indices slice_i_nda residual w).1.
Proof.
  revert slice_i_nda residual w.
  induction indices as [|i rest IH]; intros nda residual.
  { intros w. cbn. split; [done|apply same_state_refl]. }
  cbn [residual_loop].
  repeat (apply (call_bind_keeps
                   (λ w w', w_slices w' = w_slices w ∧ same_state w w'));
          [exact evaluator_frame_trans
          |first [apply SetParameters_at_keeps
                 |intros w; cbn; split; [done|apply same_state_refl]]
          |intros ?]).
  apply IH.
Qed.

Lemma residual_loop_frame self parameters transforms_sitk interpolator
    indices slice_i_nda residual (w : World R) residual' w' :
  residual_loop self parameters transforms_sitk interpolator indices
    slice_i_nda residual w = (w', Some residual') →
  w_slices w' = w_slices w ∧ same_state w w'.
Proof.
  intros H.
  pose proof (residual_loop_keeps self parameters transforms_sitk interpolator
                indices slice_i_nda residual w) as Hk.
  by rewrite H in Hk.
Qed.

(** The residuals do not depend on the parameters the transform objects
    hold when the loop starts. *)
Lemma residual_loop_agree self parameters transforms_sitk interpolator
    indices slice_i_nda residual (w1 w2 : World R) :
  same_state w1 w2 →
  (residual_loop self parameters transforms_sitk interpolator indices
     slice_i_nda residual w1).2
  = (residual_loop self parameters transforms_sitk interpolator indices
       slice_i_nda residual w2).2.
Proof.
  revert slice_i_nda residual w1 w2.
  induction indices as [|i rest IH]; intros nda residual w1 w2 Hs; [done|].
  cbn [residual_loop]. call_step.
  destruct (transforms_sitk !! (i + 1)) as [l|]; [call_step|done].
  destruct (parameters !! i) as [row|]; [call_step|done].
  pose proof (SetParameters_at_agree l row _ _ Hs) as Ha.
  destruct (SetParameters_at l row w1) as [a [[]|]],
           (SetParameters_at l row w2) as [b [[]|]]; try done.
  destruct Ha as [[H2D Hc] Hl]. call_step.
  destruct (_2D_projected_slices self) as [projected|]; [call_step|done].
  destruct (item projected (i + 1)) as [sref|]; [call_step|done].
  rewrite H2D, Hl.
  destruct (w_slices2D b !! sref) as [s|]; [call_step|done].
  destruct (_fixed_grid_2D_sitk self) as [grid|]; [call_step|done].
  destruct (w_transforms b !! l) as [t|]; [call_step|done].
  destruct (nd_sub _ _) as [diff|]; [call_step|done].
  destruct (assign_row _ _ _ _) as [residual'|]; [call_step|done].
  apply IH. by split.
Qed.

(** The evaluator read backwards. *)
Lemma _get_residual_data_fit_returns self parameters_vec transforms_sitk
    interpolator (w : World R) r w' :
  _get_residual_data_fit self parameters_vec transforms_sitk interpolator w
    = (w', Some r) →
  ∃ n1 dof parameters projected sref s0 residual',
    _N_slices self = S n1 ∧
    _degrees_of_freedom self = Some dof ∧
    reshape_rows dof parameters_vec = Some parameters ∧
    _2D_projected_slices self = Some projected ∧
    item projected 0 = Some sref ∧
    w_slices2D w !! sref = Some s0 ∧
    residual_loop self parameters transforms_sitk interpolator (seq 0 n1)
      (GetArrayFromImage (sitk2 s0))
      (replicate n1 (replicate (_N_2D_voxels self) r_zero)) w
    = (w', Some residual') ∧
    r = concat residual'.
Proof.
  unfold _get_residual_data_fit. intros H. call_step_in H.
  destruct (_N_slices self) as [|n1]; [done|].
  cbn [pred_dim] in H. call_step_in H.
  destruct (_degrees_of_freedom self) as [dof|]; [call_step_in H|done].
  destruct (reshape_rows dof parameters_vec) as [parameters|] eqn:Hp;
    [call_step_in H|done].
  destruct (_2D_projected_slices self) as [projected|];
    [call_step_in H|done].
  destruct (item projected 0) as [sref|] eqn:Hsref; [call_step_in H|done].
  destruct (w_slices2D w !! sref) as [s0|] eqn:Hs0; [call_step_in H|done].
  destruct (residual_loop _ _ _ _ _ _ _ _) as [w'' [residual'|]] eqn:Hloop;
    [|done].
  simplify_eq.
  by exists n1, dof, parameters, projected, sref, s0, residual'.
Qed.

(** Whether it returns or raises, the evaluator leaves slices, projected
    slices and the centers of the transform objects as they were. *)
Lemma _get_residual_data_fit_keeps self parameters_vec transforms_sitk
    interpolator (w : World R) :
  w_slices (_get_residual_data_fit self parameters_vec transforms_sitk
              interpolator w).1 = w_slices w ∧
  same_state w (_get_residual_data_fit self parameters_vec transforms_sitk
                  interpolator w).1.
Proof.
  revert w. unfold _get_residual_data_fit.
  repeat (apply (call_bind_keeps
                   (λ w w', w_slices w' = w_slices w ∧ same_state w w'));
          [exact evaluator_frame_trans
          |first [intros w; apply residual_loop_keeps
                 |intros w; cbn; split; [done|apply same_state_refl]]
          |intros ?]).
  intros w. cbn. split; [done|apply same_state_refl].
Qed.

Lemma _get_residual_data_fit_frame self parameters_vec transforms_sitk
    interpolator (w : World R) r w' :
  _get_residual_data_fit self parameters_vec transforms_sitk interpolator w
    = (w', Some r) →
  w_slices w' = w_slices w ∧ same_state w w'.
Proof.
  intros H.
  pose proof (_get_residual_data_fit_keeps self parameters_vec
                transforms_sitk interpolator w) as Hk.
  by rewrite H in Hk.
Qed.

Lemma _get_residual_data_fit_agree self parameters_vec transforms_sitk
    interpolator (w1 w2 : World R) :
  same_state w1 w2 →
  (_get_residual_data_fit self parameters_vec transforms_sitk
     interpolator w1).2
  = (_get_residual_data_fit self parameters_vec transforms_sitk
       interpolator w2).2.
Proof.
  intros Hs. unfold _get_residual_data_fit. call_step.
  destruct (pred_dim _) as [n1|]; [call_step|done].
  destruct (_degrees_of_freedom self) as [dof|]; [call_step|done].
  destruct (reshape_rows dof parameters_vec) as [parameters|];
    [call_step|done].
  destruct (_2D_projected_slices self) as [projected|]; [call_step|done].
  destruct (item projected 0) as [sref|]; [call_step|done].
  pose proof Hs as [H2D Hc]. rewrite H2D.
  destruct (w_slices2D w2 !! sref) as [s0|]; [call_step|done].
  match goal with
  | |- context [residual_loop ?a ?b ?c ?d ?e ?f ?g w1] =>
      pose proof (residual_loop_agree a b c d e f g w1 w2 Hs) as Hl;
      destruct (residual_loop a b c d e f g w1) as [w1' [r1|]],
               (residual_loop a b c d e f g w2) as [w2' [r2|]];
      cbn in *; congruence
  end.
Qed.

(** After the loop the transform object of the last slice visited holds
    the parameters of the last group, whatever other entries of
    [transforms_sitk] name the same object. *)
Lemma residual_loop_last self parameters transforms_sitk interpolator indices
    slice_i_nda residual (w : World R) residual' w' j :
  residual_loop self parameters transforms_sitk interpolator indices
    slice_i_nda residual w = (w', Some residual') →
  last indices = Some j →
  ∃ l t row, transforms_sitk !! (j + 1) = Some l ∧
             w_transforms w !! l = Some t ∧ parameters !! j = Some row ∧
             w_transforms w' !! l = SetParameters t row.
Proof.
  revert slice_i_nda residual w.
  induction indices as [|i rest IH]; intros nda residual w H Hlast; [done|].
  apply residual_loop_step in H
    as (l & row_i & w1 & projected & sref & s & grid & t1 & diff & residual1
        & El & Erow & Eset & _ & _ & _ & _ & Et1 & _ & _ & H).
  apply SetParameters_at_frame in Eset as (_ & Hstate & Hl).
  destruct rest as [|i' rest'].
  - cbn in H, Hlast. call_step_in H. simplify_eq.
    destruct (w_transforms w !! l) as [t|] eqn:Ht;
      [|rewrite Et1 in Hl; discriminate Hl].
    exists l, t, row_i. split_and!; [done..|]. cbn in Hl. congruence.
  - destruct (IH _ _ _ H Hlast) as (l' & t'' & row & Hl' & Ht1 & Hrow & Hw').
    pose proof (same_state_lookup _ _ l' Hstate) as Hcenter.
    rewrite Ht1 in Hcenter.
    destruct (w_transforms w !! l') as [t|] eqn:Ht; [|done].
    cbn in Hcenter. injection Hcenter as Hcenter.
    exists l', t, row. split_and!; [done..|].
    rewrite Hw'. by apply SetParameters_same_center.
Qed.

(** ** The residual vector *)

Lemma chunk_lookup d m (v : list R) i :
  i < m → m * d ≤ length v →
  chunk d m v !! i = Some (take d (drop (i * d) v)).
Proof.
  revert v i. induction m as [|m IH]; intros v i Hi Hlen; [lia|].
  destruct i as [|i]; cbn; [done|].
  rewrite IH by (rewrite ?length_drop; lia).
  by rewrite drop_drop.
Qed.

Lemma reshape_rows_groups (v : list R) m :
  length v = 3 * m →
  ∃ groups, reshape_rows 3 v = Some groups ∧ length groups = m ∧
    ∀ i, i < m → ∃ a b c, groups !! i = Some [a; b; c].
Proof.
  intros Hlen. exists (chunk 3 m v).
  assert (length v `div` 3 = m) as Hdiv
    by (rewrite Hlen, Nat.mul_comm; by apply Nat.div_mul).
  split_and!.
  - unfold reshape_rows. rewrite decide_False by lia.
    rewrite decide_True by (rewrite Hlen, Nat.mul_comm; by apply Nat.Div0.mod_mul).
    by rewrite Hdiv.
  - clear Hlen Hdiv. revert v. induction m; intros v; cbn; auto.
  - intros i Hi. rewrite chunk_lookup by lia.
    assert (length (take 3 (drop (i * 3) v)) = 3) as Hl
      by (rewrite length_take, length_drop; lia).
    destruct (take 3 (drop (i * 3) v)) as [|a [|b [|c [|? ?]]]];
      cbn in Hl; try lia.
    by exists a, b, c.
Qed.

(** The loop fills the rows from [k] on with the blocks of the
    specification. *)
Lemma residual_loop_spec self groups transforms_sitk interpolator
    (w0 : World R) n nx ny :
  evaluator_state self transforms_sitk w0 n nx ny →
  (∀ i, i < n - 1 → ∃ a b c, groups !! i = Some [a; b; c]) →
  ∀ m k done prev w,
    k + m = n - 1 → length done = k → same_state w0 w →
    spec_nda self groups transforms_sitk interpolator w0 k = Some prev →
    length prev = nx * ny →
    ∃ blocks w',
      mapM (spec_block self groups transforms_sitk interpolator w0) (seq k m)
        = Some blocks ∧
      residual_loop self groups transforms_sitk interpolator (seq k m)
        (mkNd ny nx prev)
        (done ++ replicate m (replicate (_N_2D_voxels self) r_zero)) w
        = (w', Some (done ++ blocks)) ∧
      Forall (λ b, length b = nx * ny) blocks.
Proof.
  intros Hes Hgroups. induction m as [|m IH];
    intros k done prev w Hkm Hdone Hw Hprev Hlen.
  { exists [], w. cbn. by rewrite app_nil_r. }
  destruct Hes as [HN Hvox Hdof (projected & Hproj & Hslices)
                     (grid & Hgrid & Hsize) Hslice0 Htrans].
  destruct (Hslices (S k)) as (sref & s & Hsref & Hs); [lia|].
  destruct (Htrans (S k)) as (l & t0 & Hl & Ht0); [lia|].
  destruct (Hgroups k) as (a & b & c & Hrow); [lia|].
  pose proof (same_state_lookup _ _ l Hw) as Hcenter.
  rewrite Ht0 in Hcenter.
  destruct (w_transforms w !! l) as [t1|] eqn:Ht1; [|done].
  cbn in Hcenter. injection Hcenter as Hcenter.
  set (t := mkEuler2D a (b, c) (e2_center t0)).
  set (next := pixels2 (Resample (sitk2 s) grid t interpolator)).
  assert (spec_nda self groups transforms_sitk interpolator w0 (S k)
          = Some next) as Hnext.
  { unfold spec_nda. rewrite Hproj. cbn [mbind option_bind].
    rewrite Hsref. cbn [mbind option_bind]. rewrite Hs, Hgrid, Hl.
    cbn [mbind option_bind]. rewrite Ht0, Hrow. done. }
  assert (length next = nx * ny) as Hnextlen.
  { unfold next. cbn. by rewrite length_map, length_seq, Hsize. }
  set (block := zip_with r_sub prev next).
  assert (length block = nx * ny) as Hblock.
  { unfold block. rewrite length_zip_with. lia. }
  destruct (IH (S k) (done ++ [block]) next
              (set_w_transforms w (<[l := t]> (w_transforms w))))
    as (blocks & w' & Hblocks & Hloop & Hall);
    [lia|rewrite length_app; cbn; lia| |done|done|].
  { destruct Hw as [Hw2 Hwc]. split; [done|]. cbn.
    rewrite list_fmap_insert, Hwc. symmetry. apply list_insert_id.
    rewrite list_lookup_fmap, Ht1. cbn. by rewrite Hcenter. }
  exists (block :: blocks), w'. split_and!.
  - assert (spec_block self groups transforms_sitk interpolator w0 k
            = Some block) as Hk
      by (unfold spec_block; by rewrite Hprev, Hnext).
    cbn [seq mapM]. rewrite Hk. cbn [mbind option_bind].
    by rewrite Hblocks.
  - assert (SetParameters_at l [a; b; c] w
            = (set_w_transforms w (<[l := t]> (w_transforms w)), Some tt))
      as Hset.
    { apply SetParameters_at_returns. exists t1, t. split_and!; [done| |done].
      cbn. unfold t. by rewrite Hcenter. }
    cbn [seq residual_loop]. call_step. rewrite Nat.add_1_r, Hl. call_step.
    rewrite Hrow. call_step. rewrite Hset.
    call_step. rewrite Hproj. call_step. rewrite Hsref. call_step.
    cbn [w_slices2D set_w_transforms w_transforms].
    destruct Hw as [Hw2 Hwc]. rewrite Hw2 in Hs. rewrite Hs. call_step.
    rewrite Hgrid. call_step.
    rewrite list_lookup_insert_eq by (by eapply lookup_lt_Some).
    call_step.
    replace (GetArrayFromImage (Resample (sitk2 s) grid t interpolator))
      with (mkNd ny nx next)
      by (unfold GetArrayFromImage; cbn; by rewrite Hsize).
    rewrite nd_sub_same_shape by lia. call_step. cbn [nd_data].
    fold block. unfold assign_row. cbn [replicate].
    rewrite list_lookup_middle by done. cbn [mbind option_bind].
    rewrite decide_True by (rewrite Hvox; lia).
    rewrite insert_app_r_alt, Hdone, Nat.sub_diag by lia.
    cbn [insert list_insert]. call_step.
    rewrite <- !app_assoc in Hloop. exact Hloop.
  - by constructor.
Qed.

Lemma length_concat_uniform {A} (c : nat) (ls : list (list A)) :
  Forall (λ l, length l = c) ls → length (concat ls) = length ls * c.
Proof.
  induction 1 as [|l ls Hl _ IH]; [done|].
  cbn. rewrite length_app, IH, Hl. done.
Qed.

(** [__init__] reads the number of slices and of voxels per slice off the
    volume of the stack. *)
Lemma __init___counts (fixed : Stack R) use_fixed_mask use_moving_mask
    nx ny nz :
  size3 (stack_sitk fixed) = (nx, ny, nz) →
  ∃ self, __init__ fixed use_fixed_mask use_moving_mask = Some self ∧
    _fixed self = fixed ∧
    _N_slices self = nz ∧ _N_2D_voxels self = ny * nx ∧
    _N_residual self = ((Z.of_nat nz - 1) * Z.of_nat (ny * nx))%Z.
Proof.
  intros Hsize. unfold __init__. rewrite Hsize. cbn.
  eexists. split; [done|]. cbn. rewrite Nat.mul_1_r. done.
Qed.

(** C1: for a stack of [n >= 2] slices and a parameter vector of length
    [3 * (n - 1)] the residual evaluator returns, and what it returns is
    the vector of the specification: the vector is cut into [n - 1] groups
    of three; [nda 0] is the raw pixel array of projected slice 0, [nda i]
    is projected slice [i] resampled onto the fixed grid under the
    transform with the parameters of group [i]; block [i - 1] is
    [nda (i - 1) - nda i], and the blocks follow each other in slice order.
    The length of the vector is [n - 1] times the number of pixels of the
    grid of projected slice 0. *)
Theorem residual_postcondition self parameters_vec transforms_sitk
    interpolator (w : World R) n nx ny :
  2 ≤ n →
  length parameters_vec = 3 * (n - 1) →
  evaluator_state self transforms_sitk w n nx ny →
  ∃ r w',
    _get_residual_data_fit self parameters_vec transforms_sitk interpolator w
      = (w', Some r) ∧
    spec_residual self parameters_vec transforms_sitk interpolator w n
      = Some r ∧
    length r = (n - 1) * (nx * ny).
Proof.
  intros Hn Hlen Hes.
  destruct (reshape_rows_groups _ _ Hlen) as (groups & Hgroups & _ & Hrows).
  pose proof Hes as [HN Hvox Hdof (projected & Hproj & Hslices)
                       (grid & Hgrid & Hsize) Hslice0 Htrans].
  destruct (Hslices 0) as (sref & s0 & Hsref & Hs0); [lia|].
  destruct (Hslice0 _ _ _ Hproj Hsref Hs0) as [Hsize0 Hlen0].
  assert (spec_nda self groups transforms_sitk interpolator w 0
          = Some (pixels2 (sitk2 s0))) as Hnda0.
  { unfold spec_nda. rewrite Hproj. cbn [mbind option_bind].
    rewrite Hsref. cbn [mbind option_bind]. by rewrite Hs0. }
  destruct (residual_loop_spec self groups transforms_sitk interpolator w
              n nx ny Hes Hrows (n - 1) 0 [] (pixels2 (sitk2 s0)) w)
    as (blocks & w' & Hblocks & Hloop & Hall);
    [lia|done|apply same_state_refl|done|done|].
  exists (concat blocks), w'. split_and!.
  - unfold _get_residual_data_fit. rewrite HN.
    replace (pred_dim n) with (Some (n - 1))
      by (destruct n; [lia|cbn; f_equal; lia]).
    call_step. rewrite Hdof. call_step.
    rewrite Hgroups. call_step. rewrite Hproj. call_step.
    rewrite Hsref. call_step. rewrite Hs0. call_step.
    replace (GetArrayFromImage (sitk2 s0))
      with (mkNd ny nx (pixels2 (sitk2 s0)))
      by (unfold GetArrayFromImage; by rewrite Hsize0).
    cbn [app] in Hloop. rewrite Hloop. done.
  - unfold spec_residual. rewrite Hgroups. cbn [mbind option_bind].
    by rewrite Hblocks.
  - rewrite (length_concat_uniform (nx * ny)) by done.
    apply length_mapM in Hblocks. rewrite length_seq in Hblocks.
    by rewrite <- Hblocks.
Qed.

(** C6: two calls to the residual evaluator with the same parameter vector
    and the same slice state return the same residual vector.  If a call
    returns [r], then the next call with the same vector, made in the store
    the first call leaves behind, returns [r] as well, and so does a call in
    any store that holds the same projected slices and transform centers,
    whatever parameters its transform objects carry. *)
Theorem residual_evaluator_deterministic self parameters_vec transforms_sitk
    interpolator (w w1 : World R) (r : list R) :
  _get_residual_data_fit self parameters_vec transforms_sitk interpolator w
    = (w1, Some r) →
  (_get_residual_data_fit self parameters_vec transforms_sitk
     interpolator w1).2 = Some r ∧
  ∀ w2, same_state w w2 →
    (_get_residual_data_fit self parameters_vec transforms_sitk
       interpolator w2).2 = Some r.
Proof.
  intros H.
  assert (∀ w2, same_state w w2 →
    (_get_residual_data_fit self parameters_vec transforms_sitk
       interpolator w2).2 = Some r) as Hany.
  { intros w2 Hs.
    rewrite <- (_get_residual_data_fit_agree _ _ _ _ w w2 Hs). by rewrite H. }
  split; [|done].
  apply Hany. by apply _get_residual_data_fit_frame in H as [_ ?].
Qed.

(** C8, as amended: a call of the residual evaluator leaves the slices of
    the stack, the projected slices and the centers of the transform
    objects as they were, and its return value does not depend on the
    parameters the transform objects held before the call; but it writes
    to the transform objects: after the call the object of the last slice
    holds the parameters of the last group, and keeps them until the next
    call. *)
Theorem residual_evaluator_effects self parameters_vec transforms_sitk
    interpolator (w w' : World R) (r : list R) :
  2 ≤ _N_slices self →
  _get_residual_data_fit self parameters_vec transforms_sitk interpolator w
    = (w', Some r) →
  w_slices w' = w_slices w ∧
  w_slices2D w' = w_slices2D w ∧
  e2_center <$> w_transforms w' = e2_center <$> w_transforms w ∧
  (∀ w2, same_state w w2 →
     (_get_residual_data_fit self parameters_vec transforms_sitk
        interpolator w2).2 = Some r) ∧
  ∃ l t groups group,
    transforms_sitk !! (_N_slices self - 1) = Some l ∧
    w_transforms w !! l = Some t ∧
    (_degrees_of_freedom self ≫= λ dof, reshape_rows dof parameters_vec)
      = Some groups ∧
    groups !! (_N_slices self - 2) = Some group ∧
    w_transforms w' !! l = SetParameters t group.
Proof.
  intros HN H.
  pose proof (_get_residual_data_fit_frame _ _ _ _ _ _ _ H) as (Hs & H2 & Hc).
  split_and!; [done..| |].
  - intros w2 Hs2.
    rewrite <- (_get_residual_data_fit_agree _ _ _ _ w w2 Hs2). by rewrite H.
  - apply _get_residual_data_fit_returns in H
      as (n1 & dof & groups & projected & sref & s0 & residual' & EN & Hdof
          & Eg & _ & _ & _ & Eloop & _).
    destruct n1 as [|m]; [lia|].
    eapply (residual_loop_last _ _ _ _ _ _ _ _ _ _ m) in Eloop as
      (l & t & row & Hl & Ht & Hrow & Hw').
    + exists l, t, groups, row. rewrite EN, Hdof.
      replace (S (S m) - 2) with m by lia.
      replace (S (S m) - 1) with (m + 1) by lia.
      split_and!; done.
    + rewrite seq_S, last_snoc. done.
Qed.

(** ** Transform expansion *)

(** Line 277 hands three values to [SetFixedParameters], which wants
    four: the method raises for every 2D transform. *)
Lemma _get_3D_from_2D_rigid_transform_sitk_raises (t : Euler2D R) :
  _get_3D_from_2D_rigid_transform_sitk t = None.
Proof. by destruct t as [angle [tx ty] [cx cy]]. Qed.

(** C4: the method meant to expand a 2D rigid transform to 3D raises for
    every 2D transform, at the call [SetFixedParameters(center_3D)] with
    three values; rotation and translation are set by then as the
    specification says, and with a fourth fixed parameter, the flag of the rotation
    order, the call would return the 3D transform of the specification,
    whose projection back onto the plane is the 2D transform. *)
Theorem expand_2d_rigid_to_3d_raises (t : Euler2D R) :
  _get_3D_from_2D_rigid_transform_sitk t = None ∧
  (let e :=
     SetTranslation (SetRotation Euler3DTransform r_zero r_zero (e2_angle t))
       ((e2_translation t).1, (e2_translation t).2, r_zero) in
   SetFixedParameters e [(e2_center t).1; (e2_center t).2; r_zero] = None ∧
   ∀ flag,
     SetFixedParameters e [(e2_center t).1; (e2_center t).2; r_zero; flag]
     = Some {| e3_rotation := (r_zero, r_zero, e2_angle t);
               e3_translation :=
                 ((e2_translation t).1, (e2_translation t).2, r_zero);
               e3_center := ((e2_center t).1, (e2_center t).2, r_zero);
               e3_compute_zyx := flag |}) ∧
  project_to_plane (expand_2d_rigid_to_3d t) = t.
Proof. by destruct t as [angle [tx ty] [cx cy]]. Qed.

(** ** Slices in the store *)

Lemma keeps_slices_refl n0 (w : World R) : keeps_slices n0 w w.
Proof. by intros ?. Qed.

Lemma keeps_slices_trans n0 (w1 w2 w3 : World R) :
  keeps_slices n0 w1 w2 → keeps_slices n0 w2 w3 → keeps_slices n0 w1 w3.
Proof.
  intros H12 H23 H1. destruct (H12 H1) as [H2 E12].
  destruct (H23 H2) as [H3 E23]. split; [done|congruence].
Qed.

Lemma keeps_slices_lookup n0 (w w' : World R) l s :
  keeps_slices n0 w w' → n0 ≤ length (w_slices w) → l < n0 →
  w_slices w !! l = Some s → w_slices w' !! l = Some s.
Proof.
  intros Hk Hn Hl Hs. destruct (Hk Hn) as [_ Ht].
  rewrite <- (lookup_take_lt _ n0) by done.
  rewrite Ht, lookup_take_lt by done. done.
Qed.

(** A store with objects added at the end keeps the ones it had. *)
Lemma keeps_slices_app n0 (w : World R) added :
  keeps_slices n0 w (set_w_slices w (w_slices w ++ added)).
Proof.
  intros Hn. cbn. rewrite length_app, take_app_le by lia. split; [lia|done].
Qed.

(** A change of an object beyond the first [n0] keeps the first [n0]. *)
Lemma keeps_slices_insert n0 (w : World R) l s :
  n0 ≤ l → keeps_slices n0 w (set_w_slices w (<[l := s]> (w_slices w))).
Proof.
  intros Hl Hn. cbn. rewrite length_insert, take_insert_ge by lia. done.
Qed.

(** The store operations in closed form. *)
Lemma modify_slice_unfold l f (w : World R) :
  modify_slice l f w
  = match w_slices w !! l with
    | Some s => (set_w_slices w (<[l := f s]> (w_slices w)), Some tt)
    | None => (w, None)
    end.
Proof. unfold modify_slice. call_step. by destruct (w_slices w !! l). Qed.

Lemma from_slice_unfold l (w : World R) :
  from_slice l w
  = match w_slices w !! l with
    | Some s => (set_w_slices w (w_slices w ++ [s]),
                 Some (length (w_slices w)))
    | None => (w, None)
    end.
Proof. unfold from_slice. call_step. by destruct (w_slices w !! l). Qed.

Lemma from_sitk_image_unfold img filename number (w : World R) :
  from_sitk_image img filename number w
  = (set_w_slices2D w
       (w_slices2D w ++ [{| sitk2 := img; sitk_mask2 := default_mask img;
                            slice_filename2 := filename;
                            slice_number2 := number |}]),
     Some (length (w_slices2D w))).
Proof. reflexivity. Qed.

Lemma new_transforms_sitk_unfold n (w : World R) :
  new_transforms_sitk n w
  = (set_w_transforms w (w_transforms w ++ [Euler2DTransform]),
     Some (replicate n (length (w_transforms w)))).
Proof. reflexivity. Qed.

Lemma modify_slice_last f (w : World R) h s :
  modify_slice (length h) f (set_w_slices w (h ++ [s]))
  = (set_w_slices w (h ++ [f s]), Some tt).
Proof.
  rewrite modify_slice_unfold. cbn.
  rewrite list_lookup_middle by done. unfold set_w_slices. cbn.
  do 3 f_equal. rewrite insert_app_r_alt, Nat.sub_diag by lia. done.
Qed.

Lemma from_slice_returns l (w : World R) l' w' :
  from_slice l w = (w', Some l') →
  ∃ s, w_slices w !! l = Some s ∧ l' = length (w_slices w) ∧
       w' = set_w_slices w (w_slices w ++ [s]).
Proof.
  rewrite from_slice_unfold. intros H.
  destruct (w_slices w !! l) as [s|]; [|done]. simplify_eq. by exists s.
Qed.

(** Whatever the outcome, a copy of a slice adds at most one object to
    the slices and touches nothing else. *)
Lemma from_slice_keeps l (w : World R) :
  (∃ added, w_slices (from_slice l w).1 = w_slices w ++ added) ∧
  w_slices2D (from_slice l w).1 = w_slices2D w ∧
  w_transforms (from_slice l w).1 = w_transforms w.
Proof.
  rewrite from_slice_unfold. destruct (w_slices w !! l) as [s|]; cbn.
  - split; [by exists [s]|done].
  - split; [exists []; by rewrite app_nil_r|done].
Qed.

(** A copy of a list of slices: new objects at the end of the store, in
    order, each with the content of its original. *)
Lemma copy_slices_spec ls (w : World R) ls' w' :
  copy_slices ls w = (w', Some ls') →
  Forall (λ l, l < length (w_slices w)) ls →
  ∃ copies,
    Forall2 (λ l s, w_slices w !! l = Some s) ls copies ∧
    w_slices w' = w_slices w ++ copies ∧
    ls' = seq (length (w_slices w)) (length ls) ∧
    w_slices2D w' = w_slices2D w ∧ w_transforms w' = w_transforms w.
Proof.
  revert w ls' w'. induction ls as [|l ls IH]; intros w ls' w' H Hvalid.
  { cbn in H. call_step_in H. simplify_eq. exists []. by rewrite app_nil_r. }
  cbn [copy_slices] in H. call_step_in H.
  destruct (from_slice l w) as [w1 [l1|]] eqn:Hcopy; [|done].
  destruct (copy_slices ls w1) as [w2 [rest'|]] eqn:Hrest; [|done].
  simplify_eq.
  apply from_slice_returns in Hcopy as (s & Hs & -> & ->).
  apply Forall_cons in Hvalid as [Hl Hvalid].
  apply IH in Hrest as (copies & Hcopies & Hslices & -> & H2D & Htr).
  2:{ cbn. rewrite length_app. eapply Forall_impl; [done|]. cbn. lia. }
  cbn in *. exists (s :: copies). split_and!; try done.
  - constructor; [done|]. clear -Hcopies Hvalid.
    induction Hcopies as [|l' s' ls copies Hl' _ IH']; [done|].
    apply Forall_cons in Hvalid as [? ?].
    constructor; [|by apply IH'].
    by rewrite lookup_app_l in Hl'.
  - by rewrite Hslices, <- app_assoc.
  - rewrite length_app. cbn. do 2 f_equal. lia.
Qed.

(** Copying never touches the objects that are already there, whether it
    returns or raises, valid references or not; the copies it has made by
    then are at the end of the store. *)
Lemma copy_slices_keeps ls (w : World R) :
  (∃ added, w_slices (copy_slices ls w).1 = w_slices w ++ added) ∧
  w_slices2D (copy_slices ls w).1 = w_slices2D w ∧
  w_transforms (copy_slices ls w).1 = w_transforms w.
Proof.
  revert w. induction ls as [|l ls IH]; intros w.
  { cbn. split; [exists []; by rewrite app_nil_r|done]. }
  cbn [copy_slices]. call_step.
  pose proof (from_slice_keeps l w) as ([a1 H1] & H1' & H1'').
  destruct (from_slice l w) as [w1 [l1|]]; cbn in H1, H1', H1'';
    [|split; [by exists a1|done]].
  pose proof (IH w1) as ([a2 H2] & H2' & H2'').
  destruct (copy_slices ls w1) as [w2 [rest'|]]; cbn in H2, H2', H2''; cbn.
  - split; [|split; congruence].
    exists (a1 ++ a2). by rewrite H2, H1, <- app_assoc.
  - split; [|split; congruence].
    exists (a1 ++ a2). by rewrite H2, H1, <- app_assoc.
Qed.

(** The locations of the copies. *)
Lemma copy_slices_locs ls (w : World R) ls' w' :
  copy_slices ls w = (w', Some ls') →
  ls' = seq (length (w_slices w)) (length ls).
Proof.
  revert w ls' w'. induction ls as [|l ls IH]; intros w ls' w' H.
  { cbn in H. call_step_in H. by simplify_eq. }
  cbn [copy_slices] in H. call_step_in H.
  destruct (from_slice l w) as [w1 [l1|]] eqn:Hcopy; [|done].
  destruct (copy_slices ls w1) as [w2 [rest'|]] eqn:Hrest; [|done].
  simplify_eq.
  apply from_slice_returns in Hcopy as (s & Hs & -> & ->).
  apply IH in Hrest as ->. cbn. rewrite length_app. cbn.
  do 2 f_equal. lia.
Qed.

Lemma from_stack_unfold (stack : Stack R) filename (w : World R) :
  from_stack stack filename w
  = match copy_slices (stack_slices stack) w with
    | (w', Some ls) =>
        (w', Some {| stack_sitk := stack_sitk stack;
                     stack_sitk_mask := stack_sitk_mask stack;
                     stack_slices := ls;
                     stack_filename :=
                       default (stack_filename stack) filename |})
    | (w', None) => (w', None)
    end.
Proof.
  unfold from_stack. call_step.
  by destruct (copy_slices (stack_slices stack) w) as [w' [ls|]].
Qed.

Lemma from_stack_spec (stack : Stack R) filename (w : World R) stack' w' :
  from_stack stack filename w = (w', Some stack') →
  stack_valid stack w →
  ∃ copies,
    Forall2 (λ l s, w_slices w !! l = Some s) (stack_slices stack) copies ∧
    w_slices w' = w_slices w ++ copies ∧
    stack_slices stack' =
      seq (length (w_slices w)) (length (stack_slices stack)) ∧
    stack_filename stack' = default (stack_filename stack) filename ∧
    stack_sitk stack' = stack_sitk stack ∧
    w_slices2D w' = w_slices2D w ∧ w_transforms w' = w_transforms w.
Proof.
  rewrite from_stack_unfold. intros H Hvalid.
  destruct (copy_slices _ _) as [w1 [ls|]] eqn:Hcopy; [|done].
  simplify_eq. cbn.
  destruct (copy_slices_spec _ _ _ _ Hcopy Hvalid)
    as (copies & ? & ? & ? & ? & ?).
  by exists copies.
Qed.

Lemma from_stack_locs (stack : Stack R) filename (w : World R) stack' w' :
  from_stack stack filename w = (w', Some stack') →
  stack_slices stack' = seq (length (w_slices w)) (length (stack_slices stack))
  ∧ stack_filename stack' = default (stack_filename stack) filename
  ∧ stack_sitk stack' = stack_sitk stack
  ∧ stack_sitk_mask stack' = stack_sitk_mask stack.
Proof.
  rewrite from_stack_unfold. intros H.
  destruct (copy_slices _ _) as [w1 [ls|]] eqn:Hcopy; [|done].
  simplify_eq. cbn. split; [|done]. by eapply copy_slices_locs.
Qed.

Lemma from_stack_keeps (stack : Stack R) filename (w : World R) :
  (∃ added, w_slices (from_stack stack filename w).1 = w_slices w ++ added) ∧
  w_slices2D (from_stack stack filename w).1 = w_slices2D w ∧
  w_transforms (from_stack stack filename w).1 = w_transforms w.
Proof.
  rewrite from_stack_unfold.
  pose proof (copy_slices_keeps (stack_slices stack) w) as H.
  by destruct (copy_slices _ _) as [w1 [ls|]].
Qed.

(** ** The correction composer *)

(** A turn of the loop raises in the expansion of line 112, before it has
    touched the store. *)
Lemma correction_loop_raises self PP slices i rest transform_2D_sitk regs
    (w : World R) :
  correction_loop self PP slices (i :: rest) transform_2D_sitk regs w
  = (w, None).
Proof.
  cbn [correction_loop]. call_step.
  destruct (item (_parameters self) i) as [row|]; [|done].
  destruct (SetParameters transform_2D_sitk row) as [t|]; [|done].
  by rewrite _get_3D_from_2D_rigid_transform_sitk_raises.
Qed.

(** The composer in closed form: the copy of line 101, and then a raise
    unless there is no slice to visit. *)
Lemma _apply_motion_correction_unfold self PP (w : World R) :
  _apply_motion_correction self PP w
  = match from_stack (_fixed self)
            (Some (stack_filename (_fixed self) +:+ "_registered")) w with
    | (w1, Some stack_corrected) =>
        match _N_slices self with
        | 0 => (w1, Some (stack_corrected, []))
        | S _ => (w1, None)
        end
    | (w1, None) => (w1, None)
    end.
Proof.
  unfold _apply_motion_correction. call_step.
  destruct (from_stack _ _ w) as [w1 [sc|]]; [|done].
  destruct (_N_slices self) as [|n]; [done|].
  cbn [seq]. by rewrite correction_loop_raises.
Qed.

Lemma _apply_motion_correction_keeps self PP (w : World R) :
  (∃ added,
     w_slices (_apply_motion_correction self PP w).1 = w_slices w ++ added) ∧
  w_slices2D (_apply_motion_correction self PP w).1 = w_slices2D w ∧
  w_transforms (_apply_motion_correction self PP w).1 = w_transforms w.
Proof.
  rewrite _apply_motion_correction_unfold.
  pose proof (from_stack_keeps (_fixed self)
                (Some (stack_filename (_fixed self) +:+ "_registered")) w)
    as H.
  destruct (from_stack _ _ w) as [w1 [sc|]]; [|done].
  by destruct (_N_slices self).
Qed.

(** C2: the correction composer does not get to apply the transform the
    specification gives for slice [i], the inverse of the 2D transform of
    row [i], expanded to 3D and composed on both sides with the alignment
    transform of the slice.  For every stack of at least one slice, every
    parameter matrix and all alignment transforms it raises: in the first
    turn of its loop, line 112 calls the expansion, which raises at line
    277.  By then it has made the copy of line 101 and changed no slice: no
    transform is composed, none is applied and none is returned. *)
Theorem correction_composer_raises self PP (w : World R) :
  1 ≤ _N_slices self →
  (_apply_motion_correction self PP w).2 = None ∧
  (∃ added,
     w_slices (_apply_motion_correction self PP w).1 = w_slices w ++ added) ∧
  ∀ slices transform_2D_sitk regs w1,
    correction_loop self PP slices (seq 0 (_N_slices self))
      transform_2D_sitk regs w1 = (w1, None).
Proof.
  intros HN. split_and!.
  - rewrite _apply_motion_correction_unfold.
    destruct (from_stack _ _ w) as [w1 [sc|]]; [|done].
    destruct (_N_slices self); [lia|done].
  - apply _apply_motion_correction_keeps.
  - intros slices t regs w1. destruct (_N_slices self) as [|n]; [lia|].
    cbn [seq]. apply correction_loop_raises.
Qed.

Lemma keeps_slices_of_app n0 (w w' : World R) added :
  w_slices w' = w_slices w ++ added → keeps_slices n0 w w'.
Proof.
  intros H Hn. rewrite H, length_app, take_app_le by lia. split; [lia|done].
Qed.

(** ** Slice projection *)

(** One round of the projection loop in closed form: the copy of the
    slice is realigned, its first plane extracted and weighted, and the
    result stored as a new projected slice; a step that raises leaves the
    store with what was done before it. *)
Lemma projection_loop_unfold self slices_3D PP i rest slices_2D
    (w : World R) :
  projection_loop self slices_3D PP (i :: rest) slices_2D w
  = match slices_3D !! i with
    | None => (w, None)
    | Some l =>
      match w_slices w !! l with
      | None => (w, None)
      | Some s =>
        match item PP i with
        | None => (set_w_slices w (w_slices w ++ [s]), None)
        | Some pp =>
          match extract_plane0 (sitk (realigned pp s)) with
          | None => (set_w_slices w (w_slices w ++ [realigned pp s]), None)
          | Some image =>
            match weighted (_use_fixed_mask self) (realigned pp s) image with
            | None => (set_w_slices w (w_slices w ++ [realigned pp s]), None)
            | Some image' =>
                projection_loop self slices_3D PP rest
                  (<[i := Some (length (w_slices2D w))]> slices_2D)
                  {| w_slices := w_slices w ++ [realigned pp s];
                     w_slices2D := w_slices2D w ++
                       [{| sitk2 := image'; sitk_mask2 := default_mask image';
                           slice_filename2 := slice_filename s;
                           slice_number2 := slice_number s |}];
                     w_transforms := w_transforms w |}
            end
          end
        end
      end
    end.
Proof.
  cbn [projection_loop]. call_step.
  destruct (slices_3D !! i) as [l|]; [|done].
  rewrite from_slice_unfold.
  destruct (w_slices w !! l) as [s|]; [|done].
  cbn [w_slices set_w_slices].
  rewrite (list_lookup_middle (w_slices w) [] s _ eq_refl).
  destruct (item PP i) as [pp|]; [|done].
  do 4 rewrite modify_slice_last.
  cbn [w_slices set_w_slices].
  rewrite list_lookup_middle by done.
  match goal with
  | |- context [extract_plane0 (sitk ?x)] =>
      change x with (realigned pp s)
  end.
  destruct (extract_plane0 (sitk (realigned pp s))) as [image|]; [|done].
  fold (weighted (_use_fixed_mask self) (realigned pp s) image).
  destruct (weighted _ _ image) as [image'|]; [|done].
  by rewrite from_sitk_image_unfold.
Qed.

Lemma projection_loop_step self slices_3D PP i rest slices_2D (w : World R)
    res w' :
  projection_loop self slices_3D PP (i :: rest) slices_2D w
    = (w', Some res) →
  ∃ l s pp image image',
    slices_3D !! i = Some l ∧
    w_slices w !! l = Some s ∧
    item PP i = Some pp ∧
    extract_plane0 (sitk (realigned pp s)) = Some image ∧
    weighted (_use_fixed_mask self) (realigned pp s) image = Some image' ∧
    projection_loop self slices_3D PP rest
      (<[i := Some (length (w_slices2D w))]> slices_2D)
      {| w_slices := w_slices w ++ [realigned pp s];
         w_slices2D := w_slices2D w ++
           [{| sitk2 := image'; sitk_mask2 := default_mask image';
               slice_filename2 := slice_filename s;
               slice_number2 := slice_number s |}];
         w_transforms := w_transforms w |}
    = (w', Some res).
Proof.
  rewrite projection_loop_unfold. intros H.
  destruct (slices_3D !! i) as [l|] eqn:Hl; [|done].
  destruct (w_slices w !! l) as [s|] eqn:Hs; [|done].
  destruct (item PP i) as [pp|] eqn:Hpp; [|done].
  destruct (extract_plane0 (sitk (realigned pp s))) as [image|] eqn:Himage;
    [|done].
  destruct (weighted _ _ image) as [image'|] eqn:Hweighted; [|done].
  by exists l, s, pp, image, image'.
Qed.

(** Whether it returns or raises, the loop only adds objects at the end
    of the slices and of the 2D slices, and leaves the transforms. *)
Lemma projection_loop_keeps self slices_3D PP indices slices_2D
    (w : World R) :
  (∃ added,
     w_slices (projection_loop self slices_3D PP indices slices_2D w).1
     = w_slices w ++ added) ∧
  (∃ added,
     w_slices2D (projection_loop self slices_3D PP indices slices_2D w).1
     = w_slices2D w ++ added) ∧
  w_transforms (projection_loop self slices_3D PP indices slices_2D w).1
  = w_transforms w.
Proof.
  revert slices_2D w. induction indices as [|i rest IH]; intros slices_2D w.
  { cbn. split_and!; [exists []|exists []|done]; by rewrite app_nil_r. }
  rewrite projection_loop_unfold.
  assert (∀ s, (∃ added, w_slices w ++ [s] = w_slices w ++ added) ∧
               (∃ added, w_slices2D w = w_slices2D w ++ added) ∧
               w_transforms w = w_transforms w) as Hone.
  { intros s. split_and!; [by exists [s]| |done].
    exists []. by rewrite app_nil_r. }
  assert ((∃ added, w_slices w = w_slices w ++ added) ∧
          (∃ added, w_slices2D w = w_slices2D w ++ added) ∧
          w_transforms w = w_transforms w) as Hnone.
  { split_and!; [exists []|exists []|done]; by rewrite app_nil_r. }
  destruct (slices_3D !! i) as [l|]; [|exact Hnone].
  destruct (w_slices w !! l) as [s|]; [|exact Hnone].
  destruct (item PP i) as [pp|]; [|apply Hone].
  destruct (extract_plane0 (sitk (realigned pp s))) as [image|];
    [|apply Hone].
  destruct (weighted _ _ image) as [image'|]; [|apply Hone].
  match goal with
  | |- context [projection_loop _ _ _ rest ?sl ?w1] =>
      destruct (IH sl w1) as ((a1 & H1) & (a2 & H2) & H3)
  end.
  cbn in H1, H2, H3. split_and!.
  - eexists. by rewrite H1, <- app_assoc.
  - eexists. by rewrite H2, <- app_assoc.
  - done.
Qed.

(** What the loop stores for the slices [k] to [k + m - 1] of a stack whose
    slices are objects of the world [w0] the method started in. *)
Lemma projection_loop_spec self slices_3D PP (w0 : World R) :
  Forall (λ l, l < length (w_slices w0)) slices_3D →
  ∀ m k slices_2D (w : World R) res w',
    keeps_slices (length (w_slices w0)) w0 w →
    k + m ≤ length slices_2D →
    projection_loop self slices_3D PP (seq k m) slices_2D w
      = (w', Some res) →
    (∃ tail, w_slices2D w' = w_slices2D w ++ tail) ∧
    length res = length slices_2D ∧
    (∀ j, j < k ∨ k + m ≤ j → res !! j = slices_2D !! j) ∧
    (∀ i, k ≤ i < k + m → ∃ l s pp image sref s2,
       slices_3D !! i = Some l ∧ w_slices w0 !! l = Some s ∧
       item PP i = Some pp ∧
       extract_plane0 (sitk (realigned pp s)) = Some image ∧
       weighted (_use_fixed_mask self) (realigned pp s) image
         = Some (sitk2 s2) ∧
       slice_filename2 s2 = slice_filename s ∧
       slice_number2 s2 = slice_number s ∧
       sitk_mask2 s2 = default_mask (sitk2 s2) ∧
       res !! i = Some (Some sref) ∧ w_slices2D w' !! sref = Some s2 ∧
       sref = length (w_slices2D w) + (i - k)).
Proof.
  intros Hvalid. induction m as [|m IH];
    intros k slices_2D w res w' Hkeeps Hlen H.
  { cbn in H. call_step_in H. simplify_eq. split_and!; try done.
    - exists []. by rewrite app_nil_r.
    - intros i Hi. lia. }
  cbn [seq] in H.
  apply projection_loop_step in H
    as (l & s & pp & image & image' & Hl & Hs & Hpp & Himage & Hweighted & H).
  apply IH in H as ((tail & Htail) & Hlen' & Hout & Hin).
  2:{ eapply keeps_slices_trans; [done|]. intros Hn. cbn.
      rewrite length_app, take_app_le by lia. split; [lia|done]. }
  2:{ rewrite length_insert. lia. }
  cbn in Htail. rewrite length_insert in Hlen'.
  assert (w_slices w0 !! l = Some s) as Hs0.
  { rewrite Forall_lookup in Hvalid. pose proof (Hvalid _ _ Hl) as Hlt.
    destruct (Hkeeps ltac:(lia)) as [Hn Htake].
    rewrite <- (lookup_take_lt _ (length (w_slices w0))) by done.
    rewrite <- Htake, lookup_take_lt by done. done. }
  split_and!; try done.
  - eexists. by rewrite Htail, <- app_assoc.
  - intros j Hj. rewrite Hout by lia. apply list_lookup_insert_ne. lia.
  - intros i Hi. destruct (decide (i = k)) as [->|Hne].
    + exists l, s, pp, image, (length (w_slices2D w)),
        {| sitk2 := image'; sitk_mask2 := default_mask image';
           slice_filename2 := slice_filename s;
           slice_number2 := slice_number s |}.
      split_and!; try done.
      * rewrite Hout by lia. apply list_lookup_insert_eq. lia.
      * rewrite Htail, <- app_assoc. by apply list_lookup_middle.
      * lia.
    + destruct (Hin i) as (l1 & s1 & pp1 & image1 & sref & s2 & ? & ? & ?
                           & ? & ? & ? & ? & ? & ? & ? & Hsref); [lia|].
      exists l1, s1, pp1, image1, sref, s2. split_and!; try done.
      cbn in Hsref. rewrite length_app in Hsref. cbn in Hsref. lia.
Qed.

(** The moving-role mask flag is never consulted. *)
Lemma projection_loop_moving_mask self b slices_3D PP indices slices_2D
    (w : World R) :
  projection_loop (with_use_moving_mask self b) slices_3D PP indices
    slices_2D w
  = projection_loop self slices_3D PP indices slices_2D w.
Proof.
  revert slices_2D w. induction indices as [|i rest IH]; intros slices_2D w;
    [done|].
  rewrite !projection_loop_unfold.
  change (_use_fixed_mask (with_use_moving_mask self b))
    with (_use_fixed_mask self).
  destruct (slices_3D !! i) as [l|]; [|done].
  destruct (w_slices w !! l) as [s|]; [|done].
  destruct (item PP i) as [pp|]; [|done].
  destruct (extract_plane0 (sitk (realigned pp s))) as [image|]; [|done].
  destruct (weighted _ _ image) as [image'|]; [|done].
  apply IH.
Qed.

(** ** Image products *)

(** Row-major lookup in a grid built row by row. *)
Lemma grid_length {A} (g : nat → nat → A) nx ny :
  length (flat_map (λ y, map (λ x, g x y) (seq 0 nx)) (seq 0 ny)) = nx * ny.
Proof.
  generalize 0 at 2. induction ny as [|ny IH]; intros k; cbn; [lia|].
  rewrite length_app, length_map, length_seq, IH. lia.
Qed.

Lemma grid_lookup {A} (g : nat → nat → A) nx ny x y :
  x < nx → y < ny →
  flat_map (λ y, map (λ x, g x y) (seq 0 nx)) (seq 0 ny) !! (y * nx + x)
  = Some (g x y).
Proof.
  intros Hx. assert (∀ k,
    y < ny →
    flat_map (λ y, map (λ x, g x y) (seq 0 nx)) (seq k ny) !! (y * nx + x)
    = Some (g x (k + y))) as Hgen.
  { revert y. induction ny as [|ny IH]; intros y k Hy; [lia|].
    cbn [seq flat_map]. destruct y as [|y].
    - rewrite lookup_app_l by (rewrite length_map, length_seq; lia).
      rewrite list_lookup_fmap, lookup_seq_lt by done. cbn.
      by rewrite Nat.add_0_r.
    - rewrite lookup_app_r by (rewrite length_map, length_seq; lia).
      rewrite length_map, length_seq.
      replace (S y * nx + x - nx) with (y * nx + x) by lia.
      rewrite IH by lia. do 2 f_equal. lia. }
  intros Hy. by rewrite Hgen.
Qed.

(** When the product of two images exists and what it is. *)
Lemma image_mul_returns (a b image : Image2D R) :
  image_mul a b = Some image →
  pixel_id2 a = pixel_id2 b ∧
  same_physical_space (geometry2 a) (geometry2 b) = true ∧
  (size2 a).1 ≤ (size2 b).1 ∧ (size2 a).2 ≤ (size2 b).2 ∧
  size2 image = size2 a ∧ geometry2 image = geometry2 a ∧
  pixel_id2 image = pixel_id2 a ∧
  length (pixels2 image) = (size2 a).1 * (size2 a).2 ∧
  ∀ x y, x < (size2 a).1 → y < (size2 a).2 →
    pixels2 image !! (y * (size2 a).1 + x)
    = Some (r_mul (pixel_at a x y) (pixel_at b x y)).
Proof.
  unfold image_mul.
  destruct (size2 a) as [nx ny] eqn:Ha, (size2 b) as [mx my] eqn:Hb.
  case_decide as Hid; [|done].
  destruct (same_physical_space _ _) eqn:Hspace; [|done].
  case_decide as Hsize; [|done]. intros [= <-]. cbn.
  split_and!; try done; try lia.
  - apply (grid_length (λ x y, r_mul (pixel_at a x y) (pixel_at b x y))).
  - intros x y Hx Hy.
    by apply (grid_lookup (λ x y, r_mul (pixel_at a x y) (pixel_at b x y))).
Qed.

Lemma image_mul_raises (a b : Image2D R) :
  pixel_id2 a ≠ pixel_id2 b ∨
  same_physical_space (geometry2 a) (geometry2 b) = false ∨
  (size2 b).1 < (size2 a).1 ∨ (size2 b).2 < (size2 a).2 →
  image_mul a b = None.
Proof.
  unfold image_mul.
  destruct (size2 a) as [nx ny], (size2 b) as [mx my]. cbn.
  intros H. case_decide; [|done].
  destruct (same_physical_space _ _); [|done].
  case_decide; [|done]. destruct H as [?|[?|?]]; [done|done|lia].
Qed.

(** For two images of one size whose pixel lists are complete the
    product is the pixel lists multiplied entry by entry. *)
Lemma image_mul_same_size (a b image : Image2D R) :
  image_mul a b = Some image →
  size2 b = size2 a →
  length (pixels2 a) = (size2 a).1 * (size2 a).2 →
  length (pixels2 b) = (size2 a).1 * (size2 a).2 →
  pixels2 image = zip_with r_mul (pixels2 a) (pixels2 b).
Proof.
  intros H Hsize Hla Hlb.
  apply image_mul_returns in H as (_ & _ & _ & _ & _ & _ & _ & Hlen & Hpix).
  destruct (size2 a) as [nx ny] eqn:Ha. cbn in *.
  apply list_eq_same_length with (nx * ny);
    [rewrite length_zip_with; lia|done|].
  intros k p q Hk Hp Hq.
  assert (0 < nx) as Hnx by (destruct nx; [lia|lia]).
  pose proof (Nat.Div0.div_mod k nx) as Hdm.
  pose proof (Nat.mod_upper_bound k nx ltac:(lia)) as Hmod.
  assert (k / nx < ny) as Hdiv.
  { apply Nat.Div0.div_lt_upper_bound. lia. }
  replace k with (k / nx * nx + k mod nx) in Hp, Hq by lia.
  rewrite Hpix in Hp by done. simplify_eq.
  apply lookup_zip_with_Some in Hq as (pa & pb & -> & Hpa & Hpb).
  unfold pixel_at. rewrite Ha, Hsize. cbn.
  by rewrite Hpa, Hpb.
Qed.

(** C7: in slice projection the extracted 2D image of slice [i] is stored
    as it is when mask-weighting of the fixed role is disabled.  When it is
    enabled the image is multiplied with the extracted 2D mask, cast to the
    pixel type of the image first: the product exists when mask and image
    occupy the same physical space and the mask region contains the image
    region (otherwise the projection raises); it lives on the grid of the
    image and its pixel at index (x, y) is the pixel of the image at (x, y)
    times the pixel of the cast mask at (x, y); for a mask of the size of
    the image, both with complete pixel lists, that is the two pixel lists
    multiplied entry by entry.  The flag of the moving role plays no part:
    with either value of it the method has the same outcome. *)
Theorem mask_weighting_fixed_only self stack PP (w : World R) slices_2D w' i :
  stack_valid stack w →
  _get_2D_projected_and_masked_slices self stack PP w
    = (w', Some slices_2D) →
  i < _N_slices self →
  (∃ l s pp image sref s2,
     stack_slices stack !! i = Some l ∧ w_slices w !! l = Some s ∧
     item PP i = Some pp ∧
     extract_plane0 (sitk (realigned pp s)) = Some image ∧
     item slices_2D i = Some sref ∧ w_slices2D w' !! sref = Some s2 ∧
     (_use_fixed_mask self = false → sitk2 s2 = image) ∧
     (_use_fixed_mask self = true → ∃ mask,
        let cast := CastImageFilter (pixel_id2 image) mask in
        extract_plane0 (sitk_mask (realigned pp s)) = Some mask ∧
        pixel_id2 cast = pixel_id2 image ∧
        pixels2 cast = cast_pixel (pixel_id2 image) <$> pixels2 mask ∧
        same_physical_space (geometry2 image) (geometry2 mask) = true ∧
        (size2 image).1 ≤ (size2 mask).1 ∧
        (size2 image).2 ≤ (size2 mask).2 ∧
        size2 (sitk2 s2) = size2 image ∧
        geometry2 (sitk2 s2) = geometry2 image ∧
        pixel_id2 (sitk2 s2) = pixel_id2 image ∧
        length (pixels2 (sitk2 s2)) = (size2 image).1 * (size2 image).2 ∧
        (∀ x y, x < (size2 image).1 → y < (size2 image).2 →
           pixels2 (sitk2 s2) !! (y * (size2 image).1 + x)
           = Some (r_mul (pixel_at image x y) (pixel_at cast x y))) ∧
        (size2 mask = size2 image →
         length (pixels2 image) = (size2 image).1 * (size2 image).2 →
         length (pixels2 mask) = (size2 image).1 * (size2 image).2 →
         pixels2 (sitk2 s2)
         = zip_with r_mul (pixels2 image)
             (cast_pixel (pixel_id2 image) <$> pixels2 mask)))) ∧
  ∀ b, _get_2D_projected_and_masked_slices (with_use_moving_mask self b)
         stack PP w = (w', Some slices_2D).
Proof.
  intros Hvalid H Hi. split.
  - unfold _get_2D_projected_and_masked_slices in H.
    eapply projection_loop_spec in H as (_ & _ & _ & Hin);
      [|exact Hvalid|apply keeps_slices_refl|rewrite length_replicate; lia].
    destruct (Hin i) as (l & s & pp & image & sref & s2 & Hl & Hs & Hpp
                         & Himage & Hweighted & _ & _ & _ & Hres & Hs2 & _);
      [lia|].
    exists l, s, pp, image, sref, s2. split_and!; try done.
    + unfold item. by rewrite Hres.
    + intros Hoff. rewrite Hoff in Hweighted. unfold weighted in Hweighted.
      congruence.
    + intros Hon. rewrite Hon in Hweighted. unfold weighted in Hweighted.
      destruct (extract_plane0 (sitk_mask (realigned pp s))) as [mask|];
        cbn [mbind option_bind] in Hweighted; [|done].
      pose proof (image_mul_returns _ _ _ Hweighted)
        as (_ & Hspace & Hx & Hy & Hsize & Hgeo & Hid & Hlen & Hpix).
      exists mask. cbn zeta. split_and!; try done.
      intros Hsame Hla Hlb.
      apply image_mul_same_size in Hweighted; try done.
      cbn. by rewrite length_map.
  - intros b. unfold _get_2D_projected_and_masked_slices in *.
    by rewrite projection_loop_moving_mask.
Qed.

(** ** The whole run *)

(** The solve changes the world as the evaluator calls do, one after the
    other, whether it returns or raises. *)
Lemma run_solver_keeps (fun_ : list R → Call (S := World R) (list R))
    (P : World R → World R → Prop) :
  (∀ w, P w w) →
  (∀ w1 w2 w3, P w1 w2 → P w2 w3 → P w1 w3) →
  (∀ x w, P w (fun_ x w).1) →
  ∀ solver w, P w (run_solver fun_ solver w).1.
Proof.
  intros Hrefl Htrans Hfun. induction solver as [x| |x k IH]; intros w.
  - apply Hrefl.
  - apply Hrefl.
  - cbn [run_solver]. apply call_bind_keeps; [done|apply Hfun|].
    intros a s. apply IH.
Qed.

Lemma run_solver_frame (fun_ : list R → Call (S := World R) (list R))
    (P : World R → World R → Prop) :
  (∀ w, P w w) →
  (∀ w1 w2 w3, P w1 w2 → P w2 w3 → P w1 w3) →
  (∀ x w, P w (fun_ x w).1) →
  ∀ solver w x w', run_solver fun_ solver w = (w', Some x) → P w w'.
Proof.
  intros Hrefl Htrans Hfun solver w x w' H.
  pose proof (run_solver_keeps fun_ P Hrefl Htrans Hfun solver w) as Hk.
  by rewrite H in Hk.
Qed.

(** What the run does before the solve, in closed form. *)
Lemma solver_setup_unfold self (w : World R) :
  solver_setup (self, w)
  = match _get_list_of_3D_rigid_transforms_of_slices (_fixed self) w with
    | None => ((self, w), None)
    | Some PP =>
      match _get_2D_projected_and_masked_slices self (_fixed self) PP w with
      | (w1, None) => ((self, w1), None)
      | (w1, Some projected) =>
        let self1 :=
          set__degrees_of_freedom 3
            (set__2D_projected_slices projected self) in
        let w2 := set_w_transforms w1 (w_transforms w1 ++ [Euler2DTransform]) in
        match item projected 0 with
        | None => ((self1, w2), None)
        | Some sref =>
          match w_slices2D w1 !! sref with
          | None => ((self1, w2), None)
          | Some s0 =>
            let T_PI :=
              get_sitk_affine_transform_from_sitk_image_2D (sitk2 s0) in
            match pred_dim (_N_slices self) with
            | None =>
                ((set_solver_state self projected 3 T_PI (sitk2 s0), w2), None)
            | Some n1 =>
                ((set_solver_state self projected 3 T_PI (sitk2 s0), w2),
                 Some (PP,
                       replicate (_N_slices self) (length (w_transforms w1)),
                       replicate (n1 * 3) r_zero))
            end
          end
        end
      end
    end.
Proof.
  unfold solver_setup, projected_slice0_sitk, new_transforms_sitk. self_step.
  cbn [fst snd].
  destruct (_get_list_of_3D_rigid_transforms_of_slices _ w) as [PP|];
    [|reflexivity].
  destruct (_get_2D_projected_and_masked_slices _ _ _ w)
    as [w1 [projected|]]; [|reflexivity].
  cbn [fst snd _2D_projected_slices set__degrees_of_freedom
       set__2D_projected_slices].
  destruct (item projected 0) as [sref|] eqn:Hsref; [|reflexivity].
  cbn [w_slices2D set_w_transforms].
  destruct (w_slices2D w1 !! sref) as [s0|] eqn:Hs0; [|reflexivity].
  cbn [fst snd _2D_projected_slices set__degrees_of_freedom
       set__2D_projected_slices set__transform_PI_fixed_2D_sitk].
  rewrite Hsref. cbn [w_slices2D set_w_transforms]. rewrite Hs0.
  destruct (pred_dim (_N_slices self)) as [n1|]; reflexivity.
Qed.

Lemma solver_setup_returns self (w : World R) self1 w2 PP transforms_sitk
    parameters0 :
  solver_setup (self, w) = ((self1, w2), Some (PP, transforms_sitk, parameters0)) →
  ∃ projected w1 sref s0 n1,
    _get_list_of_3D_rigid_transforms_of_slices (_fixed self) w = Some PP ∧
    _get_2D_projected_and_masked_slices self (_fixed self) PP w
      = (w1, Some projected) ∧
    w2 = set_w_transforms w1 (w_transforms w1 ++ [Euler2DTransform]) ∧
    transforms_sitk = replicate (_N_slices self) (length (w_transforms w1)) ∧
    item projected 0 = Some sref ∧ w_slices2D w1 !! sref = Some s0 ∧
    self1 = set_solver_state self projected 3
              (get_sitk_affine_transform_from_sitk_image_2D (sitk2 s0))
              (sitk2 s0) ∧
    pred_dim (_N_slices self) = Some n1 ∧
    parameters0 = replicate (n1 * 3) r_zero.
Proof.
  rewrite solver_setup_unfold. intros H.
  destruct (_get_list_of_3D_rigid_transforms_of_slices _ w) as [PP'|];
    [|done].
  destruct (_get_2D_projected_and_masked_slices _ _ _ w)
    as [w1 [projected|]] eqn:Hproj; [|done].
  cbn zeta in H.
  destruct (item projected 0) as [sref|] eqn:Hsref; [|done].
  destruct (w_slices2D w1 !! sref) as [s0|] eqn:Hs0; [|done].
  destruct (pred_dim (_N_slices self)) as [n1|] eqn:Hn1; [|done].
  simplify_eq. by exists projected, w1, sref, s0, n1.
Qed.

Lemma pred_dim_Some n n1 : pred_dim n = Some n1 → n = S n1.
Proof. destruct n; [done|]. cbn. intros [= <-]. done. Qed.

Lemma _get_2D_projected_and_masked_slices_keeps self stack PP (w : World R) :
  (∃ added,
     w_slices (_get_2D_projected_and_masked_slices self stack PP w).1
     = w_slices w ++ added) ∧
  (∃ added,
     w_slices2D (_get_2D_projected_and_masked_slices self stack PP w).1
     = w_slices2D w ++ added) ∧
  w_transforms (_get_2D_projected_and_masked_slices self stack PP w).1
  = w_transforms w.
Proof. apply projection_loop_keeps. Qed.

(** Whatever its outcome, the setup sets the four attributes of the
    solver state at most, and only adds objects to the store. *)
Lemma solver_setup_keeps self (w : World R) :
  let out := solver_setup (self, w) in
  _fixed out.1.1 = _fixed self ∧
  _use_fixed_mask out.1.1 = _use_fixed_mask self ∧
  _use_moving_mask out.1.1 = _use_moving_mask self ∧
  _nda_shape out.1.1 = _nda_shape self ∧
  _N_slices out.1.1 = _N_slices self ∧
  _N_2D_voxels out.1.1 = _N_2D_voxels self ∧
  _N_residual out.1.1 = _N_residual self ∧
  _registration_transforms_sitk out.1.1 = _registration_transforms_sitk self ∧
  _parameters out.1.1 = _parameters self ∧
  _stack_corrected out.1.1 = _stack_corrected self ∧
  (∃ added, w_slices out.1.2 = w_slices w ++ added) ∧
  (∃ added, w_slices2D out.1.2 = w_slices2D w ++ added) ∧
  (∃ added, w_transforms out.1.2 = w_transforms w ++ added).
Proof.
  cbn zeta. rewrite solver_setup_unfold.
  assert (∀ {A} (l : list A), ∃ added, l = l ++ added) as Hnil
    by (intros A l; exists []; by rewrite app_nil_r).
  destruct (_get_list_of_3D_rigid_transforms_of_slices _ w) as [PP|];
    [|by split_and!].
  pose proof (_get_2D_projected_and_masked_slices_keeps self (_fixed self)
                PP w) as (H1 & H2 & H3).
  destruct (_get_2D_projected_and_masked_slices _ _ _ w)
    as [w1 [projected|]]; cbn [fst snd] in H1, H2, H3.
  2:{ cbn. split_and!; try done. rewrite H3. apply Hnil. }
  cbn zeta.
  assert (∃ added, w_transforms w1 ++ [Euler2DTransform]
                   = w_transforms w ++ added) as H3'
    by (exists [Euler2DTransform]; by rewrite H3).
  destruct (item projected 0) as [sref|]; [|by split_and!].
  destruct (w_slices2D w1 !! sref) as [s0|]; [|by split_and!].
  destruct (pred_dim (_N_slices self)) as [n1|]; by split_and!.
Qed.

(** The run in closed form. *)
Lemma run_unfold self (w : World R) :
  run_regularized_rigid_inplane_registration (self, w)
  = match solver_setup (self, w) with
    | (s1, None) => (s1, None)
    | ((self1, w1), Some (PP, transforms_sitk, parameters0)) =>
      match run_solver
              (λ x, _get_residual_data_fit self1 x transforms_sitk sitkLinear)
              (least_squares parameters0 dogbox linear) w1 with
      | (w2, None) => ((self1, w2), None)
      | (w2, Some res_x) =>
        match _degrees_of_freedom self1 with
        | None => ((self1, w2), None)
        | Some dof =>
          match reshape_rows dof res_x with
          | None => ((self1, w2), None)
          | Some parameters =>
            let self2 :=
              set_parameters self1
                (Some <$> (replicate dof r_zero :: parameters)) in
            match _apply_motion_correction self2 PP w2 with
            | (w3, None) => ((self2, w3), None)
            | (w3, Some (stack_corrected, registration_transforms_sitk)) =>
                ((set_result self2 stack_corrected
                    registration_transforms_sitk, w3), Some tt)
            end
          end
        end
      end
    end.
Proof.
  unfold run_regularized_rigid_inplane_registration. self_step.
  destruct (solver_setup (self, w)) as [[self1 w1] [[[PP ts] p0]|]];
    [|reflexivity].
  cbn [fst snd].
  destruct (run_solver _ _ w1) as [w2 [res_x|]]; [|reflexivity].
  destruct (_degrees_of_freedom self1) as [dof|]; [|reflexivity].
  destruct (reshape_rows dof res_x) as [parameters|]; [|reflexivity].
  cbn [fst snd].
  destruct (_apply_motion_correction _ PP w2) as [w3 [[sc regs]|]];
    reflexivity.
Qed.

(** The solve changes transform parameters only, whether it returns or
    raises. *)
Lemma solve_keeps self transforms_sitk interpolator solver (w : World R) :
  let w' :=
    (run_solver
       (λ x, _get_residual_data_fit self x transforms_sitk interpolator)
       solver w).1 in
  w_slices w' = w_slices w ∧ same_state w w'.
Proof.
  cbn zeta.
  apply (run_solver_keeps _
           (λ w w', w_slices w' = w_slices w ∧ same_state w w')).
  - intros w0. split; [done|apply same_state_refl].
  - exact evaluator_frame_trans.
  - intros x w0. apply _get_residual_data_fit_keeps.
Qed.

(** The run raises for every registration object and every store, and
    the attributes that hold its results are what they were before it: the
    corrected stack and the registration transforms are never assigned. *)
Lemma run_outcome self (w : World R) :
  let out := run_regularized_rigid_inplane_registration (self, w) in
  out.2 = None ∧
  _fixed out.1.1 = _fixed self ∧
  _N_slices out.1.1 = _N_slices self ∧
  _registration_transforms_sitk out.1.1 = _registration_transforms_sitk self ∧
  _stack_corrected out.1.1 = _stack_corrected self ∧
  (∃ added, w_slices out.1.2 = w_slices w ++ added).
Proof.
  cbn zeta. rewrite run_unfold.
  pose proof (solver_setup_keeps self w) as Hk. cbn zeta in Hk.
  destruct (solver_setup (self, w)) as [[self1 w1] [[[PP ts] p0]|]] eqn:Hsetup;
    cbn [fst snd] in Hk;
    destruct Hk as (Hf & _ & _ & _ & HN & _ & _ & Hreg & _ & Hsc & Hsl & _ & _);
    [|by split_and!].
  apply solver_setup_returns in Hsetup
    as (projected & w_p & sref & s0 & n1 & _ & _ & _ & _ & _ & _ & _ & Hn1 & _).
  apply pred_dim_Some in Hn1.
  pose proof (solve_keeps self1 ts sitkLinear (least_squares p0 dogbox linear)
                w1) as Hsolve. cbn zeta in Hsolve.
  destruct (run_solver _ _ w1) as [w2 [res_x|]]; cbn [fst snd] in Hsolve;
    destruct Hsolve as [Hsl2 _].
  2:{ cbn. split_and!; try done. by rewrite Hsl2. }
  destruct (_degrees_of_freedom self1) as [dof|].
  2:{ cbn. split_and!; try done. by rewrite Hsl2. }
  destruct (reshape_rows dof res_x) as [parameters|].
  2:{ cbn. split_and!; try done. by rewrite Hsl2. }
  cbn zeta.
  pose proof (_apply_motion_correction_keeps
                (set_parameters self1
                   (Some <$> (replicate dof r_zero :: parameters))) PP w2)
    as ([added Hsl3] & _ & _).
  rewrite _apply_motion_correction_unfold in *. cbn [_fixed set_parameters].
  cbn [_fixed set_parameters] in Hsl3.
  destruct (from_stack _ _ w2) as [w3 [sc|]]; cbn [fst snd] in Hsl3.
  2:{ cbn. split_and!; try done. destruct Hsl as [a Hsl].
      exists (a ++ added). by rewrite Hsl3, Hsl2, Hsl, <- app_assoc. }
  assert (_N_slices self1 = S n1) as HN1 by congruence.
  cbn [_N_slices set_parameters] in Hsl3 |- *.
  rewrite HN1 in Hsl3 |- *. cbn in Hsl3 |- *.
  split_and!; try done; try congruence. destruct Hsl as [a Hsl].
  exists (a ++ added). by rewrite Hsl3, Hsl2, Hsl, <- app_assoc.
Qed.

(** The parameter matrix the run has assigned by the time it raises, when
    the solve has returned: the rows of the solution under a zero row. *)
Lemma run_parameters self (w : World R) self1 w1 PP transforms_sitk
    parameters0 w2 res_x groups :
  solver_setup (self, w)
    = ((self1, w1), Some (PP, transforms_sitk, parameters0)) →
  run_solver (λ x, _get_residual_data_fit self1 x transforms_sitk sitkLinear)
    (least_squares parameters0 dogbox linear) w1 = (w2, Some res_x) →
  reshape_rows 3 res_x = Some groups →
  _parameters (run_regularized_rigid_inplane_registration (self, w)).1.1
  = Some <$> (replicate 3 r_zero :: groups).
Proof.
  intros Hsetup Hsolve Hgroups. rewrite run_unfold, Hsetup, Hsolve.
  apply solver_setup_returns in Hsetup
    as (projected & w_p & sref & s0 & n1 & _ & _ & _ & _ & _ & _ & -> & _ & _).
  cbn [_degrees_of_freedom set_solver_state set__fixed_grid_2D_sitk
       set__transform_PI_fixed_2D_sitk set__degrees_of_freedom].
  rewrite Hgroups. cbn zeta.
  by destruct (_apply_motion_correction _ PP w2) as [w3 [[sc regs]|]].
Qed.

Lemma extract_plane0_Some (img : Image3D R) image nx ny nz :
  extract_plane0 img = Some image → size3 img = (nx, ny, nz) →
  size2 image = (nx, ny) ∧ pixel_id2 image = pixel_id3 img ∧
  pixels2 image = take (nx * ny) (pixels3 img).
Proof.
  unfold extract_plane0. intros H Hsize. rewrite Hsize in H.
  case_decide; [done|].
  destruct (collapse_geometry img) as [[[? ?] ?]|];
    cbn [mbind option_bind] in H; [|done].
  by simplify_eq.
Qed.

(** The projected slice of a slice with a full plane of [nx] by [ny] pixels
    has that size, weighted or not. *)
Lemma weighted_size enabled pp (s : Slice R) image image' nx ny :
  plane_of_size nx ny s →
  extract_plane0 (sitk (realigned pp s)) = Some image →
  weighted enabled (realigned pp s) image = Some image' →
  size2 image' = (nx, ny) ∧ length (pixels2 image') = nx * ny.
Proof.
  intros (nz & nz' & Hsize & Hlen & Hmsize & Hmlen) Himage Hweighted.
  eapply extract_plane0_Some in Himage as (Hs & _ & Hp); [|exact Hsize].
  cbn in Hp.
  assert (length (pixels2 image) = nx * ny) as Hl
    by (rewrite Hp, length_take; lia).
  destruct enabled; unfold weighted in Hweighted; [|simplify_eq; by split].
  destruct (extract_plane0 (sitk_mask (realigned pp s))) as [mask|] eqn:Hmask;
    cbn [mbind option_bind] in Hweighted; [|done].
  apply image_mul_returns in Hweighted
    as (_ & _ & _ & _ & Hsize' & _ & _ & Hlen' & _).
  rewrite Hs in Hsize', Hlen'. done.
Qed.

(** What the method sets up before the solve is the state the residual
    evaluator is specified on, when slice 0 has a full plane of the size
    [__init__] counted the voxels of. *)
Lemma solver_setup_state self (w : World R) self1 PP transforms_sitk
    parameters0 w1 nx ny l0 s0 :
  solver_setup (self, w)
    = ((self1, w1), Some (PP, transforms_sitk, parameters0)) →
  stack_valid (_fixed self) w →
  _N_2D_voxels self = nx * ny →
  stack_slices (_fixed self) !! 0 = Some l0 →
  w_slices w !! l0 = Some s0 →
  plane_of_size nx ny s0 →
  evaluator_state self1 transforms_sitk w1 (_N_slices self) nx ny.
Proof.
  intros Hsetup Hvalid Hvox Hl0 Hs0 Hplane.
  apply solver_setup_returns in Hsetup
    as (projected & w_p & sref & p0 & n1 & _ & Hproj & -> & -> & Hsref & Hp0
        & -> & Hn1 & ->).
  assert (0 < _N_slices self) as HN
    by (destruct (_N_slices self); [done|lia]).
  unfold _get_2D_projected_and_masked_slices in Hproj.
  eapply projection_loop_spec in Hproj as (_ & _ & _ & Hin);
    [|exact Hvalid|apply keeps_slices_refl|rewrite length_replicate; lia].
  destruct (Hin 0) as (l & s & pp & image & sref0 & s2 & Hl & Hs & Hpp
                       & Himage & Hweighted & _ & _ & _ & Hres & Hs2 & _);
    [lia|].
  rewrite Hl0 in Hl. simplify_eq.
  assert (sref0 = sref ∧ s2 = p0) as [-> ->].
  { unfold item in Hsref. rewrite Hres in Hsref. cbn in Hsref.
    simplify_eq. split; [done|congruence]. }
  destruct (weighted_size _ _ _ _ _ nx ny Hplane Himage Hweighted)
    as [Hsize Hlen].
  split; cbn; try done.
  - exists projected. split; [done|]. intros i Hi.
    destruct (Hin i) as (? & ? & ? & ? & srefi & si & _ & _ & _ & _ & _
                         & _ & _ & _ & Hresi & Hsi & _); [lia|].
    exists srefi, si. split; [|done]. unfold item. by rewrite Hresi.
  - by exists (sitk2 p0).
  - intros projected' sref' s' [= <-] Hsref' Hs'.
    rewrite Hsref in Hsref'. simplify_eq. done.
  - intros i Hi. exists (length (w_transforms w_p)), Euler2DTransform.
    split; [by apply lookup_replicate|]. by apply list_lookup_middle.
Qed.

(** With one slice there is nothing to compare: the evaluator visits no
    slice, touches no transform and returns the empty vector. *)
Lemma single_slice_residual self transforms_sitk interpolator (w : World R)
    sref s0 projected :
  _N_slices self = 1 →
  _degrees_of_freedom self = Some 3 →
  _2D_projected_slices self = Some projected →
  item projected 0 = Some sref →
  w_slices2D w !! sref = Some s0 →
  _get_residual_data_fit self [] transforms_sitk interpolator w
  = (w, Some []).
Proof.
  intros HN Hdof Hproj Hsref Hs0. unfold _get_residual_data_fit.
  call_step. rewrite HN, Hdof, Hproj. cbn [pred_dim].
  unfold reshape_rows. cbn. rewrite Hsref. cbn. by rewrite Hs0.
Qed.


(** C3: the invariant of the correction composer is never established.
    The run raises for every stack, in the composer, so the registration
    transforms are what they were before the run: for an object fresh from
    [__init__], [None] for every slice, neither the identity nor any other
    transform.  What the specification says of the parameter matrix holds
    of the code: when the solve has returned, the matrix assigned at line 93 is
    the rows of the solution under a zero row, [N] rows for a solution of
    [3 * (N - 1)] entries. *)
Theorem composer_invariant_unreached self (w : World R) :
  let out := run_regularized_rigid_inplane_registration (self, w) in
  out.2 = None ∧
  _registration_transforms_sitk out.1.1 = _registration_transforms_sitk self ∧
  (∀ fixed use_fixed_mask use_moving_mask,
     __init__ fixed use_fixed_mask use_moving_mask = Some self →
     _registration_transforms_sitk out.1.1
     = replicate (_N_slices self) None) ∧
  ∀ self1 w1 PP transforms_sitk parameters0 w2 res_x,
    solver_setup (self, w)
      = ((self1, w1), Some (PP, transforms_sitk, parameters0)) →
    run_solver
      (λ x, _get_residual_data_fit self1 x transforms_sitk sitkLinear)
      (least_squares parameters0 dogbox linear) w1 = (w2, Some res_x) →
    length res_x = 3 * (_N_slices self - 1) →
    ∃ groups,
      reshape_rows 3 res_x = Some groups ∧
      _parameters out.1.1 = Some <$> (replicate 3 r_zero :: groups) ∧
      length (_parameters out.1.1) = _N_slices self.
Proof.
  cbn zeta.
  destruct (run_outcome self w) as (Hraise & _ & _ & Hreg & _ & _).
  split_and!; try done.
  - intros fixed m1 m2 Hinit. rewrite Hreg. unfold __init__ in Hinit.
    destruct (size3 (stack_sitk fixed)) as [[nx ny] nz].
    cbn in Hinit. by simplify_eq.
  - intros self1 w1 PP ts p0 w2 res_x Hsetup Hsolve Hlen.
    destruct (reshape_rows_groups res_x _ Hlen) as (groups & Hg & Hgl & _).
    exists groups. split; [done|].
    rewrite (run_parameters _ _ _ _ _ _ _ _ _ _ Hsetup Hsolve Hg).
    split; [done|]. rewrite length_fmap. cbn. rewrite Hgl.
    apply solver_setup_returns in Hsetup
      as (? & ? & ? & ? & n1 & _ & _ & _ & _ & _ & _ & _ & Hn1 & _).
    apply pred_dim_Some in Hn1. lia.
Qed.

(** C5: a run on a stack of one slice raises.  What the specification
    says of the residual holds of the code: with one slice the evaluator returns
    the empty vector for the empty parameter vector, changes nothing, and
    the initial guess of the solve is the empty vector.  But the run goes
    on to the correction composer, which raises in its first turn: no
    transform is applied to the slice, and no corrected stack is assigned,
    equal to the input stack or not. *)
Theorem single_slice_registration_raises self (w : World R) :
  _N_slices self = 1 →
  let out := run_regularized_rigid_inplane_registration (self, w) in
  out.2 = None ∧
  _stack_corrected out.1.1 = _stack_corrected self ∧
  _registration_transforms_sitk out.1.1 = _registration_transforms_sitk self ∧
  (∀ PP w1, (_apply_motion_correction self PP w1).2 = None) ∧
  ∀ self1 w1 PP transforms_sitk parameters0,
    solver_setup (self, w)
      = ((self1, w1), Some (PP, transforms_sitk, parameters0)) →
    parameters0 = [] ∧
    ∀ interpolator,
      _get_residual_data_fit self1 [] transforms_sitk interpolator w1
      = (w1, Some []).
Proof.
  intros HN. cbn zeta.
  destruct (run_outcome self w) as (Hraise & _ & _ & Hreg & Hsc & _).
  split_and!; try done.
  - intros PP w1. rewrite _apply_motion_correction_unfold.
    destruct (from_stack _ _ w1) as [w2 [sc|]]; [|done]. by rewrite HN.
  - intros self1 w1 PP ts p0 Hsetup.
    apply solver_setup_returns in Hsetup
      as (projected & w_p & sref & s0 & n1 & _ & _ & -> & _ & Hsref & Hs0
          & -> & Hn1 & ->).
    rewrite HN in Hn1. cbn in Hn1. simplify_eq. split; [done|].
    intros interpolator.
    eapply single_slice_residual; [done|done|done|exact Hsref|exact Hs0].
Qed.

(** C10: no corrected stack is produced.  However the run ends, the
    attribute that holds the corrected stack is what it was before the
    run, so on an object that had none the getter of the registered stack
    raises after the run; the filename of the input stack is unchanged.
    The composer does what is expected of it up to its loop: the copy of
    line 101 carries the filename of the input stack with "_registered"
    appended; the composer returns it only for a stack without slices, and
    raises for every other stack. *)
Theorem corrected_stack_never_produced self (w : World R) :
  let out := run_regularized_rigid_inplane_registration (self, w) in
  out.2 = None ∧
  _stack_corrected out.1.1 = _stack_corrected self ∧
  (_stack_corrected self = None →
   (get_registered_stack out.1.1 out.1.2).2 = None) ∧
  stack_filename (_fixed out.1.1) = stack_filename (_fixed self) ∧
  (∀ w1 w2 stack_corrected,
     from_stack (_fixed self)
       (Some (stack_filename (_fixed self) +:+ "_registered")) w1
       = (w2, Some stack_corrected) →
     stack_filename stack_corrected
     = stack_filename (_fixed self) +:+ "_registered") ∧
  ∀ PP w1 w2 stack_corrected registration_transforms_sitk,
    _apply_motion_correction self PP w1
      = (w2, Some (stack_corrected, registration_transforms_sitk)) →
    _N_slices self = 0 ∧ registration_transforms_sitk = [] ∧
    stack_filename stack_corrected
    = stack_filename (_fixed self) +:+ "_registered".
Proof.
  cbn zeta.
  destruct (run_outcome self w) as (Hraise & Hf & _ & _ & Hsc & _).
  split_and!; try done.
  - intros Hnone. unfold get_registered_stack. call_step.
    by rewrite Hsc, Hnone.
  - by rewrite Hf.
  - intros w1 w2 sc Hcopy. by apply from_stack_locs in Hcopy as (_ & -> & _).
  - intros PP w1 w2 sc regs H.
    rewrite _apply_motion_correction_unfold in H.
    destruct (from_stack _ _ w1) as [w3 [sc'|]] eqn:Hcopy; [|done].
    destruct (_N_slices self); [|done]. simplify_eq.
    by apply from_stack_locs in Hcopy as (_ & -> & _).
Qed.

End Properties.

(** * Further properties of the code *)

Section FurtherProperties.
Context {R : Type} {TK : Toolkit R}.

(** ** The shape of the residual vector *)

Lemma assign_row_shape (residual residual' : list (list R)) i cols v :
  assign_row residual i cols v = Some residual' →
  length residual' = length residual ∧
  (Forall (λ row, length row = cols) residual →
   Forall (λ row, length row = cols) residual').
Proof.
  unfold assign_row. intros H.
  destruct (residual !! i) as [old|]; [cbn [mbind option_bind] in H|done].
  case_decide as Hlen.
  - simplify_eq. rewrite length_insert. split; [done|]. intros Hall.
    by apply Forall_insert.
  - destruct v as [|x [|? ?]]; try done. simplify_eq.
    rewrite length_insert. split; [done|]. intros Hall.
    apply Forall_insert; [done|]. by rewrite length_replicate.
Qed.

Lemma residual_loop_shape self parameters transforms_sitk interpolator
    indices slice_i_nda residual (w : World R) residual' w' :
  residual_loop self parameters transforms_sitk interpolator indices
    slice_i_nda residual w = (w', Some residual') →
  length residual' = length residual ∧
  (Forall (λ row, length row = _N_2D_voxels self) residual →
   Forall (λ row, length row = _N_2D_voxels self) residual').
Proof.
  revert slice_i_nda residual w.
  induction indices as [|i rest IH]; intros nda residual w H.
  { cbn in H. call_step_in H. by simplify_eq. }
  apply residual_loop_step in H
    as (l & row & w1 & projected & sref & s & grid & t & diff & residual1
        & _ & _ & _ & _ & _ & _ & _ & _ & _ & Hrow & H).
  apply IH in H as [Hlen Hall].
  apply assign_row_shape in Hrow as [Hlen1 Hall1].
  split; [congruence|auto].
Qed.

(** X1: whenever the residual evaluator returns, the vector has
    [(N_slices - 1) * N_2D_voxels] entries, the number [__init__] stored
    as [_N_residual], whatever the sizes of the slices are. *)
Theorem residual_length self parameters_vec transforms_sitk interpolator
    (w : World R) r w' :
  _get_residual_data_fit self parameters_vec transforms_sitk interpolator w
    = (w', Some r) →
  length r = (_N_slices self - 1) * _N_2D_voxels self ∧
  (_N_residual self
   = ((Z.of_nat (_N_slices self) - 1) * Z.of_nat (_N_2D_voxels self))%Z →
   Z.of_nat (length r) = _N_residual self).
Proof.
  intros H.
  apply _get_residual_data_fit_returns in H
    as (n1 & dof & parameters & projected & sref & s0 & residual' & HN & _
        & _ & _ & _ & _ & Hloop & ->).
  apply residual_loop_shape in Hloop as [Hlen Hall].
  rewrite length_replicate in Hlen.
  assert (length (concat residual') = (_N_slices self - 1) * _N_2D_voxels self)
    as Hr.
  { rewrite (length_concat_uniform (_N_2D_voxels self)).
    - rewrite Hlen, HN. f_equal. lia.
    - apply Hall. apply Forall_replicate. by rewrite length_replicate. }
  split; [done|]. intros ->. rewrite Hr, HN. lia.
Qed.

(** ** Parameter vectors of the wrong length *)

Lemma length_chunk d n (v : list R) : length (chunk d n v) = n.
Proof. revert v. induction n; intros v; cbn; auto. Qed.

Lemma residual_loop_rows self parameters transforms_sitk interpolator
    indices slice_i_nda residual (w : World R) residual' w' :
  residual_loop self parameters transforms_sitk interpolator indices
    slice_i_nda residual w = (w', Some residual') →
  Forall (λ i, is_Some (parameters !! i)) indices.
Proof.
  revert slice_i_nda residual w.
  induction indices as [|i rest IH]; intros nda residual w H; [done|].
  apply residual_loop_step in H
    as (l & row & w1 & projected & sref & s & grid & t & diff & residual1
        & _ & Hrow & _ & _ & _ & _ & _ & _ & _ & _ & H).
  constructor; [by rewrite Hrow|]. by eapply IH.
Qed.

(** X2: the residual evaluator returns only for a stack of at least one
    slice and a parameter vector that holds whole groups of three, at
    least one group per slice after the first; for any other vector it
    raises. *)
Theorem residual_needs_full_groups self parameters_vec transforms_sitk
    interpolator (w : World R) r w' :
  _degrees_of_freedom self = Some 3 →
  _get_residual_data_fit self parameters_vec transforms_sitk interpolator w
    = (w', Some r) →
  1 ≤ _N_slices self ∧
  length parameters_vec mod 3 = 0 ∧
  3 * (_N_slices self - 1) ≤ length parameters_vec.
Proof.
  intros Hdof H.
  apply _get_residual_data_fit_returns in H
    as (n1 & dof & parameters & projected & sref & s0 & residual' & HN & Hdof'
        & Hrows & _ & _ & _ & Hloop & _).
  rewrite Hdof in Hdof'. simplify_eq.
  unfold reshape_rows in Hrows. case_decide; [done|].
  case_decide as Hmod; [|done]. simplify_eq.
  apply residual_loop_rows in Hloop.
  split_and!; [lia|done|].
  rewrite HN. replace (S n1 - 1) with n1 by lia.
  destruct n1 as [|n1]; [lia|].
  rewrite Forall_forall in Hloop.
  destruct (Hloop n1) as [row Hrow].
  { apply elem_of_seq. lia. }
  apply lookup_lt_Some in Hrow. rewrite length_chunk in Hrow.
  pose proof (Nat.Div0.div_mod (length parameters_vec) 3). lia.
Qed.

Lemma residual_loop_ext self parameters1 parameters2 transforms_sitk
    interpolator indices slice_i_nda residual (w : World R) :
  Forall (λ i, parameters1 !! i = parameters2 !! i) indices →
  residual_loop self parameters1 transforms_sitk interpolator indices
    slice_i_nda residual w
  = residual_loop self parameters2 transforms_sitk interpolator indices
      slice_i_nda residual w.
Proof.
  revert slice_i_nda residual w.
  induction indices as [|i rest IH]; intros nda residual w Hext; [done|].
  apply Forall_cons in Hext as [Hi Hrest].
  cbn [residual_loop]. rewrite Hi. call_step.
  destruct (transforms_sitk !! (i + 1)) as [l|]; [|done].
  destruct (parameters2 !! i) as [row|]; [|done].
  destruct (SetParameters_at l row w) as [w1 [[]|]]; [|done].
  destruct (_2D_projected_slices self) as [projected|]; [|done].
  destruct (item projected (i + 1)) as [sref|]; [|done].
  destruct (w_slices2D w1 !! sref) as [s|]; [|done].
  destruct (_fixed_grid_2D_sitk self) as [grid|]; [|done].
  destruct (w_transforms w1 !! l) as [t|]; [|done].
  destruct (nd_sub _ _) as [diff|]; [|done].
  destruct (assign_row _ _ _ _) as [residual1|]; [|done].
  by apply IH.
Qed.

(** X3: groups beyond the first [N_slices - 1] are ignored: a parameter
    vector with further whole groups appended gives the same residuals and
    the same writes. *)
Theorem residual_surplus_groups_ignored self parameters_vec surplus
    transforms_sitk interpolator (w : World R) :
  _degrees_of_freedom self = Some 3 →
  length parameters_vec = 3 * (_N_slices self - 1) →
  length surplus mod 3 = 0 →
  _get_residual_data_fit self (parameters_vec ++ surplus) transforms_sitk
    interpolator w
  = _get_residual_data_fit self parameters_vec transforms_sitk
      interpolator w.
Proof.
  intros Hdof Hlen Hsurplus. unfold _get_residual_data_fit. call_step.
  destruct (_N_slices self) as [|n1] eqn:HN; [done|].
  cbn [pred_dim]. rewrite Hdof.
  replace (S n1 - 1) with n1 in Hlen by lia.
  assert (length parameters_vec mod 3 = 0) as Hmod
    by (rewrite Hlen, Nat.mul_comm; apply Nat.Div0.mod_mul).
  assert (length (parameters_vec ++ surplus) mod 3 = 0) as Hmod'.
  { rewrite length_app, <- Nat.Div0.add_mod_idemp_l, Hmod. done. }
  unfold reshape_rows. rewrite !(decide_False (P := 3 = 0)) by lia.
  rewrite (decide_True (P := length parameters_vec mod 3 = 0)) by done.
  rewrite (decide_True (P := length (parameters_vec ++ surplus) mod 3 = 0))
    by done.
  rewrite length_app.
  destruct (_2D_projected_slices self) as [projected|]; [|done].
  destruct (item projected 0) as [sref|]; [|done].
  destruct (w_slices2D w !! sref) as [s0|]; [|done].
  erewrite residual_loop_ext; [done|].
  apply Forall_seq. intros i Hi.
  assert (n1 ≤ (length parameters_vec + length surplus) `div` 3) as Hdiv.
  { rewrite Hlen, Nat.mul_comm, Nat.div_add_l by lia. lia. }
  assert (length parameters_vec `div` 3 = n1) as Hdiv'
    by (rewrite Hlen, Nat.mul_comm; by apply Nat.div_mul).
  rewrite length_app in Hmod'.
  pose proof (Nat.Div0.div_mod (length parameters_vec + length surplus) 3)
    as Hdm.
  rewrite Hmod' in Hdm.
  rewrite (chunk_lookup 3 _ (parameters_vec ++ surplus))
    by (rewrite ?length_app; lia).
  rewrite (chunk_lookup 3 _ parameters_vec) by lia.
  f_equal. rewrite drop_app_le by lia.
  apply take_app_le. rewrite length_drop. lia.
Qed.

(** ** Which blocks a parameter group reaches *)

Lemma assign_row_other (residual residual' : list (list R)) i cols v j :
  assign_row residual i cols v = Some residual' → j ≠ i →
  residual' !! j = residual !! j.
Proof.
  unfold assign_row. intros H Hj.
  destruct (residual !! i) as [old|]; [cbn [mbind option_bind] in H|done].
  case_decide.
  - simplify_eq. by rewrite list_lookup_insert_ne.
  - destruct v as [|x [|? ?]]; try done. simplify_eq.
    by rewrite list_lookup_insert_ne.
Qed.

Lemma assign_row_same (residual1 residual2 residual1' residual2' : list (list R))
    i cols v :
  assign_row residual1 i cols v = Some residual1' →
  assign_row residual2 i cols v = Some residual2' →
  residual1' !! i = residual2' !! i.
Proof.
  unfold assign_row. intros H1 H2.
  destruct (residual1 !! i) as [old1|] eqn:E1;
    [cbn [mbind option_bind] in H1|done].
  destruct (residual2 !! i) as [old2|] eqn:E2;
    [cbn [mbind option_bind] in H2|done].
  apply lookup_lt_Some in E1, E2.
  case_decide.
  - simplify_eq. by rewrite !list_lookup_insert_eq.
  - destruct v as [|x [|? ?]]; try done. simplify_eq.
    by rewrite !list_lookup_insert_eq.
Qed.

Lemma residual_loop_local self parameters1 parameters2 transforms_sitk
    interpolator j :
  (∀ i, i ≠ j → parameters1 !! i = parameters2 !! i) →
  ∀ m k prev1 prev2 residual1 residual2 (wa wb : World R)
    residual1' wa' residual2' wb',
    same_state wa wb →
    (k ≠ j + 1 → prev1 = prev2) →
    (∀ i, i ≠ j → i ≠ j + 1 → residual1 !! i = residual2 !! i) →
    residual_loop self parameters1 transforms_sitk interpolator (seq k m)
      prev1 residual1 wa = (wa', Some residual1') →
    residual_loop self parameters2 transforms_sitk interpolator (seq k m)
      prev2 residual2 wb = (wb', Some residual2') →
    ∀ i, i ≠ j → i ≠ j + 1 → residual1' !! i = residual2' !! i.
Proof.
  intros Hpar. induction m as [|m IH];
    intros k prev1 prev2 residual1 residual2 wa wb residual1' wa'
      residual2' wb' Hsame Hprev Hres H1 H2.
  { cbn in H1, H2. call_step_in H1. call_step_in H2. by simplify_eq. }
  cbn [seq] in H1, H2.
  apply residual_loop_step in H1
    as (l & row1 & wa1 & projected & sref & s & grid & ta & diff1
        & residual1'' & Hl & Hrow1 & Ha & Hproj & Hsref & Hs & Hgrid & Hta
        & Hd1 & Hr1 & H1).
  apply residual_loop_step in H2
    as (l2 & row2 & wb1 & projected2 & sref2 & s2 & grid2 & tb & diff2
        & residual2'' & Hl2 & Hrow2 & Hb & Hproj2 & Hsref2 & Hs2 & Hgrid2
        & Htb & Hd2 & Hr2 & H2).
  assert (l2 = l) as -> by congruence.
  assert (projected2 = projected) as -> by congruence.
  assert (sref2 = sref) as -> by congruence.
  assert (grid2 = grid) as -> by congruence.
  assert (same_state wa1 wb1) as Hsame1.
  { pose proof (SetParameters_at_frame _ _ _ _ _ Ha) as (_ & Hwa & _).
    pose proof (SetParameters_at_frame _ _ _ _ _ Hb) as (_ & Hwb & _).
    eapply same_state_trans; [apply same_state_sym, Hwa|].
    eapply same_state_trans; [exact Hsame|exact Hwb]. }
  assert (s2 = s) as ->.
  { destruct Hsame1 as [Heq _]. rewrite Heq in Hs. congruence. }
  assert (k ≠ j → ta = tb) as Ht.
  { intros Hk. pose proof (Hpar k Hk) as Hrows.
    rewrite Hrow1, Hrow2 in Hrows. simplify_eq.
    pose proof (SetParameters_at_agree l row2 wa wb Hsame) as Hagree.
    rewrite Ha, Hb in Hagree. destruct Hagree as [_ Hl']. congruence. }
  eapply (IH (S k)); [exact Hsame1| | |exact H1|exact H2].
  - intros Hk. rewrite Ht by lia. done.
  - intros i Hi Hi'. destruct (decide (i = k)) as [->|Hik].
    + rewrite Ht, Hprev in Hd1 by lia. rewrite Hd1 in Hd2. simplify_eq.
      by eapply assign_row_same.
    + rewrite (assign_row_other _ _ _ _ _ _ Hr1 Hik).
      rewrite (assign_row_other _ _ _ _ _ _ Hr2 Hik). by apply Hres.
Qed.

Lemma block_at_concat (c i : nat) (rows : list (list R)) :
  Forall (λ row, length row = c) rows →
  block_at c i (concat rows) = default [] (rows !! i).
Proof.
  unfold block_at. revert i.
  induction rows as [|row rows IH]; intros i Hall.
  { cbn [concat]. by rewrite drop_nil, take_nil. }
  apply Forall_cons in Hall as [Hrow Hall]. cbn [concat].
  destruct i as [|i].
  - change (0 * c) with 0. rewrite drop_0, take_app_length' by done. done.
  - replace (S i * c) with (length row + i * c) by lia.
    rewrite drop_app_add'; [|done]. by apply IH.
Qed.

Lemma chunk_replaced_group (pre g1 g2 post : list R) j i :
  length pre = 3 * j → length g1 = 3 → length g2 = 3 → i ≠ j →
  chunk 3 (length (pre ++ g1 ++ post) `div` 3) (pre ++ g1 ++ post) !! i
  = chunk 3 (length (pre ++ g2 ++ post) `div` 3) (pre ++ g2 ++ post) !! i.
Proof.
  intros Hpre Hg1 Hg2 Hi.
  assert (length (pre ++ g1 ++ post) = length (pre ++ g2 ++ post)) as Hlen
    by (rewrite !length_app; lia).
  rewrite <- Hlen. set (m := length (pre ++ g1 ++ post) `div` 3).
  assert (m * 3 ≤ length (pre ++ g1 ++ post)) as Hm.
  { pose proof (Nat.Div0.div_mod (length (pre ++ g1 ++ post)) 3).
    unfold m. lia. }
  destruct (decide (i < m)) as [Him|Him].
  2:{ rewrite !lookup_ge_None_2; [done|rewrite length_chunk; lia..]. }
  rewrite !chunk_lookup by lia. f_equal.
  destruct (decide (i < j)) as [Hlt|Hge].
  - rewrite !drop_app_le by lia.
    rewrite !take_app_le; [done|rewrite length_drop; lia..].
  - rewrite !(assoc_L (++)).
    rewrite !drop_app_ge by (rewrite length_app; lia).
    rewrite !length_app. do 2 f_equal. lia.
Qed.

(** X4: a parameter group reaches two residual blocks only.  When one
    group [j] of the parameter vector is replaced, every block of the
    residual other than [j] and [j + 1] is as before, also when the list
    [transforms_sitk] names one transform object many times. *)
Theorem residual_block_locality self (pre g1 g2 post : list R)
    transforms_sitk interpolator (w : World R) j r1 w1 r2 w2 :
  _degrees_of_freedom self = Some 3 →
  length pre = 3 * j → length g1 = 3 → length g2 = 3 →
  _get_residual_data_fit self (pre ++ g1 ++ post) transforms_sitk
    interpolator w = (w1, Some r1) →
  _get_residual_data_fit self (pre ++ g2 ++ post) transforms_sitk
    interpolator w = (w2, Some r2) →
  ∀ i, i ≠ j → i ≠ j + 1 →
    block_at (_N_2D_voxels self) i r1 = block_at (_N_2D_voxels self) i r2.
Proof.
  intros Hdof Hpre Hg1 Hg2 H1 H2 i Hi Hi'.
  apply _get_residual_data_fit_returns in H1
    as (n1 & dof & parameters1 & projected & sref & s0 & residual1 & HN
        & Hdof1 & Hrows1 & Hproj & Hsref & Hs0 & Hloop1 & ->).
  apply _get_residual_data_fit_returns in H2
    as (n1' & dof' & parameters2 & projected' & sref' & s0' & residual2 & HN'
        & Hdof2 & Hrows2 & Hproj' & Hsref' & Hs0' & Hloop2 & ->).
  rewrite Hdof in Hdof1, Hdof2. simplify_eq.
  unfold reshape_rows in Hrows1, Hrows2.
  rewrite decide_False in Hrows1, Hrows2 by lia.
  case_decide; [|done]. case_decide; [|done]. simplify_eq.
  pose proof (residual_loop_shape _ _ _ _ _ _ _ _ _ _ Hloop1) as [_ Hall1].
  pose proof (residual_loop_shape _ _ _ _ _ _ _ _ _ _ Hloop2) as [_ Hall2].
  rewrite !block_at_concat
    by (apply Hall1 || apply Hall2; apply Forall_replicate;
        by rewrite length_replicate).
  f_equal.
  assert (n1' = n1) as -> by congruence.
  eapply (λ Hpar Hsame Hprev Hres,
            residual_loop_local self _ _ transforms_sitk interpolator j Hpar
              _ _ _ _ _ _ _ _ _ _ _ _ Hsame Hprev Hres Hloop1 Hloop2 i Hi Hi').
  - intros i' Hi''. by apply (chunk_replaced_group pre g1 g2 post j).
  - apply same_state_refl.
  - done.
  - done.
Qed.

(** ** The alignment transforms of the slices *)

Lemma rigid_transforms_loop_spec slices (w : World R) :
  ∀ m k acc res,
    k + m ≤ length acc →
    rigid_transforms_loop slices (seq k m) acc w = Some res →
    length res = length acc ∧
    (∀ i, i < k ∨ k + m ≤ i → res !! i = acc !! i) ∧
    (∀ i, k ≤ i < k + m → ∃ l s T,
       slices !! i = Some l ∧ w_slices w !! l = Some s ∧
       transform_inverse (placement s) = Some T ∧
       res !! i = Some (Some T)).
Proof.
  induction m as [|m IH]; intros k acc res Hlen H.
  { cbn in H. simplify_eq. split_and!; [done..|]. intros i Hi. lia. }
  cbn [seq rigid_transforms_loop] in H.
  destruct (slices !! k) as [l|] eqn:Hl; [cbn [mbind option_bind] in H|done].
  destruct (w_slices w !! l) as [s|] eqn:Hs;
    [cbn [mbind option_bind] in H|done].
  fold (placement s) in H.
  destruct (transform_inverse (placement s)) as [T|] eqn:HT;
    [cbn [mbind option_bind] in H|done].
  apply IH in H as (Hlen' & Hout & Hin); [|rewrite length_insert; lia].
  rewrite length_insert in Hlen'. split_and!; [done| |].
  - intros i Hi. rewrite Hout by lia. apply list_lookup_insert_ne. lia.
  - intros i Hi. destruct (decide (i = k)) as [->|Hik].
    + exists l, s, T. split_and!; [done..|].
      rewrite Hout by lia. apply list_lookup_insert_eq. lia.
    + apply Hin. lia.
Qed.

Lemma rigid_transforms_loop_returns slices (w : World R) :
  ∀ m k acc,
    (∀ i, k ≤ i < k + m → ∃ l s,
       slices !! i = Some l ∧ w_slices w !! l = Some s ∧
       is_Some (transform_inverse (placement s))) →
    is_Some (rigid_transforms_loop slices (seq k m) acc w).
Proof.
  induction m as [|m IH]; intros k acc Hall; [by eexists|].
  cbn [seq rigid_transforms_loop].
  destruct (Hall k) as (l & s & -> & Hs & [T HT]); [lia|].
  cbn [mbind option_bind]. rewrite Hs. cbn [mbind option_bind].
  fold (placement s). rewrite HT. cbn [mbind option_bind].
  apply IH. intros i Hi. apply Hall. lia.
Qed.

(** X5: the list of alignment transforms has one entry per slice of the
    stack, none left unset; entry [i] is the inverse of the affine
    transform made of the direction matrix and the origin of slice [i]. *)
Theorem alignment_transforms_invert_placements (stack : Stack R)
    (w : World R) PP :
  _get_list_of_3D_rigid_transforms_of_slices stack w = Some PP →
  length PP = length (stack_slices stack) ∧
  ∀ i l, stack_slices stack !! i = Some l →
    ∃ s T, w_slices w !! l = Some s ∧
           transform_inverse
             (affine_transform (direction3 (sitk s)) (origin3 (sitk s)))
             = Some T ∧
           PP !! i = Some (Some T).
Proof.
  unfold _get_list_of_3D_rigid_transforms_of_slices. intros H.
  apply rigid_transforms_loop_spec in H as (Hlen & _ & Hin);
    [|by rewrite length_replicate].
  rewrite length_replicate in Hlen. split; [done|].
  intros i l Hl. destruct (Hin i) as (l' & s & T & Hl' & Hs & HT & Hres).
  { apply lookup_lt_Some in Hl. lia. }
  simplify_eq. by exists s, T.
Qed.

(** X6: the list of alignment transforms is returned exactly when every
    slice of the stack is there and its direction matrix and origin make
    an invertible transform; one singular slice makes the method raise. *)
Theorem alignment_transforms_return_iff (stack : Stack R) (w : World R) :
  is_Some (_get_list_of_3D_rigid_transforms_of_slices stack w) ↔
  Forall (λ l, ∃ s, w_slices w !! l = Some s ∧
                    is_Some (transform_inverse (placement s)))
         (stack_slices stack).
Proof.
  unfold _get_list_of_3D_rigid_transforms_of_slices. split.
  - intros [PP H].
    apply rigid_transforms_loop_spec in H as (_ & _ & Hin);
      [|by rewrite length_replicate].
    apply Forall_lookup. intros i l Hl.
    destruct (Hin i) as (l' & s & T & Hl' & Hs & HT & _).
    { apply lookup_lt_Some in Hl. lia. }
    simplify_eq. exists s. by rewrite HT.
  - intros Hall. apply rigid_transforms_loop_returns. intros i Hi.
    destruct (lookup_lt_is_Some_2 (stack_slices stack) i) as [l Hl]; [lia|].
    pose proof (proj1 (Forall_lookup _ _) Hall i l Hl) as (s & Hs & HT).
    by exists l, s.
Qed.

(** ** Stacks the registration cannot run on *)

Lemma projection_loop_indices self slices_3D PP indices slices_2D
    (w : World R) res w' :
  projection_loop self slices_3D PP indices slices_2D w = (w', Some res) →
  Forall (λ i, is_Some (slices_3D !! i) ∧ is_Some (item PP i)) indices.
Proof.
  revert slices_2D w. induction indices as [|i rest IH]; intros slices_2D w H;
    [done|].
  apply projection_loop_step in H
    as (l & s & pp & image & image' & Hl & _ & Hpp & _ & _ & H).
  constructor; [by rewrite Hl, Hpp|]. by eapply IH.
Qed.

(** X7: a registration object of a volume without planes cannot run: the
    method raises during the set-up, whatever the stack holds and whatever
    the solver does. *)
Theorem run_empty_volume_raises self (w : World R) :
  _N_slices self = 0 →
  (solver_setup (self, w)).2 = None ∧
  (run_regularized_rigid_inplane_registration (self, w)).2 = None.
Proof.
  intros HN.
  assert ((solver_setup (self, w)).2 = None) as Hsetup.
  { destruct (solver_setup (self, w))
      as [[self1 w1] [[[PP transforms] p0]|]] eqn:E; [|done].
    apply solver_setup_returns in E
      as (projected & w_p & sref & s0 & n1 & _ & _ & _ & _ & _ & _ & _ & Hpred
          & _).
    by rewrite HN in Hpred. }
  split; [done|]. rewrite run_unfold.
  by destruct (solver_setup (self, w)) as [[self1 w1] [[[PP ts] p0]|]].
Qed.

(** X8: when the stack holds fewer slices than the volume has planes, the
    method raises before the solver is called. *)
Theorem run_short_stack_raises self (w : World R) :
  length (stack_slices (_fixed self)) < _N_slices self →
  (solver_setup (self, w)).2 = None ∧
  (run_regularized_rigid_inplane_registration (self, w)).2 = None.
Proof.
  intros Hshort.
  assert ((solver_setup (self, w)).2 = None) as Hsetup.
  { destruct (solver_setup (self, w))
      as [[self1 w1] [[[PP transforms] p0]|]] eqn:E; [|done].
    apply solver_setup_returns in E
      as (projected & w_p & sref & s0 & n1 & _ & Hproj & _).
    apply projection_loop_indices in Hproj.
    rewrite Forall_forall in Hproj.
    destruct (Hproj (length (stack_slices (_fixed self)))) as [[l Hl] _].
    { apply elem_of_seq. lia. }
    apply lookup_lt_Some in Hl. lia. }
  split; [done|]. rewrite run_unfold.
  by destruct (solver_setup (self, w)) as [[self1 w1] [[[PP ts] p0]|]].
Qed.

End FurtherProperties.

(** * Further properties of the slice projection *)

Section ProjectionProperties.
Context {R : Type} {TK : Toolkit R}.

(** Everything the loop of [_get_2D_projected_and_masked_slices] leaves
    behind for the indices [k] to [k + m - 1], for a stack whose slices are
    objects of the world [w0] the method started in. *)
Lemma projection_loop_full self slices_3D PP (w0 : World R) :
  Forall (λ l, l < length (w_slices w0)) slices_3D →
  ∀ m k slices_2D (w : World R) res w',
    (∃ added, w_slices w = w_slices w0 ++ added) →
    k + m ≤ length slices_2D →
    projection_loop self slices_3D PP (seq k m) slices_2D w
      = (w', Some res) →
    ∃ copies planes,
      w_slices w' = w_slices w ++ copies ∧
      w_slices2D w' = w_slices2D w ++ planes ∧
      w_transforms w' = w_transforms w ∧
      length copies = m ∧ length planes = m ∧
      length res = length slices_2D ∧
      (∀ j, j < k ∨ k + m ≤ j → res !! j = slices_2D !! j) ∧
      (∀ i, i < m → ∃ l s pp image image',
         slices_3D !! (k + i) = Some l ∧ w_slices w0 !! l = Some s ∧
         item PP (k + i) = Some pp ∧
         extract_plane0 (sitk (realigned pp s)) = Some image ∧
         weighted (_use_fixed_mask self) (realigned pp s) image
           = Some image' ∧
         copies !! i = Some (realigned pp s) ∧
         planes !! i
           = Some {| sitk2 := image'; sitk_mask2 := default_mask image';
                     slice_filename2 := slice_filename s;
                     slice_number2 := slice_number s |} ∧
         res !! (k + i) = Some (Some (length (w_slices2D w) + i))).
Proof.
  intros Hvalid. induction m as [|m IH];
    intros k slices_2D w res w' [added Hadded] Hlen H.
  { cbn in H. call_step_in H. simplify_eq. exists [], [].
    rewrite !app_nil_r. split_and!; [done..|]. intros i Hi. lia. }
  cbn [seq] in H. apply projection_loop_step in H
    as (l & s & pp & image & image' & Hl & Hs & Hpp & Himage & Hweighted & H).
  assert (w_slices w0 !! l = Some s) as Hs0.
  { rewrite Forall_forall in Hvalid.
    assert (l < length (w_slices w0)) as Hlt
      by (apply Hvalid; eapply list_elem_of_lookup_2, Hl).
    rewrite Hadded, lookup_app_l in Hs by done. done. }
  apply IH in H
    as (copies & planes & Hc & Hp & Ht & Hlc & Hlp & Hlr & Hout & Hin).
  2:{ exists (added ++ [realigned pp s]). cbn. by rewrite Hadded, <- app_assoc. }
  2:{ rewrite length_insert. lia. }
  cbn [w_slices w_slices2D w_transforms] in Hc, Hp, Ht, Hin.
  rewrite length_insert in Hlr.
  exists (realigned pp s :: copies),
    ({| sitk2 := image'; sitk_mask2 := default_mask image';
        slice_filename2 := slice_filename s;
        slice_number2 := slice_number s |} :: planes).
  split_and!.
  - by rewrite Hc, <- app_assoc.
  - by rewrite Hp, <- app_assoc.
  - done.
  - cbn. lia.
  - cbn. lia.
  - done.
  - intros j Hj. rewrite Hout by lia. apply list_lookup_insert_ne. lia.
  - intros [|i] Hi.
    + exists l, s, pp, image, image'. rewrite !Nat.add_0_r.
      split_and!; [done..|].
      rewrite Hout by lia. apply list_lookup_insert_eq. lia.
    + destruct (Hin i) as (l' & s' & pp' & im & im' & ? & ? & ? & ? & ? & ?
                           & ? & Hres); [lia|].
      exists l', s', pp', im, im'.
      replace (k + S i) with (S k + i) by lia.
      split_and!; [done..|].
      rewrite Hres, length_app. cbn. do 2 f_equal. lia.
Qed.

Lemma _get_2D_projected_and_masked_slices_full self (stack : Stack R) PP
    (w : World R) slices_2D w' :
  stack_valid stack w →
  _get_2D_projected_and_masked_slices self stack PP w
    = (w', Some slices_2D) →
  ∃ copies planes,
    w_slices w' = w_slices w ++ copies ∧
    w_slices2D w' = w_slices2D w ++ planes ∧
    w_transforms w' = w_transforms w ∧
    length copies = _N_slices self ∧ length planes = _N_slices self ∧
    length slices_2D = _N_slices self ∧
    (∀ i, i < _N_slices self → ∃ l s pp image image',
       stack_slices stack !! i = Some l ∧ w_slices w !! l = Some s ∧
       item PP i = Some pp ∧
       extract_plane0 (sitk (realigned pp s)) = Some image ∧
       weighted (_use_fixed_mask self) (realigned pp s) image
         = Some image' ∧
       copies !! i = Some (realigned pp s) ∧
       planes !! i
         = Some {| sitk2 := image'; sitk_mask2 := default_mask image';
                   slice_filename2 := slice_filename s;
                   slice_number2 := slice_number s |} ∧
       slices_2D !! i = Some (Some (length (w_slices2D w) + i))).
Proof.
  unfold _get_2D_projected_and_masked_slices. intros Hvalid H.
  apply (projection_loop_full _ _ _ w Hvalid) in H
    as (copies & planes & Hc & Hp & Ht & Hlc & Hlp & Hlr & _ & Hin).
  2:{ exists []. by rewrite app_nil_r. }
  2:{ by rewrite length_replicate. }
  rewrite length_replicate in Hlr.
  exists copies, planes. split_and!; [done..|].
  intros i Hi. destruct (Hin i Hi) as (l & s & pp & im & im' & H').
  by exists l, s, pp, im, im'.
Qed.

(** X9: the projection makes new objects and changes none: after it the
    store holds the old slices followed by one working copy per slice, the
    old projected slices followed by one new projected slice per slice, and
    the same transform objects; entry [i] of the returned list names the
    [i]-th new projected slice, so no two entries name the same object. *)
Theorem projection_allocates_fresh_objects self (stack : Stack R) PP
    (w : World R) slices_2D w' :
  stack_valid stack w →
  _get_2D_projected_and_masked_slices self stack PP w
    = (w', Some slices_2D) →
  (∃ copies, w_slices w' = w_slices w ++ copies ∧
             length copies = _N_slices self) ∧
  (∃ planes, w_slices2D w' = w_slices2D w ++ planes ∧
             length planes = _N_slices self) ∧
  w_transforms w' = w_transforms w ∧
  slices_2D
  = (λ i, Some (length (w_slices2D w) + i)) <$> seq 0 (_N_slices self).
Proof.
  intros Hvalid H.
  apply _get_2D_projected_and_masked_slices_full in H
    as (copies & planes & Hc & Hp & Ht & Hlc & Hlp & Hlr & Hin); [|done].
  split_and!; [by exists copies|by exists planes|done|].
  apply list_eq. intros i. rewrite list_lookup_fmap.
  destruct (decide (i < _N_slices self)) as [Hi|Hi].
  - destruct (Hin i Hi) as (l & s & pp & im & im' & _ & _ & _ & _ & _ & _ & _
                            & ->).
    by rewrite lookup_seq_lt.
  - rewrite lookup_ge_None_2 by lia.
    by rewrite lookup_seq_ge by lia.
Qed.

(** X10: projected slice [i] carries the filename and the slice number of
    slice [i] of the stack, and the working copy the projection leaves in
    the store keeps pixels, size, spacing and names of that slice: only
    direction and origin differ. *)
Theorem projection_propagates_names self (stack : Stack R) PP (w : World R)
    slices_2D w' i :
  stack_valid stack w →
  _get_2D_projected_and_masked_slices self stack PP w
    = (w', Some slices_2D) →
  i < _N_slices self →
  ∃ l s sref s2 copy,
    stack_slices stack !! i = Some l ∧ w_slices w !! l = Some s ∧
    item slices_2D i = Some sref ∧ w_slices2D w' !! sref = Some s2 ∧
    slice_filename2 s2 = slice_filename s ∧
    slice_number2 s2 = slice_number s ∧
    w_slices w' !! (length (w_slices w) + i) = Some copy ∧
    slice_filename copy = slice_filename s ∧
    slice_number copy = slice_number s ∧
    pixels3 (sitk copy) = pixels3 (sitk s) ∧
    size3 (sitk copy) = size3 (sitk s) ∧
    spacing3 (sitk copy) = spacing3 (sitk s) ∧
    pixels3 (sitk_mask copy) = pixels3 (sitk_mask s) ∧
    direction3 (sitk_mask copy) = direction3 (sitk copy) ∧
    origin3 (sitk_mask copy) = origin3 (sitk copy).
Proof.
  intros Hvalid H Hi.
  apply _get_2D_projected_and_masked_slices_full in H
    as (copies & planes & Hc & Hp & Ht & Hlc & Hlp & Hlr & Hin); [|done].
  destruct (Hin i Hi) as (l & s & pp & im & im' & Hl & Hs & Hpp & _ & _ & Hcopy
                          & Hplane & Hres).
  eexists l, s, _, _, (realigned pp s). split_and!; [done..| | | | | | | | | | | | |].
  - unfold item. rewrite Hres. done.
  - rewrite Hp, lookup_app_r by lia.
    replace (length (w_slices2D w) + i - length (w_slices2D w)) with i by lia.
    exact Hplane.
  - done.
  - done.
  - rewrite Hc, lookup_app_r by lia.
    replace (length (w_slices w) + i - length (w_slices w)) with i by lia.
    exact Hcopy.
  - done.
  - done.
  - done.
  - done.
  - done.
  - done.
  - done.
  - done.
Qed.

Lemma extract_plane0_planes (img : Image3D R) image :
  extract_plane0 img = Some image → (size3 img).2 ≠ 0.
Proof.
  unfold extract_plane0. destruct (size3 img) as [[nx ny] nz]. intros H.
  by case_decide.
Qed.

(** X11: the pixels of a projected slice, read off the input slice: the
    first plane of the slice, that is the first [nx * ny] pixels of its
    buffer; when mask weighting is on, the pixel at index (x, y) is
    multiplied with the pixel at index (x, y) of the first plane of the
    mask, cast to the pixel type of the image.  The projection returns only
    for slices with at least one plane and, with mask weighting, for masks
    whose plane contains the plane of the image; for a mask of the size of
    the image, both with full buffers, the product is the two pixel lists
    multiplied entry by entry. *)
Theorem projection_pixels self (stack : Stack R) PP (w : World R)
    slices_2D w' i :
  stack_valid stack w →
  _get_2D_projected_and_masked_slices self stack PP w
    = (w', Some slices_2D) →
  i < _N_slices self →
  ∃ l s sref s2 nx ny nz,
    stack_slices stack !! i = Some l ∧ w_slices w !! l = Some s ∧
    item slices_2D i = Some sref ∧ w_slices2D w' !! sref = Some s2 ∧
    size3 (sitk s) = (nx, ny, nz) ∧ 1 ≤ nz ∧
    size2 (sitk2 s2) = (nx, ny) ∧
    pixel_id2 (sitk2 s2) = pixel_id3 (sitk s) ∧
    (_use_fixed_mask self = false →
     pixels2 (sitk2 s2) = take (nx * ny) (pixels3 (sitk s))) ∧
    (_use_fixed_mask self = true →
     ∃ mx my mz, size3 (sitk_mask s) = (mx, my, mz) ∧ 1 ≤ mz ∧
       nx ≤ mx ∧ ny ≤ my ∧
       length (pixels2 (sitk2 s2)) = nx * ny ∧
       (∀ x y, x < nx → y < ny →
          pixels2 (sitk2 s2) !! (y * nx + x)
          = Some (r_mul
                    (default r_zero
                       (take (nx * ny) (pixels3 (sitk s)) !! (y * nx + x)))
                    (default r_zero
                       ((cast_pixel (pixel_id3 (sitk s))
                           <$> take (mx * my) (pixels3 (sitk_mask s)))
                          !! (y * mx + x))))) ∧
       (mx = nx → my = ny →
        nx * ny ≤ length (pixels3 (sitk s)) →
        nx * ny ≤ length (pixels3 (sitk_mask s)) →
        pixels2 (sitk2 s2)
        = zip_with r_mul (take (nx * ny) (pixels3 (sitk s)))
            (cast_pixel (pixel_id3 (sitk s))
               <$> take (nx * ny) (pixels3 (sitk_mask s))))).
Proof.
  intros Hvalid H Hi.
  apply _get_2D_projected_and_masked_slices_full in H
    as (copies & planes & Hc & Hp & Ht & Hlc & Hlp & Hlr & Hin); [|done].
  destruct (Hin i Hi) as (l & s & pp & im & im' & Hl & Hs & Hpp & Him & Hw & _
                          & Hplane & Hres).
  destruct (size3 (sitk s)) as [[nx ny] nz] eqn:Hsize.
  pose proof (extract_plane0_planes _ _ Him) as Hnz.
  apply (extract_plane0_Some _ _ nx ny nz) in Him as (Hsz & Hid & Hpx);
    [|done].
  cbn in Hnz, Hid, Hpx. rewrite Hsize in Hnz. cbn in Hnz.
  assert (w_slices2D w' !! (length (w_slices2D w) + i)
          = Some {| sitk2 := im'; sitk_mask2 := default_mask im';
                    slice_filename2 := slice_filename s;
                    slice_number2 := slice_number s |}) as Hs2.
  { rewrite Hp, lookup_app_r by lia.
    replace (length (w_slices2D w) + i - length (w_slices2D w)) with i by lia.
    exact Hplane. }
  assert (size2 im' = (nx, ny) ∧ pixel_id2 im' = pixel_id3 (sitk s))
    as [Hsz' Hid'].
  { unfold weighted in Hw.
    destruct (_use_fixed_mask self); [|by simplify_eq].
    destruct (extract_plane0 (sitk_mask (realigned pp s))) as [mask|];
      [cbn [mbind option_bind] in Hw|done].
    apply image_mul_returns in Hw as (_ & _ & _ & _ & -> & _ & -> & _).
    done. }
  eexists l, s, _, _, nx, ny, nz.
  split_and!;
    [done|done|by unfold item; rewrite Hres|exact Hs2|done|lia|done|done|..];
    cbn [sitk2]; unfold weighted in Hw.
  - intros Hflag. rewrite Hflag in Hw. by simplify_eq.
  - intros Hflag. rewrite Hflag in Hw.
    destruct (extract_plane0 (sitk_mask (realigned pp s))) as [mask|] eqn:Hm;
      [cbn [mbind option_bind] in Hw|done].
    destruct (size3 (sitk_mask s)) as [[mx my] mz] eqn:Hmsize.
    pose proof (extract_plane0_planes _ _ Hm) as Hmz.
    apply (extract_plane0_Some _ _ mx my mz) in Hm as (Hmsz' & _ & Hmpx);
      [|done].
    cbn in Hmz, Hmpx. rewrite Hmsize in Hmz. cbn in Hmz.
    pose proof (image_mul_returns _ _ _ Hw)
      as (_ & _ & Hx & Hy & _ & _ & _ & Hlen & Hpix).
    rewrite Hsz in Hx, Hy, Hlen, Hpix. cbn in Hx, Hy, Hlen, Hpix.
    rewrite Hmsz' in Hx, Hy. cbn in Hx, Hy.
    exists mx, my, mz. split_and!; [done|lia|done|done|done| |].
    + intros x y Hx' Hy'. rewrite (Hpix x y Hx' Hy'). unfold pixel_at.
      cbn. by rewrite Hsz, Hmsz', Hpx, Hmpx, Hid.
    + intros -> -> Hfull Hmfull.
      apply image_mul_same_size in Hw.
      * cbn in Hw. by rewrite Hw, Hpx, Hmpx, Hid.
      * cbn. by rewrite Hmsz', Hsz.
      * rewrite Hsz, Hpx, length_take. cbn. lia.
      * cbn. rewrite Hsz, length_map, Hmpx, length_take. cbn. lia.
Qed.

(** X14: with mask weighting the projection raises when the mask of the
    first slice does not fit its image: when the two do not occupy the same
    physical space, or when the plane of the mask is narrower or shorter
    than the plane of the image. *)
Theorem projection_raises_on_mask_mismatch self (stack : Stack R) PP
    (w : World R) l s pp image mask :
  _use_fixed_mask self = true →
  1 ≤ _N_slices self →
  stack_slices stack !! 0 = Some l → w_slices w !! l = Some s →
  item PP 0 = Some pp →
  extract_plane0 (sitk (realigned pp s)) = Some image →
  extract_plane0 (sitk_mask (realigned pp s)) = Some mask →
  same_physical_space (geometry2 image) (geometry2 mask) = false ∨
  (size2 mask).1 < (size2 image).1 ∨ (size2 mask).2 < (size2 image).2 →
  (_get_2D_projected_and_masked_slices self stack PP w).2 = None.
Proof.
  intros Hflag HN Hl Hs Hpp Himage Hmask Hmismatch.
  unfold _get_2D_projected_and_masked_slices.
  destruct (_N_slices self) as [|n]; [lia|]. cbn [seq].
  rewrite projection_loop_unfold, Hl, Hs, Hpp, Himage.
  unfold weighted. rewrite Hflag, Hmask. cbn [mbind option_bind].
  rewrite image_mul_raises; [done|]. cbn.
  destruct Hmismatch as [?|[?|?]]; auto.
Qed.

End ProjectionProperties.

(** * Further properties of the run and of its results *)

Section RunProperties.
Context {R : Type} {TK : Toolkit R}.

(** ** Which transform objects the residual evaluator writes *)

Lemma residual_loop_touches self parameters transforms_sitk interpolator
    indices slice_i_nda residual (w : World R) residual' w' :
  residual_loop self parameters transforms_sitk interpolator indices
    slice_i_nda residual w = (w', Some residual') →
  length (w_transforms w') = length (w_transforms w) ∧
  ∀ l, Forall (λ i, transforms_sitk !! (i + 1) ≠ Some l) indices →
       w_transforms w' !! l = w_transforms w !! l.
Proof.
  revert slice_i_nda residual w.
  induction indices as [|i rest IH]; intros nda residual w H.
  { cbn in H. call_step_in H. by simplify_eq. }
  apply residual_loop_step in H
    as (l0 & row & w1 & projected & sref & s & grid & t & diff & residual1
        & Hl0 & _ & Hset & _ & _ & _ & _ & _ & _ & _ & H).
  apply IH in H as [Hlen Hother].
  apply SetParameters_at_returns in Hset as (t0 & t1 & _ & _ & ->).
  cbn [w_transforms set_w_transforms] in Hlen, Hother.
  rewrite length_insert in Hlen. split; [done|].
  intros l' Hl'. apply Forall_cons in Hl' as [Hl' Hrest].
  rewrite Hother by done. apply list_lookup_insert_ne. congruence.
Qed.

Lemma _get_residual_data_fit_touches self parameters_vec transforms_sitk
    interpolator (w : World R) r w' :
  _get_residual_data_fit self parameters_vec transforms_sitk interpolator w
    = (w', Some r) →
  length (w_transforms w') = length (w_transforms w) ∧
  ∀ l, (∀ i, 1 ≤ i < _N_slices self → transforms_sitk !! i ≠ Some l) →
       w_transforms w' !! l = w_transforms w !! l.
Proof.
  intros H.
  apply _get_residual_data_fit_returns in H
    as (n1 & dof & parameters & projected & sref & s0 & residual' & HN & _
        & _ & _ & _ & _ & Hloop & _).
  apply residual_loop_touches in Hloop as [Hlen Hother].
  split; [done|]. intros l Hl. apply Hother.
  apply Forall_seq. intros i Hi. apply Hl. lia.
Qed.

(** X12: the residual evaluator writes to no transform object but those
    named by the entries [1] to [N_slices - 1] of [transforms_sitk]: every
    other transform object, the one of entry [0] among them when no later
    entry names it too, holds after the call what it held before, and no
    object is made or dropped. *)
Theorem residual_evaluator_writes_only_listed self parameters_vec
    transforms_sitk interpolator (w : World R) r w' l :
  _get_residual_data_fit self parameters_vec transforms_sitk interpolator w
    = (w', Some r) →
  (∀ i, 1 ≤ i < _N_slices self → transforms_sitk !! i ≠ Some l) →
  w_transforms w' !! l = w_transforms w !! l ∧
  length (w_transforms w') = length (w_transforms w).
Proof.
  intros H Hl. apply _get_residual_data_fit_touches in H as [Hlen Hother].
  split; [by apply Hother|done].
Qed.

(** ** The transform objects over a run *)

Lemma only_listed_refl transforms_sitk (w : World R) :
  only_listed transforms_sitk w w.
Proof. by split. Qed.

Lemma only_listed_trans transforms_sitk (w1 w2 w3 : World R) :
  only_listed transforms_sitk w1 w2 → only_listed transforms_sitk w2 w3 →
  only_listed transforms_sitk w1 w3.
Proof.
  intros [Hl1 Ho1] [Hl2 Ho2]. split; [congruence|].
  intros l Hl. by rewrite Ho2, Ho1.
Qed.

Lemma SetParameters_at_only_listed transforms_sitk l row (w : World R) :
  l ∈ transforms_sitk →
  only_listed transforms_sitk w (SetParameters_at l row w).1.
Proof.
  intros Hl. destruct (SetParameters_at l row w) as [w1 [u|]] eqn:Hset.
  - apply SetParameters_at_returns in Hset as (t0 & t1 & _ & _ & ->).
    split; cbn; [by rewrite length_insert|].
    intros l' Hl'. apply list_lookup_insert_ne. by intros ->.
  - apply SetParameters_at_raises in Hset as ->. apply only_listed_refl.
Qed.

(** Whether it returns or raises, the loop of the evaluator writes to
    transform objects of its list only. *)
Lemma residual_loop_only_listed self parameters transforms_sitk interpolator
    indices slice_i_nda residual (w : World R) :
  only_listed transforms_sitk w
    (residual_loop self parameters transforms_sitk interpolator indices
       slice_i_nda residual w).1.
Proof.
  revert slice_i_nda residual w.
  induction indices as [|i rest IH]; intros nda residual w.
  { apply only_listed_refl. }
  cbn [residual_loop]. call_step.
  destruct (transforms_sitk !! (i + 1)) as [l|] eqn:Hl;
    [|apply only_listed_refl].
  destruct (parameters !! i) as [row|]; [|apply only_listed_refl].
  pose proof (SetParameters_at_only_listed transforms_sitk l row w
                (list_elem_of_lookup_2 _ _ _ Hl)) as H1.
  destruct (SetParameters_at l row w) as [w1 [[]|]]; cbn [fst] in H1;
    [|exact H1].
  destruct (_2D_projected_slices self) as [projected|]; [|exact H1].
  destruct (item projected (i + 1)) as [sref|]; [|exact H1].
  destruct (w_slices2D w1 !! sref) as [s|]; [|exact H1].
  destruct (_fixed_grid_2D_sitk self) as [grid|]; [|exact H1].
  destruct (w_transforms w1 !! l) as [t|]; [|exact H1].
  destruct (nd_sub _ _) as [diff|]; [|exact H1].
  destruct (assign_row _ _ _ _) as [residual1|]; [|exact H1].
  eapply only_listed_trans; [exact H1|apply IH].
Qed.

Lemma _get_residual_data_fit_only_listed self parameters_vec transforms_sitk
    interpolator (w : World R) :
  only_listed transforms_sitk w
    (_get_residual_data_fit self parameters_vec transforms_sitk
       interpolator w).1.
Proof.
  unfold _get_residual_data_fit. call_step.
  destruct (pred_dim (_N_slices self)) as [n1|]; [|apply only_listed_refl].
  destruct (_degrees_of_freedom self) as [dof|]; [|apply only_listed_refl].
  destruct (reshape_rows dof parameters_vec) as [parameters|];
    [|apply only_listed_refl].
  destruct (_2D_projected_slices self) as [projected|];
    [|apply only_listed_refl].
  destruct (item projected 0) as [sref|]; [|apply only_listed_refl].
  destruct (w_slices2D w !! sref) as [s0|]; [|apply only_listed_refl].
  match goal with
  | |- context [residual_loop ?a ?b ?c ?d ?e ?f ?g w] =>
      pose proof (residual_loop_only_listed a b c d e f g w) as H1;
      destruct (residual_loop a b c d e f g w) as [w1 [residual'|]]
  end; exact H1.
Qed.

(** X13: however a run ends, it has changed none of the 2D transform
    objects that were there: the store of shared transform objects is the
    old one, followed, once line 75 has run, by the one new object the list
    handed to the residual evaluator names, whose center is still the
    origin.  (The transforms local to the correction composer are values,
    not store cells.) *)
Theorem run_adds_one_transform_object self (w : World R) :
  let w' := (run_regularized_rigid_inplane_registration (self, w)).1.2 in
  w_transforms w' = w_transforms w ∨
  ∃ t, w_transforms w' = w_transforms w ++ [t] ∧
       e2_center t = (r_zero, r_zero).
Proof.
  cbn zeta. rewrite run_unfold.
  destruct (solver_setup (self, w)) as [[self1 w1] [[[PP ts] p0]|]] eqn:Hsetup.
  2:{ (* the set-up raised *)
      rewrite solver_setup_unfold in Hsetup.
      destruct (_get_list_of_3D_rigid_transforms_of_slices _ w) as [PP|];
        [|simplify_eq; by left].
      pose proof (_get_2D_projected_and_masked_slices_keeps self (_fixed self)
                    PP w) as (_ & _ & Htp).
      destruct (_get_2D_projected_and_masked_slices _ _ _ w)
        as [w_p [projected|]]; cbn [fst] in Htp;
        [|simplify_eq; by left].
      cbn zeta in Hsetup.
      assert (∃ t, w_transforms
                     (set_w_transforms w_p
                        (w_transforms w_p ++ [Euler2DTransform]))
                   = w_transforms w ++ [t] ∧ e2_center t = (r_zero, r_zero))
        as Hone by (exists Euler2DTransform; cbn; by rewrite Htp).
      destruct (item projected 0) as [sref|]; [|simplify_eq; by right].
      destruct (w_slices2D w_p !! sref) as [s0|]; [|simplify_eq; by right].
      destruct (pred_dim (_N_slices self)) as [n1|]; simplify_eq; by right. }
  right.
  apply solver_setup_returns in Hsetup
    as (projected & w_p & sref & s0 & n1 & _ & Hproj & -> & -> & _ & _ & ->
        & _ & ->).
  pose proof (_get_2D_projected_and_masked_slices_keeps self (_fixed self)
                PP w) as (_ & _ & Htp).
  rewrite Hproj in Htp. cbn [fst] in Htp.
  set (n := length (w_transforms w_p)) in *.
  set (w1 := set_w_transforms w_p (w_transforms w_p ++ [Euler2DTransform])).
  set (ts := replicate (_N_slices self) n).
  set (self1 := set_solver_state _ _ _ _ _).
  pose proof (run_solver_keeps
                (λ x, _get_residual_data_fit self1 x ts sitkLinear)
                (λ a b, only_listed ts a b ∧ same_state a b)) as Hsolve.
  specialize (Hsolve
    (λ a, conj (only_listed_refl ts a) (same_state_refl a))).
  specialize (Hsolve
    (λ a b c H1 H2, conj (only_listed_trans ts a b c (proj1 H1) (proj1 H2))
                         (same_state_trans a b c (proj2 H1) (proj2 H2)))).
  specialize (Hsolve
    (λ x a, conj (_get_residual_data_fit_only_listed self1 x ts sitkLinear a)
                 (proj2 (_get_residual_data_fit_keeps self1 x ts sitkLinear
                           a)))).
  specialize (Hsolve
    (least_squares (replicate (n1 * 3) r_zero) dogbox linear) w1).
  assert (∀ w2, only_listed ts w1 w2 ∧ same_state w1 w2 →
            ∃ t, w_transforms w2 = w_transforms w ++ [t] ∧
                 e2_center t = (r_zero, r_zero)) as Hone.
  { intros w2 [[Hlen Hother] [_ Hc]].
    subst w1. cbn [w_transforms set_w_transforms] in Hlen, Hother, Hc.
    rewrite length_app in Hlen. cbn in Hlen.
    destruct (lookup_lt_is_Some_2 (w_transforms w2) n) as [t Hn];
      [fold n in Hlen; lia|].
    exists t. split.
    - rewrite <- Htp. apply list_eq. intros i.
      destruct (decide (i = n)) as [->|Hi].
      + rewrite Hn. symmetry. by apply list_lookup_middle.
      + rewrite Hother.
        2:{ subst ts. intros [-> _]%elem_of_replicate. done. }
        destruct (decide (i < n)) as [Hlt|Hge].
        * by rewrite !lookup_app_l by (fold n; lia).
        * rewrite !lookup_ge_None_2;
            [done|rewrite length_app; cbn; fold n; lia..].
    - apply (f_equal (λ cs, cs !! n)) in Hc.
      rewrite !list_lookup_fmap, Hn in Hc.
      rewrite (list_lookup_middle (w_transforms w_p) [] Euler2DTransform n
                 eq_refl) in Hc.
      cbn in Hc. by simplify_eq. }
  destruct (run_solver _ _ w1) as [w2 [res_x|]]; cbn [fst] in Hsolve;
    [|by apply Hone].
  destruct (_degrees_of_freedom self1) as [dof|]; [|by apply Hone].
  destruct (reshape_rows dof res_x) as [parameters|]; [|by apply Hone].
  cbn zeta.
  match goal with
  | |- context [_apply_motion_correction ?s PP w2] =>
      pose proof (_apply_motion_correction_keeps s PP w2) as (_ & _ & Ht);
      destruct (_apply_motion_correction s PP w2) as [w3 [[sc regs]|]]
  end; cbn [fst snd] in Ht |- *; rewrite Ht; by apply Hone.
Qed.

(** ** Before the run *)

(** X17: [__init__] always returns an object, and on that object nothing
    but the run can be called: the getters return lists of [None], one
    entry per plane of the volume, while [get_registered_stack], the
    residual evaluator and, for a volume with planes, the correction
    composer raise. *)
Theorem fresh_object_raises (fixed : Stack R) use_fixed_mask use_moving_mask
    parameters_vec transforms_sitk interpolator PP (w : World R) :
  ∃ self,
    __init__ fixed use_fixed_mask use_moving_mask = Some self ∧
    _N_slices self = (size3 (stack_sitk fixed)).2 ∧
    get_parameters self = replicate (_N_slices self) None ∧
    get_registration_transform_sitk self
      = replicate (_N_slices self) None ∧
    get_registered_stack self w = (w, None) ∧
    _get_residual_data_fit self parameters_vec transforms_sitk interpolator w
      = (w, None) ∧
    (_N_slices self = 0 ∨ (_apply_motion_correction self PP w).2 = None).
Proof.
  unfold __init__. destruct (size3 (stack_sitk fixed)) as [[nx ny] nz] eqn:Hsz.
  cbn [lookup list_lookup mbind option_bind].
  eexists. split; [reflexivity|].
  cbn [_N_slices]. split_and!; [done..| |].
  - unfold _get_residual_data_fit. call_step.
    cbn [_N_slices _degrees_of_freedom]. by destruct nz.
  - destruct nz as [|nz]; [by left|right].
    rewrite _apply_motion_correction_unfold.
    by destruct (from_stack _ _ w) as [w1 [sc|]].
Qed.

End RunProperties.

(** * The residual evaluator called again *)

Section RepeatedEvaluation.
Context {R : Type} {TK : Toolkit R}.

Lemma SetParameters_at_other l0 row (w w1 : World R) u l :
  SetParameters_at l0 row w = (w1, Some u) → l ≠ l0 →
  w_transforms w1 !! l = w_transforms w !! l.
Proof.
  intros (t0 & t1 & _ & _ & ->)%SetParameters_at_returns Hl.
  cbn. by apply list_lookup_insert_ne.
Qed.

(** Two runs of the loop from stores that agree on the centers end with
    the same object at every location the loop writes, and at every
    location where the stores agreed at the start. *)
Lemma residual_loop_converges self parameters transforms_sitk interpolator
    indices :
  ∀ prev_a prev_b residual_a residual_b (wa wb : World R)
    residual_a' wa' residual_b' wb',
    same_state wa wb →
    residual_loop self parameters transforms_sitk interpolator indices
      prev_a residual_a wa = (wa', Some residual_a') →
    residual_loop self parameters transforms_sitk interpolator indices
      prev_b residual_b wb = (wb', Some residual_b') →
    ∀ l, w_transforms wa !! l = w_transforms wb !! l ∨
         Exists (λ i, transforms_sitk !! (i + 1) = Some l) indices →
         w_transforms wa' !! l = w_transforms wb' !! l.
Proof.
  induction indices as [|i rest IH];
    intros prev_a prev_b residual_a residual_b wa wb residual_a' wa'
      residual_b' wb' Hsame HA HB l Hl.
  { cbn in HA, HB. call_step_in HA. call_step_in HB. simplify_eq.
    destruct Hl as [Heq|Hex]; [done|]. by apply Exists_nil in Hex. }
  apply residual_loop_step in HA
    as (l0 & row & wa1 & projected & sref & s & grid & ta & diff_a
        & residual_a1 & Hl0 & Hrow & Ha & _ & _ & _ & _ & _ & _ & _ & HA).
  apply residual_loop_step in HB
    as (l0' & row' & wb1 & projected' & sref' & s' & grid' & tb & diff_b
        & residual_b1 & Hl0' & Hrow' & Hb & _ & _ & _ & _ & _ & _ & _ & HB).
  assert (l0' = l0) as -> by congruence.
  assert (row' = row) as -> by congruence.
  pose proof (SetParameters_at_agree l0 row wa wb Hsame) as Hagree.
  rewrite Ha, Hb in Hagree. destruct Hagree as [Hsame1 Hl0''].
  eapply IH; [exact Hsame1|exact HA|exact HB|].
  destruct (decide (l = l0)) as [->|Hne]; [by left|].
  destruct Hl as [Heq|Hex].
  - left. rewrite (SetParameters_at_other _ _ _ _ _ _ Ha Hne).
    by rewrite (SetParameters_at_other _ _ _ _ _ _ Hb Hne).
  - right. apply Exists_cons in Hex as [Hhead|Htail]; [congruence|done].
Qed.

(** X18: the residual evaluator called again with the same vector, in the
    store the first call left, returns the same residuals and leaves the
    store exactly as it found it: its writes depend on the vector and not
    on what the transform objects held. *)
Theorem residual_evaluator_idempotent self parameters_vec transforms_sitk
    interpolator (w w1 : World R) r :
  _get_residual_data_fit self parameters_vec transforms_sitk interpolator w
    = (w1, Some r) →
  _get_residual_data_fit self parameters_vec transforms_sitk interpolator w1
    = (w1, Some r).
Proof.
  intros H.
  pose proof (_get_residual_data_fit_frame _ _ _ _ _ _ _ H) as [Hs Hsame].
  pose proof (_get_residual_data_fit_agree self parameters_vec transforms_sitk
                interpolator w w1 Hsame) as Hagree.
  rewrite H in Hagree. cbn [snd] in Hagree.
  destruct (_get_residual_data_fit self parameters_vec transforms_sitk
              interpolator w1) as [w2 [r'|]] eqn:H'; cbn [snd] in Hagree;
    [|done].
  simplify_eq. f_equal.
  pose proof (_get_residual_data_fit_frame _ _ _ _ _ _ _ H') as [Hs' Hsame'].
  apply _get_residual_data_fit_returns in H
    as (n1 & dof & parameters & projected & sref & s0 & residual1 & HN & Hdof
        & Hrows & Hproj & Hsref & Hs0 & Hloop & _).
  apply _get_residual_data_fit_returns in H'
    as (n1' & dof' & parameters' & projected' & sref' & s0' & residual2 & HN'
        & Hdof' & Hrows' & Hproj' & Hsref' & Hs0' & Hloop' & _).
  assert (n1' = n1) as -> by congruence.
  rewrite Hdof in Hdof'. simplify_eq.
  assert (w_transforms w2 = w_transforms w1) as Ht.
  { apply list_eq. intros l.
    destruct (decide (Exists (λ i, transforms_sitk !! (i + 1) = Some l)
                        (seq 0 n1))) as [Hex|Hnex].
    - symmetry.
      eapply (residual_loop_converges _ _ _ _ _ _ _ _ _ w w1);
        [exact Hsame|exact Hloop|exact Hloop'|by right].
    - apply residual_loop_touches in Hloop' as [_ Hother]. apply Hother.
      by apply Forall_Exists_neg, Hnex. }
  destruct Hsame' as [H2 _].
  destruct w1 as [a1 b1 c1], w2 as [a2 b2 c2]. cbn in *. congruence.
Qed.

End RepeatedEvaluation.

(** ** The theorems on the example stacks *)

Lemma example_stack_valid :
  stack_valid Example.stack Example.world.
Proof. repeat constructor. Qed.

Lemma example_setup :
  solver_setup (Example.registration, Example.world)
  = ((Example.solver_self, Example.solver_world),
     Some (Example.solver_PP, Example.solver_transforms, replicate 6 0%Z)).
Proof. vm_cast_no_check (eq_refl Example.setup). Qed.

Lemma example_run :
  run_regularized_rigid_inplane_registration
    (Example.registration, Example.world)
  = ((Example.final_self, Example.final_world), None).
Proof. vm_cast_no_check (eq_refl Example.outcome). Qed.

Lemma example_run1 :
  run_regularized_rigid_inplane_registration
    (Example.registration1, Example.world1)
  = ((Example.final_self1, Example.final_world1), None).
Proof. vm_cast_no_check (eq_refl Example.outcome1). Qed.

Lemma example_init :
  __init__ Example.stack false false = Some Example.registration.
Proof. reflexivity. Qed.

Lemma example_plane : plane_of_size 2 2 Example.slice_a.
Proof. exists 1, 1. cbn. split_and!; done || lia. Qed.

Lemma example_evaluator_state :
  evaluator_state Example.solver_self Example.solver_transforms
    Example.solver_world 3 2 2.
Proof.
  exact (solver_setup_state Example.registration Example.world
           Example.solver_self Example.solver_PP Example.solver_transforms
           (replicate 6 0%Z) Example.solver_world 2 2 0 Example.slice_a
           example_setup example_stack_valid eq_refl eq_refl eq_refl
           example_plane).
Qed.

(** The postcondition on the three-slice stack: two blocks of four
    residuals. *)
Lemma residual_postcondition_witness :
  ∃ w',
    _get_residual_data_fit Example.solver_self Example.some_parameters
      Example.solver_transforms sitkLinear Example.solver_world
      = (w', Some [-1; -2; 3; 4; -5; -3; 0; 0]%Z) ∧
    spec_residual Example.solver_self Example.some_parameters
      Example.solver_transforms sitkLinear Example.solver_world 3
      = Some [-1; -2; 3; 4; -5; -3; 0; 0]%Z.
Proof.
  destruct (residual_postcondition Example.solver_self
              Example.some_parameters Example.solver_transforms sitkLinear
              Example.solver_world 3 2 2 ltac:(lia) eq_refl
              example_evaluator_state) as (r & w' & Hcall & Hspec & Hlen).
  exists w'.
  assert (r = [-1; -2; 3; 4; -5; -3; 0; 0]%Z) as <-.
  { vm_compute in Hspec. congruence. }
  by split.
Defined.

(** The effects theorem on the three-slice stack. *)
Lemma residual_evaluator_effects_witness :
  ∃ r w',
    _get_residual_data_fit Example.solver_self Example.some_parameters
      Example.solver_transforms sitkLinear Example.solver_world
      = (w', Some r) ∧
    w_slices w' = w_slices Example.solver_world ∧
    w_slices2D w' = w_slices2D Example.solver_world ∧
    w_transforms w' !! 0 = Some (mkEuler2D 0%Z (0%Z, 1%Z) (0%Z, 0%Z)).
Proof.
  eexists _, _. split; [vm_compute; reflexivity|].
  destruct (residual_evaluator_effects Example.solver_self
              Example.some_parameters Example.solver_transforms sitkLinear
              Example.solver_world _ _ ltac:(vm_compute; lia)
              ltac:(vm_compute; reflexivity))
    as (Hs & H2 & _ & _ & l & t & groups & group & Hl & Ht & Hgroups & Hgroup
        & Hw').
  split; [exact Hs|]. split; [exact H2|].
  vm_compute in Hl. injection Hl as <-.
  vm_compute in Ht. injection Ht as <-.
  vm_compute in Hgroups. injection Hgroups as <-.
  vm_compute in Hgroup. injection Hgroup as <-.
  exact Hw'.
Defined.

(** The determinism theorem on the three-slice stack: the call repeated in
    the store the first call leaves behind. *)
Lemma residual_evaluator_deterministic_witness :
  ∃ r w1,
    _get_residual_data_fit Example.solver_self Example.some_parameters
      Example.solver_transforms sitkLinear Example.solver_world
      = (w1, Some r) ∧
    (_get_residual_data_fit Example.solver_self Example.some_parameters
       Example.solver_transforms sitkLinear w1).2 = Some r ∧
    r = [-1; -2; 3; 4; -5; -3; 0; 0]%Z.
Proof.
  eexists _, _. split; [vm_compute; reflexivity|]. split; [|reflexivity].
  apply (residual_evaluator_deterministic Example.solver_self
           Example.some_parameters Example.solver_transforms sitkLinear
           Example.solver_world).
  vm_compute. reflexivity.
Defined.

(** C8 fails as stated: on the three-slice stack a call of the residual
    evaluator returns and leaves the shared transform object with other
    parameters than it had. *)
Lemma residual_evaluator_not_pure :
  ∃ r w',
    _get_residual_data_fit Example.solver_self Example.some_parameters
      Example.solver_transforms sitkLinear Example.solver_world
      = (w', Some r) ∧
    w_transforms Example.solver_world
      = [mkEuler2D 0%Z (0%Z, 0%Z) (0%Z, 0%Z)] ∧
    w_transforms w' = [mkEuler2D 0%Z (0%Z, 1%Z) (0%Z, 0%Z)] ∧
    w' ≠ Example.solver_world.
Proof.
  eexists _, _. split; [vm_compute; reflexivity|].
  split; [reflexivity|]. split; [reflexivity|].
  intros H. apply (f_equal w_transforms) in H. vm_compute in H. discriminate.
Qed.

(** The composer on the three-slice stack, with a parameter matrix that
    asks for a quarter turn of slice 1: it raises in the first turn of its
    loop, on the row of zeros of slice 0. *)
Lemma correction_composer_raises_witness :
  (_apply_motion_correction Example.solved_self Example.solver_PP
     Example.solver_world).2 = None ∧
  correction_loop Example.solved_self Example.solver_PP [6; 7; 8] [0; 1; 2]
    Euler2DTransform [None; None; None] Example.solver_world
  = (Example.solver_world, None).
Proof.
  destruct (correction_composer_raises Example.solved_self Example.solver_PP
              Example.solver_world ltac:(vm_compute; lia))
    as (Hraise & _ & Hloop).
  split; [exact Hraise|].
  exact (Hloop [6; 7; 8] Euler2DTransform [None; None; None]
           Example.solver_world).
Defined.

(** The run on the three-slice stack: it raises, the registration
    transforms are the three [None] of [__init__], and the parameter matrix
    is the solution of the solve under a row of zeros. *)
Lemma composer_invariant_unreached_witness :
  (run_regularized_rigid_inplane_registration
     (Example.registration, Example.world)).2 = None ∧
  _registration_transforms_sitk Example.final_self = [None; None; None] ∧
  _parameters Example.final_self
  = [Some [0; 0; 0]; Some [0; 0; 0]; Some [-1; -1; 0]]%Z.
Proof.
  pose proof (composer_invariant_unreached Example.registration
                Example.world) as H.
  cbn zeta in H. rewrite example_run in H.
  destruct H as (Hraise & _ & Hinit & Hpar).
  split; [by rewrite example_run|].
  split; [exact (Hinit _ _ _ example_init)|].
  assert (∃ w2 res_x,
            run_solver
              (λ x, _get_residual_data_fit Example.solver_self x
                      Example.solver_transforms sitkLinear)
              (least_squares (replicate 6 0%Z) dogbox linear)
              Example.solver_world = (w2, Some res_x) ∧
            res_x = [0; 0; 0; -1; -1; 0]%Z) as (w2 & res_x & Hsolve & Hres)
    by (eexists _, _; split; vm_compute; reflexivity).
  destruct (Hpar _ _ _ _ _ w2 res_x example_setup Hsolve
              ltac:(by rewrite Hres))
    as (groups & Hgroups & Hparameters & _).
  rewrite Hres in Hgroups. vm_compute in Hgroups. injection Hgroups as <-.
  exact Hparameters.
Defined.

(** The expansion of a transform with angle 1 and translation (2, 3). *)
Lemma expand_2d_rigid_to_3d_raises_witness :
  _get_3D_from_2D_rigid_transform_sitk Example.spare_transform = None ∧
  project_to_plane (expand_2d_rigid_to_3d Example.spare_transform)
  = Example.spare_transform.
Proof.
  destruct (expand_2d_rigid_to_3d_raises Example.spare_transform)
    as (Hraise & _ & Hround).
  by split.
Defined.

Lemma example_setup1 :
  solver_setup (Example.registration1, Example.world1)
  = ((Example.solver_self1, Example.solver_world1),
     Some (Example.solver_PP1, [0], [])).
Proof. vm_cast_no_check (eq_refl Example.setup1). Qed.

(** The run on the one-slice stack: the evaluator returns the empty
    vector, and the run raises without a corrected stack. *)
Lemma single_slice_registration_raises_witness :
  (run_regularized_rigid_inplane_registration
     (Example.registration1, Example.world1)).2 = None ∧
  _stack_corrected Example.final_self1 = None ∧
  _registration_transforms_sitk Example.final_self1 = [None] ∧
  _get_residual_data_fit Example.solver_self1 [] [0] sitkLinear
    Example.solver_world1 = (Example.solver_world1, Some []).
Proof.
  pose proof (single_slice_registration_raises Example.registration1
                Example.world1 eq_refl) as H.
  cbn zeta in H. rewrite example_run1 in H.
  destruct H as (Hraise & Hsc & Hreg & _ & Heval).
  split; [by rewrite example_run1|].
  split; [exact Hsc|]. split; [exact Hreg|].
  destruct (Heval _ _ _ _ _ example_setup1) as [_ Hempty].
  apply Hempty.
Defined.

Lemma example_wide_stack_valid :
  stack_valid Example.wide_stack Example.wide_world.
Proof. repeat constructor. Qed.

Lemma example_wide_projection :
  ∃ w' slices_2D,
    _get_2D_projected_and_masked_slices Example.wide_registration
      Example.wide_stack Example.wide_PP Example.wide_world
    = (w', Some slices_2D).
Proof. eexists _, _. vm_compute. reflexivity. Qed.

(** Mask weighting on a slice of 2 by 2 pixels [1, 2, 3, 4] whose mask has
    3 by 2 pixels [1, 1, 0, 0, 1, 1]: the product is taken index by index,
    so the pixel at (0, 1) meets the mask pixel at (0, 1), the fourth of
    the mask, and the projected slice holds [1, 2, 0, 4]. *)
Lemma mask_weighting_fixed_only_witness :
  ∃ slices_2D w' sref s2,
    _get_2D_projected_and_masked_slices Example.wide_registration
      Example.wide_stack Example.wide_PP Example.wide_world
    = (w', Some slices_2D) ∧
    item slices_2D 0 = Some sref ∧
    w_slices2D w' !! sref = Some s2 ∧
    length (pixels2 (sitk2 s2)) = 4 ∧
    pixels2 (sitk2 s2) !! 0 = Some 1%Z ∧
    pixels2 (sitk2 s2) !! 1 = Some 2%Z ∧
    pixels2 (sitk2 s2) !! 2 = Some 0%Z ∧
    pixels2 (sitk2 s2) !! 3 = Some 4%Z ∧
    _get_2D_projected_and_masked_slices
      (with_use_moving_mask Example.wide_registration true)
      Example.wide_stack Example.wide_PP Example.wide_world
    = (w', Some slices_2D).
Proof.
  destruct example_wide_projection as (w' & slices_2D & H).
  destruct (mask_weighting_fixed_only Example.wide_registration
              Example.wide_stack Example.wide_PP Example.wide_world
              slices_2D w' 0 example_wide_stack_valid H
              ltac:(vm_compute; lia))
    as ((l & s & pp & image & sref & s2 & Hl & Hs & Hpp & Himage & Hsref
         & Hs2 & _ & Hon) & Hmoving).
  destruct (Hon eq_refl)
    as (mask & Hmask & _ & _ & _ & _ & _ & _ & _ & _ & Hlen & Hpix & _).
  vm_compute in Hl. injection Hl as <-.
  vm_compute in Hs. injection Hs as <-.
  vm_compute in Hpp. injection Hpp as <-.
  vm_compute in Himage. injection Himage as <-.
  vm_compute in Hmask. injection Hmask as <-.
  exists slices_2D, w', sref, s2.
  split; [exact H|]. split; [exact Hsref|]. split; [exact Hs2|].
  split; [exact Hlen|].
  split; [exact (Hpix 0 0 ltac:(vm_compute; lia) ltac:(vm_compute; lia))|].
  split; [exact (Hpix 1 0 ltac:(vm_compute; lia) ltac:(vm_compute; lia))|].
  split; [exact (Hpix 0 1 ltac:(vm_compute; lia) ltac:(vm_compute; lia))|].
  split; [exact (Hpix 1 1 ltac:(vm_compute; lia) ltac:(vm_compute; lia))|].
  apply Hmoving.
Defined.


(** The run on the three-slice stack leaves no corrected stack: the getter
    raises after it; the copy the composer starts from is named
    "stack_registered". *)
Lemma corrected_stack_never_produced_witness :
  _stack_corrected Example.final_self = None ∧
  (get_registered_stack Example.final_self Example.final_world).2 = None ∧
  stack_filename (_fixed Example.final_self) = "stack" ∧
  ∃ w2 stack_corrected,
    from_stack Example.stack (Some "stack_registered") Example.solver_world
    = (w2, Some stack_corrected) ∧
    stack_filename stack_corrected = "stack_registered".
Proof.
  pose proof (corrected_stack_never_produced Example.registration
                Example.world) as H.
  cbn zeta in H. rewrite example_run in H.
  destruct H as (_ & Hsc & Hgetter & Hname & Hcopy & _).
  split; [exact Hsc|]. split; [exact (Hgetter eq_refl)|].
  split; [exact Hname|].
  assert (∃ w2 sc,
            from_stack Example.stack (Some "stack_registered")
              Example.solver_world = (w2, Some sc)) as (w2 & sc & Hfrom)
    by (eexists _, _; vm_compute; reflexivity).
  exists w2, sc. split; [exact Hfrom|].
  exact (Hcopy Example.solver_world w2 sc Hfrom).
Defined.

(** ** The further properties on the example stacks *)

(** The residual vector of the three-slice stack has eight entries. *)
Lemma residual_length_witness :
  ∃ r w',
    _get_residual_data_fit Example.solver_self Example.some_parameters
      Example.solver_transforms sitkLinear Example.solver_world
      = (w', Some r) ∧
    length r = 8.
Proof.
  eexists _, _. split; [vm_compute; reflexivity|].
  exact (proj1 (residual_length Example.solver_self Example.some_parameters
                  Example.solver_transforms sitkLinear Example.solver_world
                  _ _ ltac:(vm_compute; reflexivity))).
Defined.

(** The vector of six parameters the three-slice stack accepts. *)
Lemma residual_needs_full_groups_witness :
  1 ≤ _N_slices Example.solver_self ∧
  length Example.some_parameters mod 3 = 0 ∧
  3 * (_N_slices Example.solver_self - 1) ≤ length Example.some_parameters.
Proof.
  assert (∃ w' r, _get_residual_data_fit Example.solver_self
                    Example.some_parameters Example.solver_transforms
                    sitkLinear Example.solver_world = (w', Some r))
    as (w' & r & H) by (eexists _, _; vm_compute; reflexivity).
  exact (residual_needs_full_groups Example.solver_self
           Example.some_parameters Example.solver_transforms sitkLinear
           Example.solver_world r w' eq_refl H).
Defined.

(** A seventh to ninth parameter change nothing on the three-slice
    stack. *)
Lemma residual_surplus_groups_ignored_witness :
  _get_residual_data_fit Example.solver_self
    (Example.some_parameters ++ [5; 5; 5]%Z) Example.solver_transforms
    sitkLinear Example.solver_world
  = _get_residual_data_fit Example.solver_self Example.some_parameters
      Example.solver_transforms sitkLinear Example.solver_world.
Proof.
  apply (residual_surplus_groups_ignored Example.solver_self
           Example.some_parameters [5; 5; 5]%Z Example.solver_transforms
           sitkLinear Example.solver_world); reflexivity.
Defined.

(** Another group for slice 2 leaves the block of slices 0 and 1 as it
    is. *)
Lemma residual_block_locality_witness :
  ∃ r1 w1 r2 w2,
    _get_residual_data_fit Example.solver_self
      ([1; 0; 0] ++ [0; 0; 1] ++ [])%Z Example.solver_transforms sitkLinear
      Example.solver_world = (w1, Some r1) ∧
    _get_residual_data_fit Example.solver_self
      ([1; 0; 0] ++ [1; 0; 0] ++ [])%Z Example.solver_transforms sitkLinear
      Example.solver_world = (w2, Some r2) ∧
    block_at 4 0 r1 = block_at 4 0 r2.
Proof.
  eexists _, _, _, _.
  split; [vm_compute; reflexivity|]. split; [vm_compute; reflexivity|].
  apply (residual_block_locality Example.solver_self [1; 0; 0]%Z [0; 0; 1]%Z
           [1; 0; 0]%Z [] Example.solver_transforms sitkLinear
           Example.solver_world 1 _ _ _ _ eq_refl eq_refl eq_refl eq_refl
           ltac:(vm_compute; reflexivity) ltac:(vm_compute; reflexivity) 0);
    lia.
Defined.

(** The alignment transforms of the three-slice stack. *)
Lemma alignment_transforms_invert_placements_witness :
  ∃ PP,
    _get_list_of_3D_rigid_transforms_of_slices Example.stack Example.world
      = Some PP ∧
    length PP = 3.
Proof.
  assert (∃ PP, _get_list_of_3D_rigid_transforms_of_slices Example.stack
                  Example.world = Some PP)
    as [PP H] by (eexists; vm_compute; reflexivity).
  exists PP. split; [exact H|].
  exact (proj1 (alignment_transforms_invert_placements Example.stack
                  Example.world PP H)).
Defined.

(** The registration of the volume without planes raises. *)
Lemma run_empty_volume_raises_witness :
  _N_slices Example.empty_registration = 0 ∧
  (solver_setup (Example.empty_registration, Example.world)).2 = None ∧
  (run_regularized_rigid_inplane_registration
     (Example.empty_registration, Example.world)).2 = None.
Proof.
  split; [reflexivity|].
  apply (run_empty_volume_raises Example.empty_registration Example.world).
  reflexivity.
Defined.

(** The registration of the stack that lost a slice raises. *)
Lemma run_short_stack_raises_witness :
  length (stack_slices (_fixed Example.short_registration)) = 2 ∧
  _N_slices Example.short_registration = 3 ∧
  (solver_setup (Example.short_registration, Example.world)).2 = None ∧
  (run_regularized_rigid_inplane_registration
     (Example.short_registration, Example.world)).2 = None.
Proof.
  split; [reflexivity|]. split; [reflexivity|].
  apply (run_short_stack_raises Example.short_registration Example.world).
  vm_compute. lia.
Defined.

(** The projection of the three-slice stack makes the projected slices 0,
    1 and 2. *)
Lemma projection_allocates_fresh_objects_witness :
  ∃ w',
    _get_2D_projected_and_masked_slices Example.registration Example.stack
      Example.solver_PP Example.world = (w', Some [Some 0; Some 1; Some 2]) ∧
    w_transforms w' = w_transforms Example.world.
Proof.
  assert (∃ w' slices_2D,
            _get_2D_projected_and_masked_slices Example.registration
              Example.stack Example.solver_PP Example.world
            = (w', Some slices_2D))
    as (w' & slices_2D & H) by (eexists _, _; vm_compute; reflexivity).
  destruct (projection_allocates_fresh_objects Example.registration
              Example.stack Example.solver_PP Example.world slices_2D w'
              example_stack_valid H) as (_ & _ & Ht & ->).
  exists w'. split; [exact H|exact Ht].
Defined.

(** Projected slice 1 of the three-slice stack is named after slice 1. *)
Lemma projection_propagates_names_witness :
  ∃ slices_2D w' sref s2,
    _get_2D_projected_and_masked_slices Example.registration Example.stack
      Example.solver_PP Example.world = (w', Some slices_2D) ∧
    item slices_2D 1 = Some sref ∧ w_slices2D w' !! sref = Some s2 ∧
    slice_filename2 s2 = "stack" ∧ slice_number2 s2 = 1.
Proof.
  assert (∃ w' slices_2D,
            _get_2D_projected_and_masked_slices Example.registration
              Example.stack Example.solver_PP Example.world
            = (w', Some slices_2D))
    as (w' & slices_2D & H) by (eexists _, _; vm_compute; reflexivity).
  destruct (projection_propagates_names Example.registration Example.stack
              Example.solver_PP Example.world slices_2D w' 1
              example_stack_valid H ltac:(vm_compute; lia))
    as (l & s & sref & s2 & copy & Hl & Hs & Hsref & Hs2 & Hname & Hnumber
        & _).
  vm_compute in Hl. injection Hl as <-.
  vm_compute in Hs. injection Hs as <-.
  exists slices_2D, w', sref, s2. split_and!; [exact H|exact Hsref|exact Hs2| |].
  - exact Hname.
  - exact Hnumber.
Defined.

Lemma example_masked_projection :
  ∃ w' slices_2D,
    _get_2D_projected_and_masked_slices Example.masked_registration
      Example.stack Example.solver_PP Example.world = (w', Some slices_2D).
Proof. eexists _, _. vm_compute. reflexivity. Qed.

(** The pixels of projected slice 0 of the three-slice stack with mask
    weighting: the mask of the size of the image hides the last pixel. *)
Lemma projection_pixels_witness :
  ∃ slices_2D w' sref s2,
    _get_2D_projected_and_masked_slices Example.masked_registration
      Example.stack Example.solver_PP Example.world
    = (w', Some slices_2D) ∧
    item slices_2D 0 = Some sref ∧ w_slices2D w' !! sref = Some s2 ∧
    pixels2 (sitk2 s2) = [1; 2; 3; 0]%Z.
Proof.
  destruct example_masked_projection as (w' & slices_2D & H).
  destruct (projection_pixels Example.masked_registration Example.stack
              Example.solver_PP Example.world slices_2D w' 0
              example_stack_valid H ltac:(vm_compute; lia))
    as (l & s & sref & s2 & nx & ny & nz & Hl & Hs & Hsref & Hs2 & Hsize & _
        & _ & _ & _ & Hon).
  vm_compute in Hl. injection Hl as <-.
  vm_compute in Hs. injection Hs as <-.
  vm_compute in Hsize. injection Hsize as <- <- <-.
  destruct (Hon eq_refl)
    as (mx & my & mz & Hmsize & _ & _ & _ & _ & _ & Hsame).
  vm_compute in Hmsize. injection Hmsize as <- <- <-.
  exists slices_2D, w', sref, s2.
  split_and!; [exact H|exact Hsref|exact Hs2|].
  exact (Hsame eq_refl eq_refl ltac:(vm_compute; lia) ltac:(vm_compute; lia)).
Defined.

(** The projection of the slice whose mask is narrower than its image
    raises. *)
Lemma projection_raises_on_mask_mismatch_witness :
  (_get_2D_projected_and_masked_slices Example.wide_registration
     Example.wide_stack Example.wide_PP Example.narrow_world).2 = None.
Proof.
  eapply (projection_raises_on_mask_mismatch Example.wide_registration
            Example.wide_stack Example.wide_PP Example.narrow_world 0
            Example.narrow_slice);
    [reflexivity|vm_compute; lia|reflexivity|reflexivity
    |vm_compute; reflexivity|vm_compute; reflexivity|vm_compute; reflexivity
    |].
  right. left. vm_compute. lia.
Defined.

(** The spare transform object is not touched by an evaluation that does
    not name it after entry 0. *)
Lemma residual_evaluator_writes_only_listed_witness :
  ∃ r w',
    _get_residual_data_fit Example.solver_self Example.some_parameters
      Example.spare_transforms sitkLinear Example.spare_world
      = (w', Some r) ∧
    w_transforms w' !! 1 = Some Example.spare_transform.
Proof.
  eexists _, _. split; [vm_compute; reflexivity|].
  refine (proj1 (residual_evaluator_writes_only_listed Example.solver_self
                   Example.some_parameters Example.spare_transforms
                   sitkLinear Example.spare_world _ _ 1
                   ltac:(vm_compute; reflexivity) _)).
  intros i Hi. change (_N_slices Example.solver_self) with 3 in Hi.
  destruct i as [|[|[|i]]]; [lia|discriminate|discriminate|lia].
Defined.

(** The run on the three-slice stack leaves one transform object. *)
Lemma run_adds_one_transform_object_witness :
  ∃ t, w_transforms Example.final_world = w_transforms Example.world ++ [t] ∧
       e2_center t = (0, 0)%Z.
Proof.
  pose proof (run_adds_one_transform_object Example.registration
                Example.world) as H.
  cbn zeta in H. rewrite example_run in H.
  destruct H as [H|H]; [|exact H].
  vm_compute in H. discriminate H.
Defined.

(** The evaluation of the three-slice stack, repeated. *)
Lemma residual_evaluator_idempotent_witness :
  ∃ r w1,
    _get_residual_data_fit Example.solver_self Example.some_parameters
      Example.solver_transforms sitkLinear Example.solver_world
      = (w1, Some r) ∧
    _get_residual_data_fit Example.solver_self Example.some_parameters
      Example.solver_transforms sitkLinear w1 = (w1, Some r).
Proof.
  eexists _, _. split; [vm_compute; reflexivity|].
  apply (residual_evaluator_idempotent Example.solver_self
           Example.some_parameters Example.solver_transforms sitkLinear
           Example.solver_world).
  vm_compute. reflexivity.
Defined.
